(** * Football data synchronisation handler

    A shallow embedding of [src/football_data_api_function.js]: the
    scheduled function [handler] that pulls competitions, standings and
    finished matches from the football-data API and writes a bounded
    subset into three collections of a document store.

    The function is modelled in a state-and-exception monad.  The state
    holds the document store, the handler's local counter
    [requestsMade], the logging sink of the invocation context and two
    traces (the upstream HTTP calls and the store operations issued).
    The upstream API, the store's failures, the client construction and
    the identifier generator are outside the repository and are taken as
    parameters.  Of the store the model keeps what the handler relies
    on: a collection is the list of its documents in order of creation,
    [listDocuments] with an equality query answers with the documents
    whose attribute has the value, [createDocument] appends one
    document, and an operation the store rejects throws and changes
    nothing. *)

From Stdlib Require Import String Ascii List ZArith Bool Lia Arith.
From Stdlib Require DecimalString DecimalNat.
Import ListNotations.

Local Open Scope string_scope.
Local Open Scope list_scope.

Set Warnings "-register-all".

(** ** JavaScript values carried by the JSON payloads *)

(** A parsed JSON document, plus [VUndef] for the result of reading a
    property that is not there.  Numbers are the integers the payloads
    carry (positions, points, scores, identifiers).  An object is the
    list of its own properties, in order. *)
Inductive value : Type :=
| VUndef
| VNull
| VBool (b : bool)
| VNum (z : Z)
| VStr (s : string)
| VArr (items : list value)
| VObj (fields : list (string * value)).

(** Strict equality on primitives, structural on arrays and objects: the
    comparison the store applies to an equality filter, and [===]
    against a string literal. *)
Fixpoint value_eqb (a b : value) {struct a} : bool :=
  match a, b with
  | VUndef, VUndef => true
  | VNull, VNull => true
  | VBool x, VBool y => Bool.eqb x y
  | VNum x, VNum y => Z.eqb x y
  | VStr x, VStr y => String.eqb x y
  | VArr xs, VArr ys =>
      (fix items_eqb (xs ys : list value) {struct xs} : bool :=
         match xs, ys with
         | [], [] => true
         | x :: xs', y :: ys' => value_eqb x y && items_eqb xs' ys'
         | _, _ => false
         end) xs ys
  | VObj fs, VObj gs =>
      (fix fields_eqb (fs gs : list (string * value)) {struct fs} : bool :=
         match fs, gs with
         | [], [] => true
         | (k, x) :: fs', (l, y) :: gs' =>
             String.eqb k l && value_eqb x y && fields_eqb fs' gs'
         | _, _ => false
         end) fs gs
  | _, _ => false
  end.

(** [v == null]: the test behind [?.] and [??]. *)
Definition nullish (v : value) : bool :=
  match v with
  | VUndef | VNull => true
  | _ => false
  end.

(** Truthiness, as [||] tests it. *)
Definition truthy (v : value) : bool :=
  match v with
  | VUndef | VNull => false
  | VBool b => b
  | VNum z => negb (Z.eqb z 0)
  | VStr s => negb (String.eqb s "")
  | VArr _ | VObj _ => true
  end.

(** Own property of an object. *)
Fixpoint lookup (k : string) (fields : list (string * value)) : value :=
  match fields with
  | [] => VUndef
  | (k', v) :: rest => if String.eqb k k' then v else lookup k rest
  end.

(** ** String primitives used on endpoints *)

(** [s.startsWith(p)] *)
Definition startsWith (s p : string) : bool := String.prefix p s.

(** [s.endsWith(p)] *)
Definition endsWith (s p : string) : bool :=
  (String.length p <=? String.length s)%nat
  && String.eqb (substring (String.length s - String.length p) (String.length p) s) p.

(** [s.includes(p)] *)
Fixpoint includes (s p : string) : bool :=
  String.prefix p s
  || match s with
     | EmptyString => false
     | String _ s' => includes s' p
     end.

(** [s.split(c)] for a one-character separator. *)
Fixpoint split (sep : ascii) (s : string) : list string :=
  match s with
  | EmptyString => [EmptyString]
  | String c s' =>
      if Ascii.eqb c sep then EmptyString :: split sep s'
      else match split sep s' with
           | [] => [String c EmptyString]
           | seg :: segs => String c seg :: segs
           end
  end.

(** The characters of a string, as [for ... of] yields them. *)
Fixpoint chars (s : string) : list value :=
  match s with
  | EmptyString => []
  | String c s' => VStr (String c EmptyString) :: chars s'
  end.

(** ** The resource classifier *)

Inductive kind : Type := Standing | Competition | Match.

(** The [if / else if / else if] chain of the task body (standings test
    first, then the bare competition test, then the matches test).  An
    endpoint that passes none of the three is fetched and not stored. *)
Definition classify (endpoint : string) : option kind :=
  if startsWith endpoint "/competitions/" && endsWith endpoint "/standings"
  then Some Standing
  else if startsWith endpoint "/competitions/" && negb (includes endpoint "/matches")
  then Some Competition
  else if includes endpoint "/matches"
  then Some Match
  else None.

(** [endpoint.split('/')[2]] *)
Definition compCode (endpoint : string) : value :=
  match nth_error (split "/" endpoint) 2 with
  | Some seg => VStr seg
  | None => VUndef
  end.

(** ** Exceptions and fallible expressions *)

Inductive exn : Type :=
| FetchError (msg : string)   (* [axios.get] rejected *)
| TypeError (msg : string)    (* a property of [null] or [undefined] was read, or a non-function called *)
| StoreError (msg : string)   (* [listDocuments] or [createDocument] rejected *)
| InitError (msg : string).   (* the client construction threw *)

(** [error.message] *)
Definition message (e : exn) : string :=
  match e with
  | FetchError m | TypeError m | StoreError m | InitError m => m
  end.

Inductive result (A : Type) : Type :=
| Ok (a : A)
| Throw (e : exn).
Arguments Ok {A} a.
Arguments Throw {A} e.

Definition rbind {A B : Type} (r : result A) (k : A -> result B) : result B :=
  match r with
  | Ok a => k a
  | Throw e => Throw e
  end.

Notation "'let*' x ':=' r 'in' k" := (rbind r (fun x => k))
  (at level 10, x name, r at level 100, k at level 200).

(** [v.k]: a [TypeError] on [null] and [undefined]; [undefined] when
    the object has no such property or [v] is a primitive or an array
    (none of the names the handler reads is a built-in member). *)
Definition get (k : string) (v : value) : result value :=
  match v with
  | VUndef => Throw (TypeError ("Cannot read properties of undefined (reading '" ++ k ++ "')")%string)
  | VNull => Throw (TypeError ("Cannot read properties of null (reading '" ++ k ++ "')")%string)
  | VObj fields => Ok (lookup k fields)
  | _ => Ok VUndef
  end.

(** [v[0]] on a value that is not nullish. *)
Definition item0 (v : value) : value :=
  match v with
  | VArr items => hd VUndef items
  | VStr s => hd VUndef (chars s)
  | VObj fields => lookup "0" fields
  | _ => VUndef
  end.

(** [v.slice(0, 10)] on a value that is not nullish: arrays and strings
    have the method, anything else has none to call. *)
Definition slice_0_10 (v : value) : result value :=
  match v with
  | VArr items => Ok (VArr (firstn 10 items))
  | VStr s => Ok (VStr (substring 0 10 s))
  | _ => Throw (TypeError "slice is not a function")
  end.

(** [v || []] *)
Definition or_empty (v : value) : value :=
  if truthy v then v else VArr [].

(** [a ?? null] *)
Definition or_null (v : value) : value :=
  if nullish v then VNull else v.

(** The values [for (const x of v)] visits. *)
Definition elements (v : value) : result (list value) :=
  match v with
  | VArr items => Ok items
  | VStr s => Ok (chars s)
  | _ => Throw (TypeError "value is not iterable")
  end.

(** [data.standings?.[0]?.table?.slice(0, 10) || []] *)
Definition standings_of (data : value) : result value :=
  let* st := get "standings" data in
  let* sliced :=
    if nullish st then Ok VUndef
    else
      let first := item0 st in
      if nullish first then Ok VUndef
      else
        let* table := get "table" first in
        if nullish table then Ok VUndef else slice_0_10 table in
  Ok (or_empty sliced).

(** [data.matches?.slice(0, 10) || []] *)
Definition matches_of (data : value) : result value :=
  let* ms := get "matches" data in
  let* sliced := if nullish ms then Ok VUndef else slice_0_10 ms in
  Ok (or_empty sliced).

(** ** Documents *)

Definition body : Type := list (string * value).

(** The body of a Standing document. *)
Definition standing_body (code standing : value) : result body :=
  let* position := get "position" standing in
  let* team := get "team" standing in
  let* team_name := get "name" team in
  let* points := get "points" standing in
  let* played := get "playedGames" standing in
  Ok [("competition_code", code); ("position", position);
      ("team_name", team_name); ("points", points);
      ("played_games", played)].

(** The body of a Competition document. *)
Definition competition_body (code data : value) : result body :=
  let* name := get "name" data in
  let* area := get "area" data in
  let* area_name := get "name" area in
  Ok [("code", code); ("name", name); ("area_name", area_name)].

(** The body of a Match document; [documentId] is stored in it too. *)
Definition match_body (documentId : string) (code m : value) : result body :=
  let* id := get "id" m in
  let* home := get "homeTeam" m in
  let* home_name := get "name" home in
  let* away := get "awayTeam" m in
  let* away_name := get "name" away in
  let* score := get "score" m in
  let* full := get "fullTime" score in
  let* score_home := get "home" full in
  let* score' := get "score" m in
  let* full' := get "fullTime" score' in
  let* score_away := get "away" full' in
  let* status := get "status" m in
  let* utc := get "utcDate" m in
  Ok [("$id", VStr documentId); ("match_id", id);
      ("competition_code", code); ("home_team_name", home_name);
      ("away_team_name", away_name); ("score_home", or_null score_home);
      ("score_away", or_null score_away); ("status", status);
      ("utc_date", utc)].

Inductive collection : Type := Competitions | Standings | Matches.

(** [sdk.Permission.read(sdk.Role.any())], the only permission used. *)
Inductive permission : Type := ReadAny.

Record document : Type := mkDocument {
  doc_id : string;
  doc_body : body;
  doc_perms : option (list permission)   (* [None]: no permission argument *)
}.

(** The attribute of a stored document. *)
Definition field (k : string) (d : document) : value := lookup k (doc_body d).

(** The operations the handler issues to the store. *)
Inductive store_op : Type :=
| OpList (c : collection) (key : string) (v : value)
    (* [listDocuments(db, c, [Query.equal(key, v)])] *)
| OpCreate (c : collection) (d : document).
    (* [createDocument(db, c, id, body, perms)] *)

(** ** Log entries of the invocation context *)

Inductive log_entry : Type :=
| LogInvoked
| LogClientInitialized
| LogProcessingTasks (endpoints : list string)
| LogMaxRequests
| LogTask (endpoint : string)
| LogResponse (endpoint : string) (data : value)
| LogStandingsCount (n : nat) (code : value)
| LogSavedStanding (code position team_name : value)
| LogSavedCompetition (code name : value)
| LogSkippedCompetition (code : value)
| LogMatchesCount (n : nat) (code : value)
| LogSavedMatch (id code : value) (documentId : string)
| LogSkippedMatch (id code : value)
| LogFailedTask (endpoint msg : string)       (* the [ERROR: Failed task] entry *)
| LogUnexpected (msg : string).               (* the [ERROR: Unexpected error] entry *)

(** ** State *)

Record state : Type := mkState {
  competitions : list document;
  standings : list document;
  matches : list document;
  next_id : nat;                       (* identifiers drawn so far *)
  store_ops : list store_op;           (* store operations issued, oldest first *)
  http_calls : list (string * bool);   (* upstream calls: endpoint, completed? *)
  sink : list log_entry;               (* [context.log], oldest first *)
  requestsMade : Z                     (* the handler's counter *)
}.

Definition empty_store : state :=
  mkState [] [] [] 0 [] [] [] 0.

Definition documents (c : collection) (s : state) : list document :=
  match c with
  | Competitions => competitions s
  | Standings => standings s
  | Matches => matches s
  end.

Definition write_log (e : log_entry) (s : state) : state :=
  mkState (competitions s) (standings s) (matches s) (next_id s)
          (store_ops s) (http_calls s) (sink s ++ [e]) (requestsMade s).

Definition record_call (endpoint : string) (completed : bool) (s : state) : state :=
  mkState (competitions s) (standings s) (matches s) (next_id s)
          (store_ops s) (http_calls s ++ [(endpoint, completed)]) (sink s)
          (requestsMade s).

Definition record_op (op : store_op) (s : state) : state :=
  mkState (competitions s) (standings s) (matches s) (next_id s)
          (store_ops s ++ [op]) (http_calls s) (sink s) (requestsMade s).

Definition set_requestsMade (n : Z) (s : state) : state :=
  mkState (competitions s) (standings s) (matches s) (next_id s)
          (store_ops s) (http_calls s) (sink s) n.

Definition draw_id (s : state) : state :=
  mkState (competitions s) (standings s) (matches s) (S (next_id s))
          (store_ops s) (http_calls s) (sink s) (requestsMade s).

Definition append_document (c : collection) (d : document) (s : state) : state :=
  match c with
  | Competitions =>
      mkState (competitions s ++ [d]) (standings s) (matches s) (next_id s)
              (store_ops s) (http_calls s) (sink s) (requestsMade s)
  | Standings =>
      mkState (competitions s) (standings s ++ [d]) (matches s) (next_id s)
              (store_ops s) (http_calls s) (sink s) (requestsMade s)
  | Matches =>
      mkState (competitions s) (standings s) (matches s ++ [d]) (next_id s)
              (store_ops s) (http_calls s) (sink s) (requestsMade s)
  end.

(** ** The monad of the handler: state and exceptions *)

Definition M (A : Type) : Type := state -> result A * state.

Definition ret {A : Type} (a : A) : M A := fun s => (Ok a, s).

Definition bind {A B : Type} (m : M A) (k : A -> M B) : M B :=
  fun s =>
    match m s with
    | (Ok a, s') => k a s'
    | (Throw e, s') => (Throw e, s')
    end.

Notation "x <- m ;; k" := (bind m (fun x => k))
  (at level 100, m at next level, right associativity).
Notation "m ;; k" := (bind m (fun _ => k))
  (at level 100, right associativity).

(** A fallible expression evaluated in place. *)
Definition lift {A : Type} (r : result A) : M A := fun s => (r, s).

(** [context.log(...)] *)
Definition log (e : log_entry) : M unit := fun s => (Ok tt, write_log e s).

(** [for (const x of xs) { await f(x) }] *)
Fixpoint for_each {A : Type} (f : A -> M unit) (xs : list A) : M unit :=
  match xs with
  | [] => ret tt
  | x :: rest => f x ;; for_each f rest
  end.

(** [try { m } catch (error) { h(error) }] *)
Definition try_catch {A : Type} (m : M A) (h : exn -> M A) : M A :=
  fun s =>
    match m s with
    | (Ok a, s') => (Ok a, s')
    | (Throw e, s') => h e s'
    end.

(** ** The task list *)

Record task : Type := mkTask { endpoint : string; priority : Z }.

Definition tasks : list task :=
  [ mkTask "/competitions/PL" 1;
    mkTask "/competitions/PL/standings" 2;
    mkTask "/competitions/PL/matches?status=FINISHED" 3;
    mkTask "/competitions/CL" 1;
    mkTask "/competitions/CL/standings" 2;
    mkTask "/competitions/CL/matches?status=FINISHED" 3;
    mkTask "/competitions/EC" 1;
    mkTask "/competitions/EC/standings" 2;
    mkTask "/competitions/EC/matches?status=FINISHED" 3 ].

Definition maxRequests : Z := 10.

(** What [context.res.json] is given. *)
Inductive response : Type :=
| Success (logs : list string) (requests_made : Z)
| Failure (msg : string) (logs : list string).

Definition status (r : response) : string :=
  match r with
  | Success _ _ => "success"
  | Failure _ _ => "error"
  end.

Definition response_logs (r : response) : list string :=
  match r with
  | Success logs _ => logs
  | Failure _ logs => logs
  end.

(** ** The handler *)

Section Handler.

(** The upstream API: what the [n]-th call of the process, a GET of
    the endpoint, comes back with: an error message when [axios.get]
    rejects, [response.data] otherwise. *)
Variable api : nat -> string -> string + value.

(** The store's failures: the error message of the [n]-th store
    operation when it is rejected. *)
Variable store_fails : nat -> option string.

(** [sdk.ID.unique()]: the [n]-th identifier drawn. *)
Variable fresh_id : nat -> string.

(** The client construction ([new sdk.Client()...], which reads the
    configuration globals): the message of the error it throws, if
    any. *)
Variable init_fails : option string.

(** [await axios.get(baseUrl + endpoint, { headers })], then
    [response.data]. *)
Definition axios_get (endpoint : string) : M value :=
  fun s =>
    match api (length (http_calls s)) endpoint with
    | inr data => (Ok data, record_call endpoint true s)
    | inl msg => (Throw (FetchError msg), record_call endpoint false s)
    end.

(** [requestsMade++] *)
Definition incr_requestsMade : M unit :=
  fun s => (Ok tt, set_requestsMade (requestsMade s + 1) s).

(** The entry with [JSON.stringify(data, null, 2).substring(0, 500)]:
    [JSON.stringify(undefined)] is [undefined], which has no
    [substring]. *)
Definition log_response (endpoint : string) (data : value) : M unit :=
  match data with
  | VUndef =>
      lift (Throw (TypeError "Cannot read properties of undefined (reading 'substring')"))
  | _ => log (LogResponse endpoint data)
  end.

(** [sdk.ID.unique()] *)
Definition ID_unique : M string :=
  fun s => (Ok (fresh_id (next_id s)), draw_id s).

(** [await databases.listDocuments(db, c, [Query.equal(key, v)])],
    then [.documents]. *)
Definition listDocuments (c : collection) (key : string) (v : value)
  : M (list document) :=
  fun s =>
    let s' := record_op (OpList c key v) s in
    match store_fails (length (store_ops s)) with
    | Some msg => (Throw (StoreError msg), s')
    | None => (Ok (filter (fun d => value_eqb (field key d) v) (documents c s)), s')
    end.

(** [await databases.createDocument(db, c, id, body, perms)] *)
Definition createDocument (c : collection) (id : string) (b : body)
           (perms : option (list permission)) : M unit :=
  fun s =>
    let d := mkDocument id b perms in
    let s' := record_op (OpCreate c d) s in
    match store_fails (length (store_ops s)) with
    | Some msg => (Throw (StoreError msg), s')
    | None => (Ok tt, append_document c d s')
    end.

(** One turn of the loop over the standings. *)
Definition store_standing (code standing : value) : M unit :=
  id <- ID_unique ;;
  b <- lift (standing_body code standing) ;;
  createDocument Standings id b None ;;
  log (LogSavedStanding code (lookup "position" b) (lookup "team_name" b)).

(** The standings branch. *)
Definition store_standings (code data : value) : M unit :=
  rows <- lift (standings_of data) ;;
  items <- lift (elements rows) ;;
  log (LogStandingsCount (length items) code) ;;
  for_each (store_standing code) items.

(** The competition branch. *)
Definition store_competition (code data : value) : M unit :=
  existingComps <- listDocuments Competitions "code" code ;;
  if (length existingComps =? 0)%nat then
    id <- ID_unique ;;
    b <- lift (competition_body code data) ;;
    createDocument Competitions id b (Some [ReadAny]) ;;
    log (LogSavedCompetition code (lookup "name" b))
  else
    log (LogSkippedCompetition code).

(** One turn of the loop over the matches. *)
Definition store_match (code m : value) : M unit :=
  st <- lift (get "status" m) ;;
  if value_eqb st (VStr "FINISHED") then
    id <- lift (get "id" m) ;;
    existingMatches <- listDocuments Matches "match_id" id ;;
    if (length existingMatches =? 0)%nat then
      documentId <- ID_unique ;;
      b <- lift (match_body documentId code m) ;;
      createDocument Matches documentId b (Some [ReadAny]) ;;
      log (LogSavedMatch id code documentId)
    else
      log (LogSkippedMatch id code)
  else
    ret tt.

(** The matches branch. *)
Definition store_matches (code data : value) : M unit :=
  ms <- lift (matches_of data) ;;
  items <- lift (elements ms) ;;
  log (LogMatchesCount (length items) code) ;;
  for_each (store_match code) items.

(** The body of the inner [try]. *)
Definition process_task (endpoint : string) : M unit :=
  data <- axios_get endpoint ;;
  incr_requestsMade ;;
  log_response endpoint data ;;
  match classify endpoint with
  | Some Standing => store_standings (compCode endpoint) data
  | Some Competition => store_competition (compCode endpoint) data
  | Some Match => store_matches (compCode endpoint) data
  | None => ret tt
  end.

(** One turn of the loop over the tasks, past the budget test: the
    inner [try] and its [catch]. *)
Definition run_task (endpoint : string) : M unit :=
  log (LogTask endpoint) ;;
  try_catch (process_task endpoint)
            (fun error => log (LogFailedTask endpoint (message error))).

(** [for (const task of tasks) { if (requestsMade >= max) break; ... }] *)
Fixpoint run_tasks (max : Z) (ts : list task) : M unit :=
  match ts with
  | [] => ret tt
  | t :: rest =>
      fun s =>
        if (requestsMade s >=? max)%Z then log LogMaxRequests s
        else (run_task (endpoint t) ;; run_tasks max rest) s
  end.

(** The client construction. *)
Definition init_client : M unit :=
  match init_fails with
  | Some msg => lift (Throw (InitError msg))
  | None => ret tt
  end.

(** [let requestsMade = 0] *)
Definition reset_requestsMade : M unit :=
  fun s => (Ok tt, set_requestsMade 0 s).

(** [{ status: 'success', logs, requests_made: requestsMade }] *)
Definition success_response (logs : list string) : M response :=
  fun s => (Ok (Success logs (requestsMade s)), s).

(** The handler, for a budget and a task list. *)
Definition handler_with (max : Z) (ts : list task) : M response :=
  let logs : list string := [] in
  log LogInvoked ;;
  try_catch
    (init_client ;;
     log LogClientInitialized ;;
     log (LogProcessingTasks (map endpoint ts)) ;;
     reset_requestsMade ;;
     run_tasks max ts ;;
     success_response logs)
    (fun error =>
       log (LogUnexpected (message error)) ;;
       ret (Failure (message error) logs)).

(** [export default async function handler(context)] *)
Definition handler : M response := handler_with maxRequests tasks.

(** What the inner [try] does with the response it obtained. *)
Definition classified (e : string) (data : value) : M unit :=
  log_response e data ;;
  match classify e with
  | Some Standing => store_standings (compCode e) data
  | Some Competition => store_competition (compCode e) data
  | Some Match => store_matches (compCode e) data
  | None => ret tt
  end.

(** The state in which the loop starts. *)
Definition loop_start (ts : list task) (s : state) : state :=
  set_requestsMade 0
    (write_log (LogProcessingTasks (map endpoint ts))
       (write_log LogClientInitialized (write_log LogInvoked s))).

End Handler.

(** ** Vocabulary of the properties *)

(** [m] keeps [R]: the state it ends in is related to the one it
    started from, whether it returns or throws. *)
Definition preserves {A : Type} (R : state -> state -> Prop) (m : M A) : Prop :=
  forall s, R s (snd (m s)).

Definition public (d : document) : Prop := doc_perms d = Some [ReadAny].

Definition unrestricted (d : document) : Prop := doc_perms d = None.

(** Every collection of [s'] is the one of [s] followed by new
    documents, public-read in the competitions and the matches, created
    without a permission argument in the standings. *)
Definition store_grows (s s' : state) : Prop :=
  exists nc ns nm,
    competitions s' = competitions s ++ nc
    /\ standings s' = standings s ++ ns
    /\ matches s' = matches s ++ nm
    /\ Forall public nc /\ Forall unrestricted ns /\ Forall public nm.

(** The permission argument the handler passes, per collection. *)
Definition permission_argument (c : collection) : option (list permission) :=
  match c with
  | Standings => None
  | Competitions | Matches => Some [ReadAny]
  end.

Definition well_permitted (op : store_op) : Prop :=
  match op with
  | OpList _ _ _ => True
  | OpCreate c d => doc_perms d = permission_argument c
  end.

(** The operations issued from [s] to [s'] are listings and creations
    with the permission argument of their collection. *)
Definition trace_grows (s s' : state) : Prop :=
  exists new, store_ops s' = store_ops s ++ new /\ Forall well_permitted new.

(** The upstream calls and the counter are untouched. *)
Definition same_requests (s s' : state) : Prop :=
  http_calls s' = http_calls s /\ requestsMade s' = requestsMade s.

(** The calls that completed ([axios.get] resolved). *)
Definition completed (calls : list (string * bool)) : Z :=
  Z.of_nat (length (filter snd calls)).


(** ** Sample environments and payloads *)

(** A store that accepts every operation. *)
Definition reliable_store : nat -> option string := fun _ => None.

(** An upstream API that rejects every call. *)
Definition unreachable_api : nat -> string -> string + value :=
  fun _ _ => inl "connect ECONNREFUSED".

(** An upstream API that answers the same at every call. *)
Definition steady_api (responses : string -> string + value)
  : nat -> string -> string + value :=
  fun _ => responses.

(** Identifiers [id-0], [id-1], ... *)
Definition numbered_id (n : nat) : string :=
  "id-" ++ DecimalString.NilEmpty.string_of_uint (Nat.to_uint n).

Definition team (name : string) : value := VObj [("name", VStr name)].

Definition table_row (position : Z) (name : string) : value :=
  VObj [("position", VNum position); ("team", team name);
        ("points", VNum (3 * (20 - position))); ("playedGames", VNum 19)].

Definition match_entry (id : Z) (st : string) : value :=
  VObj [("id", VNum id); ("status", VStr st);
        ("utcDate", VStr "2024-05-19T15:00:00Z");
        ("homeTeam", team "Home"); ("awayTeam", team "Away");
        ("score", VObj [("fullTime", VObj [("home", VNum 2); ("away", VNum 1)])])].

(** [{name: "Premier League", area: {name: "England"}}] *)
Definition premier_league : value :=
  VObj [("name", VStr "Premier League");
        ("area", VObj [("name", VStr "England")])].

(** A standings response with twelve table rows. *)
Definition twelve_rows : list value :=
  map (fun p => table_row p "Club") [1; 2; 3; 4; 5; 6; 7; 8; 9; 10; 11; 12]%Z.

Definition standings_response : value :=
  VObj [("standings", VArr [VObj [("table", VArr twelve_rows)]])].

(** A matches response with eleven entries, the first and the third
    finished, the others scheduled. *)
Definition eleven_matches : list value :=
  [match_entry 101 "FINISHED"; match_entry 102 "SCHEDULED";
   match_entry 103 "FINISHED"; match_entry 104 "SCHEDULED";
   match_entry 105 "SCHEDULED"; match_entry 106 "SCHEDULED";
   match_entry 107 "SCHEDULED"; match_entry 108 "SCHEDULED";
   match_entry 109 "SCHEDULED"; match_entry 110 "SCHEDULED";
   match_entry 111 "SCHEDULED"].

Definition matches_response : value := VObj [("matches", VArr eleven_matches)].

(** The three Premier League endpoints answer; the others are rejected. *)
Definition premier_league_only (e : string) : string + value :=
  if String.eqb e "/competitions/PL" then inr premier_league
  else if String.eqb e "/competitions/PL/standings" then inr standings_response
  else if String.eqb e "/competitions/PL/matches?status=FINISHED" then inr matches_response
  else inl "Request failed with status code 403".

(** Eleven tasks, for a budget of ten. *)
Definition eleven_tasks : list task :=
  tasks ++ [mkTask "/competitions/BL1" 1; mkTask "/competitions/BL1/standings" 2].

(** A store that rejects its second operation (the creation of the
    first Competition document in a run that starts with [PL]) and
    accepts the rest. *)
Definition second_operation_fails : nat -> option string :=
  fun n => if (n =? 1)%nat then Some "Server Error" else None.

(** ** Vocabulary of the branch properties *)

(** The state in which the branch of a task starts: the call is
    recorded as completed, the counter incremented, the response
    logged. *)
Definition fetched (e : string) (data : value) (s : state) : state :=
  write_log (LogResponse e data)
    (set_requestsMade (requestsMade s + 1)
       (record_call e true (write_log (LogTask e) s))).

(** The documents of a collection whose attribute [key] is [v]. *)
Definition having (key : string) (v : value) (docs : list document) : list document :=
  filter (fun d => value_eqb (field key d) v) docs.

(** A table row of which every read of the standings loop succeeds. *)
Definition well_formed_row (row : value) : Prop :=
  forall code, exists b, standing_body code row = Ok b.

(** [match.status === 'FINISHED'], for an entry that is not nullish. *)
Definition is_finished (m : value) : bool :=
  match get "status" m with
  | Ok st => value_eqb st (VStr "FINISHED")
  | Throw _ => false
  end.

(** [match.id], for an entry that is not nullish. *)
Definition match_id_of (m : value) : value :=
  match get "id" m with
  | Ok id => id
  | Throw _ => VUndef
  end.

(** A match entry whose document can be built when it is finished:
    it has the teams and the full-time score the body reads. *)
Definition insertable (m : value) : Prop :=
  is_finished m = true ->
  forall documentId code, exists b, match_body documentId code m = Ok b.








(** A standings response of three rows, the second without a team. *)
Definition row_without_team : value :=
  VObj [("position", VNum 2); ("points", VNum 54); ("playedGames", VNum 19)].

Definition teamless_second_row : list value :=
  [table_row 1 "Club"; row_without_team; table_row 3 "Club"].

Definition teamless_second_row_response : value :=
  VObj [("standings", VArr [VObj [("table", VArr teamless_second_row)]])].

(** The [standings[0].table] path leads nowhere: the response is not
    [null] or [undefined] itself, and one of the steps of the path
    is. *)
Definition table_absent (data : value) : Prop :=
  exists st,
    get "standings" data = Ok st
    /\ (nullish st = true
        \/ nullish (item0 st) = true
        \/ exists table, get "table" (item0 st) = Ok table /\ nullish table = true).

(** ** Vocabulary of the two-run property *)

(** The bodies the standings loop writes on a store that accepts every
    operation: one per row, up to the first row a read fails on. *)
Fixpoint standing_bodies (code : value) (rows : list value) : list body :=
  match rows with
  | [] => []
  | row :: rest =>
      match standing_body code row with
      | Ok b => b :: standing_bodies code rest
      | Throw _ => []
      end
  end.

(** The bodies one task adds to the standings, given the responses. *)
Definition task_standings (responses : string -> string + value) (e : string)
  : list body :=
  match responses e with
  | inl _ => []
  | inr VUndef => []
  | inr data =>
      match classify e with
      | Some Standing =>
          match (let* rows := standings_of data in elements rows) with
          | Ok items => standing_bodies (compCode e) items
          | Throw _ => []
          end
      | _ => []
      end
  end.

(** The bodies a run of the loop adds to the standings, from the
    counter it starts with. *)
Fixpoint run_standings (responses : string -> string + value) (max : Z)
         (ts : list task) (counter : Z) : list body :=
  match ts with
  | [] => []
  | t :: rest =>
      if (counter >=? max)%Z then []
      else task_standings responses (endpoint t)
           ++ run_standings responses max rest
                (match responses (endpoint t) with
                 | inr _ => counter + 1
                 | inl _ => counter
                 end)%Z
  end.

(** Every finished entry among the first ten of the response to every
    Match task of [ts] is insertable. *)
Definition finished_matches_insertable (responses : string -> string + value)
           (ts : list task) : Prop :=
  forall t data ms items,
    In t ts ->
    classify (endpoint t) = Some Match ->
    responses (endpoint t) = inr data ->
    matches_of data = Ok ms ->
    elements ms = Ok items ->
    Forall insertable items.

(** Responses in which a finished match of the Premier League lacks its
    teams and score, and the Champions League lists the same match in
    full. *)
Definition truncated_entry : value :=
  VObj [("id", VNum 1); ("status", VStr "FINISHED")].

Definition overlapping_responses (e : string) : string + value :=
  if String.eqb e "/competitions/PL/matches?status=FINISHED"
  then inr (VObj [("matches", VArr [truncated_entry; match_entry 2 "FINISHED"])])
  else if String.eqb e "/competitions/CL/matches?status=FINISHED"
  then inr (VObj [("matches", VArr [match_entry 1 "FINISHED"])])
  else if endsWith e "/standings" then inr standings_response
  else if includes e "/matches" then inr (VObj [("matches", VArr [])])
  else inr premier_league.

(** The collection [c] is untouched. *)
Definition kept (c : collection) (s s' : state) : Prop :=
  documents c s' = documents c s.

(** No two Competition documents share a code, no two Match documents
    a match identifier. *)
Definition unique_keys (s : state) : Prop :=
  NoDup (map (field "code") (competitions s))
  /\ NoDup (map (field "match_id") (matches s)).

Definition keeps_unique (s s' : state) : Prop :=
  unique_keys s -> unique_keys s'.

(** ** Vocabulary of the further properties *)

(** The attributes of the three kinds of document, as the object
    literals of the handler list them. *)
Definition standing_attributes : list string :=
  ["competition_code"; "position"; "team_name"; "points"; "played_games"].

Definition competition_attributes : list string :=
  ["code"; "name"; "area_name"].

Definition match_attributes : list string :=
  ["$id"; "match_id"; "competition_code"; "home_team_name"; "away_team_name";
   "score_home"; "score_away"; "status"; "utc_date"].

(** A Standing document written for the competition [code]. *)
Definition standing_document (code : value) (d : document) : Prop :=
  doc_perms d = None
  /\ map fst (doc_body d) = standing_attributes
  /\ field "competition_code" d = code.

(** A Competition document written for [code]. *)
Definition competition_document (code : value) (d : document) : Prop :=
  doc_perms d = Some [ReadAny]
  /\ map fst (doc_body d) = competition_attributes
  /\ field "code" d = code.

(** A Match document written for the competition [code]: it repeats its
    own identifier, is finished, and has scores that are [null] or
    given. *)
Definition match_document (code : value) (d : document) : Prop :=
  doc_perms d = Some [ReadAny]
  /\ map fst (doc_body d) = match_attributes
  /\ field "competition_code" d = code
  /\ field "$id" d = VStr (doc_id d)
  /\ field "status" d = VStr "FINISHED"
  /\ field "score_home" d <> VUndef
  /\ field "score_away" d <> VUndef.

(** What [s'] holds more than [s] are documents of the three shapes,
    written for codes that satisfy [P]. *)
Definition written (P : value -> Prop) (s s' : state) : Prop :=
  (exists nc,
      competitions s' = competitions s ++ nc
      /\ Forall (fun d => exists code, P code /\ competition_document code d) nc)
  /\ (exists ns,
         standings s' = standings s ++ ns
         /\ Forall (fun d => exists code, P code /\ standing_document code d) ns)
  /\ (exists nm,
         matches s' = matches s ++ nm
         /\ Forall (fun d => exists code, P code /\ match_document code d) nm).

(** [m.score.fullTime.home] and [m.score.fullTime.away] *)
Definition full_time (side : string) (m : value) : result value :=
  let* score := get "score" m in
  let* full := get "fullTime" score in
  get side full.

(** The Match document [d] holds what the handler reads from the entry
    [m] of a matches response: the entry is finished; the document has
    its identifier, team names, status and date, and its full-time
    scores, with [null] for a score that is [null] or [undefined]; it
    repeats its own identifier and is readable by anyone. *)
Definition built_from (m : value) (d : document) : Prop :=
  get "status" m = Ok (VStr "FINISHED")
  /\ field "status" d = VStr "FINISHED"
  /\ get "id" m = Ok (field "match_id" d)
  /\ (exists home,
         get "homeTeam" m = Ok home
         /\ get "name" home = Ok (field "home_team_name" d))
  /\ (exists away,
         get "awayTeam" m = Ok away
         /\ get "name" away = Ok (field "away_team_name" d))
  /\ (exists goals,
         full_time "home" m = Ok goals
         /\ field "score_home" d
            = match goals with VUndef | VNull => VNull | _ => goals end)
  /\ (exists goals,
         full_time "away" m = Ok goals
         /\ field "score_away" d
            = match goals with VUndef | VNull => VNull | _ => goals end)
  /\ get "utcDate" m = Ok (field "utc_date" d)
  /\ field "$id" d = VStr (doc_id d)
  /\ doc_perms d = Some [ReadAny].

(** From [s] to [s'] every Match document added was built from an entry
    among the first ten of the [matches] array of a response received
    in between, for an endpoint that satisfies [P] and gives the
    document its competition code. *)
Definition sourced (api : nat -> string -> string + value) (P : string -> Prop)
           (s s' : state) : Prop :=
  (length (http_calls s) <= length (http_calls s'))%nat
  /\ exists nm,
      matches s' = matches s ++ nm
      /\ Forall (fun d =>
                   exists n e data ms m,
                     (length (http_calls s) <= n < length (http_calls s'))%nat
                     /\ P e
                     /\ api n e = inr data
                     /\ get "matches" data = Ok (VArr ms)
                     /\ In m (firstn 10 ms)
                     /\ built_from m d
                     /\ field "competition_code" d = compCode e) nm.

(** The documents passed to [createDocument], in order. *)
Definition creations (ops : list store_op) : list document :=
  flat_map (fun op => match op with
                      | OpCreate _ d => [d]
                      | OpList _ _ _ => []
                      end) ops.

(** [guarded ops]: in [ops] every creation of a Competition or of a
    Match document directly follows the listing of the documents that
    have its code, or its match identifier. *)
Inductive guarded : list store_op -> Prop :=
| guarded_nil : guarded []
| guarded_listing (c : collection) (k : string) (v : value) (ops : list store_op) :
    guarded ops -> guarded (OpList c k v :: ops)
| guarded_standing (d : document) (ops : list store_op) :
    guarded ops -> guarded (OpCreate Standings d :: ops)
| guarded_competition (d : document) (ops : list store_op) :
    guarded ops ->
    guarded (OpList Competitions "code" (field "code" d)
             :: OpCreate Competitions d :: ops)
| guarded_match (d : document) (ops : list store_op) :
    guarded ops ->
    guarded (OpList Matches "match_id" (field "match_id" d)
             :: OpCreate Matches d :: ops).

(** The operations issued from [s] to [s'] are guarded. *)
Definition checks_first (s s' : state) : Prop :=
  exists ops, store_ops s' = store_ops s ++ ops /\ guarded ops.

(** From [s] to [s'] every document passed to [createDocument] got an
    identifier drawn in between, and no draw served twice. *)
Definition draws_fresh (fresh_id : nat -> string) (s s' : state) : Prop :=
  (next_id s <= next_id s')%nat
  /\ exists ops ks,
      store_ops s' = store_ops s ++ ops
      /\ map doc_id (creations ops) = map fresh_id ks
      /\ NoDup ks
      /\ Forall (fun k => next_id s <= k < next_id s')%nat ks.

(** * Properties *)

(** ** Strings and the classifier *)

Section Strings.

Lemma prefix_append (p s : string) : String.prefix p (p ++ s)%string = true.
Proof.
  induction p as [|c p IH]; simpl.
  - destruct s; reflexivity.
  - destruct (ascii_dec c c) as [_|ne]; [exact IH | now elim ne].
Qed.

Lemma length_append (s p : string) :
  String.length (s ++ p)%string = (String.length s + String.length p)%nat.
Proof. induction s as [|c s IH]; simpl; [reflexivity | now rewrite IH]. Qed.

Lemma substring_whole (p : string) : substring 0 (String.length p) p = p.
Proof. induction p as [|c p IH]; simpl; [reflexivity | now rewrite IH]. Qed.

Lemma substring_append (s p : string) :
  substring (String.length s) (String.length p) (s ++ p)%string = p.
Proof. induction s as [|c s IH]; simpl; [apply substring_whole | exact IH]. Qed.

Lemma endsWith_append (s p : string) : endsWith (s ++ p)%string p = true.
Proof.
  unfold endsWith. rewrite length_append.
  replace (String.length s + String.length p - String.length p)%nat
    with (String.length s) by lia.
  rewrite substring_append, String.eqb_refl, andb_true_r.
  apply Nat.leb_le. lia.
Qed.

Lemma includes_append (s p t : string) : includes (s ++ p ++ t)%string p = true.
Proof.
  induction s as [|c s IH].
  - simpl append. pose proof (prefix_append p t) as H.
    destruct (p ++ t)%string; cbn [includes]; now rewrite H.
  - simpl. rewrite IH. apply orb_true_r.
Qed.

(** A segment without separator is cut at the first separator. *)
Lemma split_segment (seg rest : string) :
  includes seg "/" = false ->
  split "/" (seg ++ String "/" rest)%string = seg :: split "/" rest.
Proof.
  induction seg as [|c seg IH]; intros H.
  - reflexivity.
  - simpl in H. apply orb_false_elim in H. destruct H as [Hc Hs].
    simpl. destruct (Ascii.eqb_spec c "/"%char) as [->|ne].
    + simpl in Hc. destruct seg; discriminate Hc.
    + now rewrite (IH Hs).
Qed.

Lemma split_single (seg : string) :
  includes seg "/" = false -> split "/" seg = [seg].
Proof.
  induction seg as [|c seg IH]; intros H.
  - reflexivity.
  - simpl in H. apply orb_false_elim in H. destruct H as [Hc Hs].
    simpl. destruct (Ascii.eqb_spec c "/"%char) as [->|ne].
    + simpl in Hc. destruct seg; discriminate Hc.
    + now rewrite (IH Hs).
Qed.

Lemma compCode_competition (code : string) :
  includes code "/" = false ->
  compCode ("/competitions/" ++ code) = VStr code.
Proof.
  intros H. unfold compCode. simpl. now rewrite (split_single code H).
Qed.

Lemma compCode_nested (code rest : string) :
  includes code "/" = false ->
  compCode ("/competitions/" ++ code ++ String "/" rest) = VStr code.
Proof.
  intros H. unfold compCode. simpl. now rewrite (split_segment code rest H).
Qed.

End Strings.

(** C4.  The three tests are tried in the order standings, bare
    competition, matches: an endpoint that begins with [/competitions/]
    and ends with [/standings] is a Standing whatever else it contains;
    failing that, one that begins with [/competitions/] and does not
    contain [/matches] is a Competition; failing both, one that contains
    [/matches] is a Match.  The code is the third element of the
    endpoint cut at its slashes, which for [/competitions/{code}],
    [/competitions/{code}/standings] and [/competitions/{code}/matches...]
    is [{code}].  The three endpoints of the specification classify as
    stated. *)
Theorem classifier_priority_and_code (code : string)
        (Hcode : includes code "/" = false) :
  (forall e,
      startsWith e "/competitions/" && endsWith e "/standings" = true ->
      classify e = Some Standing)
  /\ (forall e,
        startsWith e "/competitions/" && endsWith e "/standings" = false ->
        startsWith e "/competitions/" && negb (includes e "/matches") = true ->
        classify e = Some Competition)
  /\ (forall e,
        startsWith e "/competitions/" && endsWith e "/standings" = false ->
        startsWith e "/competitions/" && negb (includes e "/matches") = false ->
        includes e "/matches" = true ->
        classify e = Some Match)
  /\ (forall e seg, compCode e = VStr seg <-> nth_error (split "/" e) 2 = Some seg)
  /\ classify ("/competitions/" ++ code ++ "/standings") = Some Standing
  /\ compCode ("/competitions/" ++ code ++ "/standings") = VStr code
  /\ compCode ("/competitions/" ++ code) = VStr code
  /\ (forall query,
        endsWith ("/competitions/" ++ code ++ "/matches" ++ query) "/standings" = false ->
        classify ("/competitions/" ++ code ++ "/matches" ++ query) = Some Match)
  /\ (forall query,
        compCode ("/competitions/" ++ code ++ "/matches" ++ query) = VStr code)
  /\ (classify "/competitions/PL/standings" = Some Standing
      /\ compCode "/competitions/PL/standings" = VStr "PL")
  /\ (classify "/competitions/PL" = Some Competition
      /\ compCode "/competitions/PL" = VStr "PL")
  /\ (classify "/competitions/PL/matches?status=FINISHED" = Some Match
      /\ compCode "/competitions/PL/matches?status=FINISHED" = VStr "PL")
  /\ classify "/competitions/PL/matches/standings" = Some Standing
  /\ classify "/competitions/PL/matches" = Some Match.
Proof.
  repeat match goal with |- _ /\ _ => split end; try reflexivity.
  - intros e H. unfold classify. now rewrite H.
  - intros e H1 H2. unfold classify. now rewrite H1, H2.
  - intros e H1 H2 H3. unfold classify. now rewrite H1, H2, H3.
  - intros e seg. unfold compCode.
    destruct (nth_error (split "/" e) 2); split; congruence.
  - unfold classify.
    replace (startsWith ("/competitions/" ++ code ++ "/standings") "/competitions/")
      with true by (symmetry; apply (prefix_append "/competitions/")).
    replace ("/competitions/" ++ code ++ "/standings")%string
      with (("/competitions/" ++ code) ++ "/standings")%string by reflexivity.
    now rewrite endsWith_append.
  - apply (compCode_nested code "standings" Hcode).
  - apply (compCode_competition code Hcode).
  - intros query Hend. unfold classify. rewrite Hend, andb_false_r.
    assert (Hinc : includes ("/competitions/" ++ code ++ "/matches" ++ query) "/matches" = true).
    { replace ("/competitions/" ++ code ++ "/matches" ++ query)%string
        with (("/competitions/" ++ code) ++ "/matches" ++ query)%string
        by reflexivity.
      apply includes_append. }
    rewrite Hinc. now rewrite andb_false_r.
  - intros query. apply (compCode_nested code ("matches" ++ query) Hcode).
Qed.

Lemma classifier_priority_and_code_witness :
  includes "PL" "/" = false
  /\ classify ("/competitions/" ++ "PL" ++ "/standings") = Some Standing.
Proof.
  split; [reflexivity | ].
  apply (classifier_priority_and_code "PL"). reflexivity.
Defined.

(** ** Relations kept by every step *)

Section Preserves.

Variable R : state -> state -> Prop.
Hypothesis R_refl : forall s, R s s.
Hypothesis R_trans : forall a b c, R a b -> R b c -> R a c.

Lemma preserves_ret {A : Type} (a : A) : preserves R (ret a).
Proof. intros s. apply R_refl. Qed.

Lemma preserves_lift {A : Type} (r : result A) : preserves R (lift r).
Proof. intros s. apply R_refl. Qed.

Lemma preserves_bind {A B : Type} (m : M A) (k : A -> M B) :
  preserves R m -> (forall a, preserves R (k a)) -> preserves R (bind m k).
Proof.
  intros Hm Hk s. unfold bind. specialize (Hm s).
  destruct (m s) as [[a|e] s']; simpl in *.
  - eapply R_trans; [exact Hm | apply Hk].
  - exact Hm.
Qed.

Lemma preserves_try_catch {A : Type} (m : M A) (h : exn -> M A) :
  preserves R m -> (forall e, preserves R (h e)) -> preserves R (try_catch m h).
Proof.
  intros Hm Hh s. unfold try_catch. specialize (Hm s).
  destruct (m s) as [[a|e] s']; simpl in *.
  - exact Hm.
  - eapply R_trans; [exact Hm | apply Hh].
Qed.

Lemma preserves_for_each {A : Type} (f : A -> M unit) (xs : list A) :
  (forall x, preserves R (f x)) -> preserves R (for_each f xs).
Proof.
  intros Hf. induction xs as [|x xs IH]; simpl.
  - apply preserves_ret.
  - apply preserves_bind; [apply Hf | intros _; exact IH].
Qed.

End Preserves.

(** A relation kept by the three branches and by the steps around them
    is kept by the handler. *)
Section TaskPreserves.

Variable api : nat -> string -> string + value.
Variable store_fails : nat -> option string.
Variable fresh_id : nat -> string.
Variable init_fails : option string.

Variable R : state -> state -> Prop.
Hypothesis R_refl : forall s, R s s.
Hypothesis R_trans : forall a b c, R a b -> R b c -> R a c.

Hypothesis R_log : forall e, preserves R (log e).
Hypothesis R_get : forall e, preserves R (axios_get api e).
Hypothesis R_incr : preserves R incr_requestsMade.
Hypothesis R_reset : preserves R reset_requestsMade.
Hypothesis R_standings :
  forall code data, preserves R (store_standings store_fails fresh_id code data).
Hypothesis R_competition :
  forall code data, preserves R (store_competition store_fails fresh_id code data).
Hypothesis R_matches :
  forall code data, preserves R (store_matches store_fails fresh_id code data).

Lemma process_task_keeps (e : string) :
  preserves R (process_task api store_fails fresh_id e).
Proof.
  unfold process_task.
  apply (preserves_bind R R_trans); [apply R_get | intros data].
  apply (preserves_bind R R_trans); [apply R_incr | intros _].
  apply (preserves_bind R R_trans).
  - unfold log_response.
    destruct data; first [apply R_log | apply (preserves_lift R R_refl)].
  - intros _. destruct (classify e) as [[| |]|].
    + apply R_standings.
    + apply R_competition.
    + apply R_matches.
    + apply (preserves_ret R R_refl).
Qed.

Lemma run_task_keeps (e : string) :
  preserves R (run_task api store_fails fresh_id e).
Proof.
  unfold run_task.
  apply (preserves_bind R R_trans); [apply R_log | intros _].
  apply (preserves_try_catch R R_trans); [apply process_task_keeps | ].
  intros err. apply R_log.
Qed.

Lemma run_tasks_keeps (max : Z) (ts : list task) :
  preserves R (run_tasks api store_fails fresh_id max ts).
Proof.
  induction ts as [|t rest IH]; simpl.
  - apply (preserves_ret R R_refl).
  - intros s. destruct (requestsMade s >=? max)%Z.
    + apply R_log.
    + revert s. apply (preserves_bind R R_trans); [ | intros _; exact IH].
      apply run_task_keeps.
Qed.

Lemma handler_with_keeps (max : Z) (ts : list task) :
  preserves R (handler_with api store_fails fresh_id init_fails max ts).
Proof.
  unfold handler_with.
  apply (preserves_bind R R_trans); [apply R_log | intros _].
  apply (preserves_try_catch R R_trans).
  - apply (preserves_bind R R_trans); [ | intros _].
    { unfold init_client.
      destruct init_fails; [apply (preserves_lift R R_refl) | apply (preserves_ret R R_refl)]. }
    apply (preserves_bind R R_trans); [apply R_log | intros _].
    apply (preserves_bind R R_trans); [apply R_log | intros _].
    apply (preserves_bind R R_trans); [apply R_reset | intros _].
    apply (preserves_bind R R_trans); [apply run_tasks_keeps | intros _].
    intros s. apply R_refl.
  - intros err.
    apply (preserves_bind R R_trans); [apply R_log | intros _].
    apply (preserves_ret R R_refl).
Qed.

End TaskPreserves.

(** A relation kept by the primitives, as the handler calls them, is kept
    by the handler. *)
Section HandlerPreserves.

Variable api : nat -> string -> string + value.
Variable store_fails : nat -> option string.
Variable fresh_id : nat -> string.
Variable init_fails : option string.

Variable R : state -> state -> Prop.
Hypothesis R_refl : forall s, R s s.
Hypothesis R_trans : forall a b c, R a b -> R b c -> R a c.

Hypothesis R_log : forall e, preserves R (log e).
Hypothesis R_id : preserves R (ID_unique fresh_id).
Hypothesis R_list : forall c k v, preserves R (listDocuments store_fails c k v).
Hypothesis R_create_standing :
  forall id b, preserves R (createDocument store_fails Standings id b None).
Hypothesis R_create_competition :
  forall id b, preserves R (createDocument store_fails Competitions id b (Some [ReadAny])).
Hypothesis R_create_match :
  forall id b, preserves R (createDocument store_fails Matches id b (Some [ReadAny])).
Hypothesis R_get : forall e, preserves R (axios_get api e).
Hypothesis R_incr : preserves R incr_requestsMade.
Hypothesis R_reset : preserves R reset_requestsMade.

Ltac compose :=
  repeat match goal with
    | |- preserves _ (bind _ _) =>
        apply (preserves_bind R R_trans); [ | intros ?]
    | |- preserves _ (ret _) => apply (preserves_ret R R_refl)
    | |- preserves _ (lift _) => apply (preserves_lift R R_refl)
    | |- preserves _ (log _) => apply R_log
    | |- preserves _ (ID_unique _) => apply R_id
    | |- preserves _ (listDocuments _ _ _ _) => apply R_list
    | |- preserves _ (createDocument _ Standings _ _ _) =>
        apply R_create_standing
    | |- preserves _ (createDocument _ Competitions _ _ _) =>
        apply R_create_competition
    | |- preserves _ (createDocument _ Matches _ _ _) =>
        apply R_create_match
    | |- preserves _ (axios_get _ _) => apply R_get
    | |- preserves _ incr_requestsMade => apply R_incr
    | |- preserves _ reset_requestsMade => apply R_reset
    | |- preserves _ (if ?c then _ else _) => destruct c
    end.

Lemma store_standings_preserves (code data : value) :
  preserves R (store_standings store_fails fresh_id code data).
Proof.
  unfold store_standings. compose.
  apply (preserves_for_each R R_refl R_trans). intros row.
  unfold store_standing. compose.
Qed.

Lemma store_competition_preserves (code data : value) :
  preserves R (store_competition store_fails fresh_id code data).
Proof.
  unfold store_competition. compose.
Qed.

Lemma store_match_preserves (code m : value) :
  preserves R (store_match store_fails fresh_id code m).
Proof.
  unfold store_match. compose.
Qed.

Lemma store_matches_preserves (code data : value) :
  preserves R (store_matches store_fails fresh_id code data).
Proof.
  unfold store_matches. compose.
  apply (preserves_for_each R R_refl R_trans). intros m.
  apply store_match_preserves.
Qed.

Lemma log_response_preserves (e : string) (data : value) :
  preserves R (log_response e data).
Proof. unfold log_response. destruct data; compose. Qed.

Lemma process_task_preserves (e : string) :
  preserves R (process_task api store_fails fresh_id e).
Proof.
  unfold process_task. compose.
  - apply log_response_preserves.
  - destruct (classify e) as [[| |]|]; compose.
    + apply store_standings_preserves.
    + apply store_competition_preserves.
    + apply store_matches_preserves.
Qed.

Lemma run_task_preserves (e : string) :
  preserves R (run_task api store_fails fresh_id e).
Proof.
  unfold run_task. compose.
  apply (preserves_try_catch R R_trans); [ | intros err; compose].
  apply process_task_preserves.
Qed.

Lemma run_tasks_preserves (max : Z) (ts : list task) :
  preserves R (run_tasks api store_fails fresh_id max ts).
Proof.
  induction ts as [|t rest IH]; simpl.
  - compose.
  - intros s. destruct (requestsMade s >=? max)%Z.
    + apply R_log.
    + revert s. apply (preserves_bind R R_trans); [ | intros _; exact IH].
      apply run_task_preserves.
Qed.

Lemma handler_with_preserves (max : Z) (ts : list task) :
  preserves R (handler_with api store_fails fresh_id init_fails max ts).
Proof.
  unfold handler_with. compose.
  apply (preserves_try_catch R R_trans); [ | intros err; compose].
  compose.
  - unfold init_client. destruct init_fails; compose.
  - apply run_tasks_preserves.
  - intros s. apply R_refl.
Qed.

End HandlerPreserves.

(** ** The handler never throws, and what it answers *)

Section Answers.

Variable api : nat -> string -> string + value.
Variable store_fails : nat -> option string.
Variable fresh_id : nat -> string.
Variable init_fails : option string.

Lemma process_task_rejected (e : string) (s : state) (msg : string) :
  api (length (http_calls s)) e = inl msg ->
  process_task api store_fails fresh_id e s
  = (Throw (FetchError msg), record_call e false s).
Proof.
  intros H. unfold process_task. unfold bind at 1. unfold axios_get.
  now rewrite H.
Qed.

Lemma process_task_fetched (e : string) (s : state) (data : value) :
  api (length (http_calls s)) e = inr data ->
  process_task api store_fails fresh_id e s
  = classified store_fails fresh_id e data
      (set_requestsMade (requestsMade s + 1) (record_call e true s)).
Proof.
  intros H. unfold process_task. unfold bind at 1. unfold axios_get.
  now rewrite H.
Qed.

Lemma run_task_unfold (e : string) (s : state) :
  run_task api store_fails fresh_id e s
  = match process_task api store_fails fresh_id e (write_log (LogTask e) s) with
    | (Ok _, s1) => (Ok tt, s1)
    | (Throw err, s1) => (Ok tt, write_log (LogFailedTask e (message err)) s1)
    end.
Proof.
  unfold run_task, bind, try_catch, log.
  destruct (process_task api store_fails fresh_id e (write_log (LogTask e) s))
    as [[[]|err] s1]; reflexivity.
Qed.

Lemma run_task_returns (e : string) (s : state) :
  fst (run_task api store_fails fresh_id e s) = Ok tt.
Proof.
  rewrite run_task_unfold.
  destruct (process_task api store_fails fresh_id e (write_log (LogTask e) s))
    as [[[]|err] s']; reflexivity.
Qed.

Lemma run_tasks_unfold (max : Z) (t : task) (rest : list task) (s : state) :
  run_tasks api store_fails fresh_id max (t :: rest) s
  = if (requestsMade s >=? max)%Z then (Ok tt, write_log LogMaxRequests s)
    else run_tasks api store_fails fresh_id max rest
           (snd (run_task api store_fails fresh_id (endpoint t) s)).
Proof.
  simpl. destruct (requestsMade s >=? max)%Z; [reflexivity | ].
  unfold bind. pose proof (run_task_returns (endpoint t) s) as H.
  destruct (run_task api store_fails fresh_id (endpoint t) s) as [[[]|err] s'];
    simpl in H; [reflexivity | discriminate H].
Qed.

Lemma run_tasks_returns (max : Z) (ts : list task) (s : state) :
  fst (run_tasks api store_fails fresh_id max ts s) = Ok tt.
Proof.
  revert s. induction ts as [|t rest IH]; intros s; simpl.
  - reflexivity.
  - destruct (requestsMade s >=? max)%Z; [reflexivity | ].
    unfold bind. pose proof (run_task_returns (endpoint t) s) as H.
    destruct (run_task api store_fails fresh_id (endpoint t) s) as [[[]|err] s'];
      simpl in H; [apply IH | discriminate H].
Qed.

Lemma handler_with_started (max : Z) (ts : list task) (s : state) :
  init_fails = None ->
  handler_with api store_fails fresh_id init_fails max ts s =
  let s' := snd (run_tasks api store_fails fresh_id max ts (loop_start ts s)) in
  (Ok (Success [] (requestsMade s')), s').
Proof.
  intros Hinit. unfold handler_with, init_client. rewrite Hinit.
  unfold bind at 1. unfold log at 1. unfold try_catch.
  unfold bind at 1. unfold ret at 1.
  unfold bind at 1. unfold log at 1.
  unfold bind at 1. unfold log at 1.
  unfold bind at 1. unfold reset_requestsMade at 1.
  unfold bind at 1. fold (loop_start ts s).
  pose proof (run_tasks_returns max ts (loop_start ts s)) as H.
  destruct (run_tasks api store_fails fresh_id max ts (loop_start ts s))
    as [[[]|err] s']; simpl in H; [reflexivity | discriminate H].
Qed.

Lemma handler_with_not_started (max : Z) (ts : list task) (s : state) (msg : string) :
  init_fails = Some msg ->
  handler_with api store_fails fresh_id init_fails max ts s =
  (Ok (Failure msg []),
   write_log (LogUnexpected msg) (write_log LogInvoked s)).
Proof.
  intros Hinit. unfold handler_with, init_client. rewrite Hinit. reflexivity.
Qed.

End Answers.

(** C9.  In both shapes of the answer the [logs] field is the empty
    list: once the client is built the answer is
    [{status: "success", logs: [], requests_made}], otherwise it is
    [{status: "error", message, logs: []}], whatever the tasks did.  The
    error of a failing task goes to the logging sink of the context
    only. *)
Theorem returned_logs_are_empty
        (api : nat -> string -> string + value)
        (store_fails : nat -> option string) (fresh_id : nat -> string)
        (init_fails : option string) (max : Z) (ts : list task) (s : state) :
  exists r,
    fst (handler_with api store_fails fresh_id init_fails max ts s) = Ok r
    /\ response_logs r = []
    /\ match init_fails with
       | None => exists n, r = Success [] n
       | Some msg => r = Failure msg []
       end
    /\ forall e err s1,
        process_task api store_fails fresh_id e (write_log (LogTask e) s) = (Throw err, s1) ->
        sink (snd (run_task api store_fails fresh_id e s))
        = sink s1 ++ [LogFailedTask e (message err)].
Proof.
  destruct init_fails as [msg|].
  - exists (Failure msg []).
    rewrite (handler_with_not_started api store_fails fresh_id (Some msg) max ts s msg eq_refl).
    repeat split.
    intros e err s1 H. unfold run_task, bind, log, try_catch. now rewrite H.
  - rewrite (handler_with_started api store_fails fresh_id None max ts s eq_refl).
    eexists. repeat split.
    + eexists. reflexivity.
    + intros e err s1 H. unfold run_task, bind, log, try_catch. now rewrite H.
Qed.

(** ** The store only grows *)

Lemma store_grows_refl (s : state) : store_grows s s.
Proof. exists [], [], []. rewrite !app_nil_r. repeat split; constructor. Qed.

Lemma store_grows_same (s s' : state) :
  competitions s' = competitions s ->
  standings s' = standings s ->
  matches s' = matches s ->
  store_grows s s'.
Proof.
  intros Hc Hs Hm. exists [], [], []. rewrite !app_nil_r.
  repeat split; auto.
Qed.

Lemma store_grows_trans (a b c : state) :
  store_grows a b -> store_grows b c -> store_grows a c.
Proof.
  intros (nc & ns & nm & Hc & Hs & Hm & Fc & Fs & Fm)
         (nc' & ns' & nm' & Hc' & Hs' & Hm' & Fc' & Fs' & Fm').
  exists (nc ++ nc'), (ns ++ ns'), (nm ++ nm').
  rewrite Hc', Hs', Hm', Hc, Hs, Hm, <- !app_assoc.
  repeat split; apply Forall_app; split; assumption.
Qed.

Lemma trace_grows_refl (s : state) : trace_grows s s.
Proof. exists []. rewrite app_nil_r. split; [reflexivity | constructor]. Qed.

Lemma trace_grows_same (s s' : state) :
  store_ops s' = store_ops s -> trace_grows s s'.
Proof.
  intros H. exists []. rewrite app_nil_r. split; [exact H | constructor].
Qed.

Lemma trace_grows_trans (a b c : state) :
  trace_grows a b -> trace_grows b c -> trace_grows a c.
Proof.
  intros (n & Hn & Fn) (n' & Hn' & Fn'). exists (n ++ n').
  rewrite Hn', Hn, <- app_assoc. split; [reflexivity | ].
  apply Forall_app; split; assumption.
Qed.

Lemma same_requests_refl (s : state) : same_requests s s.
Proof. split; reflexivity. Qed.

Lemma same_requests_trans (a b c : state) :
  same_requests a b -> same_requests b c -> same_requests a c.
Proof. intros [H1 H2] [H3 H4]. split; congruence. Qed.

Section Growth.

Variable api : nat -> string -> string + value.
Variable store_fails : nat -> option string.
Variable fresh_id : nat -> string.
Variable init_fails : option string.

(** A step that leaves the three collections as they are. *)
Ltac still :=
  unfold preserves; intros;
  unfold listDocuments, createDocument, axios_get;
  repeat match goal with
    | |- context [match ?x with _ => _ end] => destruct x
    end;
  apply store_grows_same; reflexivity.

Lemma createDocument_grows (c : collection) (id : string) (b : body) :
  preserves store_grows (createDocument store_fails c id b (permission_argument c)).
Proof.
  intros s. unfold createDocument.
  destruct (store_fails (length (store_ops s)));
    [apply store_grows_same; reflexivity | ].
  destruct c; simpl.
  - exists [mkDocument id b (Some [ReadAny])], [], [].
    rewrite !app_nil_r. repeat split; repeat constructor.
  - exists [], [mkDocument id b None], [].
    rewrite !app_nil_r. repeat split; repeat constructor.
  - exists [], [], [mkDocument id b (Some [ReadAny])].
    rewrite !app_nil_r. repeat split; repeat constructor.
Qed.

Ltac grows_primitive :=
  lazymatch goal with
  | |- forall id b, preserves _ (createDocument _ ?c id b _) =>
      intros id b; apply (createDocument_grows c)
  | |- _ => still
  end.

Lemma store_competition_grows (code data : value) :
  preserves store_grows (store_competition store_fails fresh_id code data).
Proof.
  apply store_competition_preserves;
    try exact store_grows_refl; try exact store_grows_trans;
    grows_primitive.
Qed.

Lemma store_match_grows (code m : value) :
  preserves store_grows (store_match store_fails fresh_id code m).
Proof.
  apply store_match_preserves;
    try exact store_grows_refl; try exact store_grows_trans;
    grows_primitive.
Qed.

Lemma store_matches_loop_grows (code : value) (items : list value) :
  preserves store_grows (for_each (store_match store_fails fresh_id code) items).
Proof.
  apply (preserves_for_each store_grows store_grows_refl store_grows_trans).
  intros m. apply store_match_grows.
Qed.

Lemma handler_with_grows (max : Z) (ts : list task) :
  preserves store_grows (handler_with api store_fails fresh_id init_fails max ts).
Proof.
  apply handler_with_preserves;
    try exact store_grows_refl; try exact store_grows_trans;
    grows_primitive.
Qed.

Lemma run_task_grows (e : string) :
  preserves store_grows (run_task api store_fails fresh_id e).
Proof.
  apply run_task_preserves;
    try exact store_grows_refl; try exact store_grows_trans;
    grows_primitive.
Qed.

Lemma run_tasks_grows (max : Z) (ts : list task) :
  preserves store_grows (run_tasks api store_fails fresh_id max ts).
Proof.
  apply run_tasks_preserves;
    try exact store_grows_refl; try exact store_grows_trans;
    grows_primitive.
Qed.

Ltac quiet :=
  unfold preserves; intros;
  unfold axios_get;
  repeat match goal with
    | |- context [match ?x with _ => _ end] => destruct x
    end;
  apply trace_grows_same; reflexivity.

Lemma createDocument_trace (c : collection) (id : string) (b : body) :
  preserves trace_grows (createDocument store_fails c id b (permission_argument c)).
Proof.
  intros s. unfold createDocument.
  exists [OpCreate c (mkDocument id b (permission_argument c))].
  destruct (store_fails (length (store_ops s))); destruct c; simpl;
    (split; [reflexivity | repeat constructor]).
Qed.

Lemma listDocuments_trace (c : collection) (k : string) (v : value) :
  preserves trace_grows (listDocuments store_fails c k v).
Proof.
  intros s. unfold listDocuments. exists [OpList c k v].
  destruct (store_fails (length (store_ops s))); simpl;
    (split; [reflexivity | repeat constructor]).
Qed.

Ltac trace_primitive :=
  lazymatch goal with
  | |- forall id b, preserves _ (createDocument _ ?c id b _) =>
      intros id b; apply (createDocument_trace c)
  | |- forall c k v, preserves _ (listDocuments _ c k v) =>
      exact listDocuments_trace
  | |- _ => quiet
  end.

Lemma handler_with_trace (max : Z) (ts : list task) :
  preserves trace_grows (handler_with api store_fails fresh_id init_fails max ts).
Proof.
  apply handler_with_preserves;
    try exact trace_grows_refl; try exact trace_grows_trans;
    trace_primitive.
Qed.

End Growth.

(** C10.  Whatever the upstream API, the store and the client
    construction do, one invocation leaves every document that was in
    the store where it was and as it was, and only appends: the new
    Competition and Match documents carry the public-read permission,
    the new Standing documents were created without a permission
    argument; the store operations it issued are listings and creations
    only, each creation with the permission argument of its
    collection. *)
Theorem writes_are_creations_with_fixed_permissions
        (api : nat -> string -> string + value)
        (store_fails : nat -> option string) (fresh_id : nat -> string)
        (init_fails : option string) (max : Z) (ts : list task) (s : state) :
  let s' := snd (handler_with api store_fails fresh_id init_fails max ts s) in
  (exists nc ns nm,
      competitions s' = competitions s ++ nc
      /\ standings s' = standings s ++ ns
      /\ matches s' = matches s ++ nm
      /\ Forall (fun d => doc_perms d = Some [ReadAny]) nc
      /\ Forall (fun d => doc_perms d = None) ns
      /\ Forall (fun d => doc_perms d = Some [ReadAny]) nm)
  /\ (exists ops,
        store_ops s' = store_ops s ++ ops
        /\ Forall (fun op =>
                     match op with
                     | OpList _ _ _ => True
                     | OpCreate Standings d => doc_perms d = None
                     | OpCreate _ d => doc_perms d = Some [ReadAny]
                     end) ops).
Proof.
  intros s'. split.
  - exact (handler_with_grows api store_fails fresh_id init_fails max ts s).
  - destruct (handler_with_trace api store_fails fresh_id init_fails max ts s)
      as (ops & Hops & Fops).
    exists ops. split; [exact Hops | ].
    eapply Forall_impl; [ | exact Fops].
    intros [c k v | [| |] d]; simpl; auto.
Qed.

(** ** Upstream calls and the counter *)

Lemma completed_app (a b : list (string * bool)) :
  completed (a ++ b) = (completed a + completed b)%Z.
Proof. unfold completed. rewrite filter_app, length_app. lia. Qed.

Section Requests.

Variable api : nat -> string -> string + value.
Variable store_fails : nat -> option string.
Variable fresh_id : nat -> string.
Variable init_fails : option string.

Ltac untouched :=
  unfold preserves; intros;
  unfold listDocuments, createDocument;
  repeat match goal with
    | |- context [match ?x with _ => _ end] => destruct x
    end;
  split; reflexivity.

(** What follows the increment in the inner [try] makes no upstream
    call and leaves the counter alone. *)
Lemma classified_same_requests (e : string) (data : value) :
  preserves same_requests (classified store_fails fresh_id e data).
Proof.
  apply (preserves_bind same_requests same_requests_trans).
  - apply log_response_preserves; try exact same_requests_refl; untouched.
  - intros _. destruct (classify e) as [[| |]|].
    + apply store_standings_preserves;
        try exact same_requests_refl; try exact same_requests_trans; untouched.
    + apply store_competition_preserves;
        try exact same_requests_refl; try exact same_requests_trans; untouched.
    + apply store_matches_preserves;
        try exact same_requests_refl; try exact same_requests_trans; untouched.
    + apply preserves_ret. exact same_requests_refl.
Qed.

(** One task makes one upstream call; the counter moves by one when
    the call completes and not at all when it fails. *)
Lemma run_task_calls (e : string) (s : state) :
  let s' := snd (run_task api store_fails fresh_id e s) in
  match api (length (http_calls s)) e with
  | inr _ =>
      http_calls s' = http_calls s ++ [(e, true)]
      /\ requestsMade s' = (requestsMade s + 1)%Z
  | inl _ =>
      http_calls s' = http_calls s ++ [(e, false)]
      /\ requestsMade s' = requestsMade s
  end.
Proof.
  intros s'. subst s'. rewrite run_task_unfold.
  destruct (api (length (http_calls s)) e) as [msg|data] eqn:Hapi.
  - rewrite (process_task_rejected api store_fails fresh_id e
               (write_log (LogTask e) s) msg Hapi).
    split; reflexivity.
  - rewrite (process_task_fetched api store_fails fresh_id e
               (write_log (LogTask e) s) data Hapi).
    match goal with
    | |- context [classified _ _ _ _ ?s0] =>
        pose proof (classified_same_requests e data s0) as [Hc Hr];
        destruct (classified store_fails fresh_id e data s0) as [[[]|err] s1]
    end; simpl in *; rewrite Hc, Hr; split; reflexivity.
Qed.

Lemma run_tasks_calls (max : Z) (ts : list task) (s : state) :
  let s' := snd (run_tasks api store_fails fresh_id max ts s) in
  exists new,
    http_calls s' = http_calls s ++ new
    /\ requestsMade s' = (requestsMade s + completed new)%Z
    /\ (exists k, map fst new = map endpoint (firstn k ts))
    /\ (length new <= length ts)%nat
    /\ ((requestsMade s <= max)%Z -> (requestsMade s' <= max)%Z)
    /\ ((max <= requestsMade s)%Z -> new = [])
    /\ ((length new < length ts)%nat -> (max <= requestsMade s')%Z)
    /\ ((requestsMade s + Z.of_nat (length ts) <= max)%Z ->
        map fst new = map endpoint ts).
Proof.
  revert s. induction ts as [|t rest IH]; intros s.
  - exists []. simpl. rewrite app_nil_r. unfold completed. simpl.
    repeat split; try lia. exists 0%nat. reflexivity.
  - rewrite run_tasks_unfold.
    destruct (Z.geb_spec (requestsMade s) max) as [Hge|Hlt].
    + exists []. simpl snd. simpl http_calls. simpl requestsMade.
      rewrite app_nil_r. unfold completed. simpl.
      repeat split; try lia. exists 0%nat. reflexivity.
    + pose proof (run_task_calls (endpoint t) s) as H1.
      simpl in H1.
      set (s1 := snd (run_task api store_fails fresh_id (endpoint t) s)) in *.
      destruct (IH s1) as (new & Hc & Hr & [k Hk] & Hlen & Hle & Hstop & Hbrk & Hall).
      assert (Hone : exists ok,
                 http_calls s1 = http_calls s ++ [(endpoint t, ok)]
                 /\ requestsMade s1 = (requestsMade s + completed [(endpoint t, ok)])%Z).
      { destruct (api (length (http_calls s)) (endpoint t)).
        - exists false. unfold completed. simpl. destruct H1. split; [assumption | lia].
        - exists true. unfold completed. simpl. destruct H1. split; [assumption | lia]. }
      destruct Hone as (ok & Hc1 & Hr1).
      assert (Hstep : (0 <= completed [(endpoint t, ok)] <= 1)%Z)
        by (unfold completed; destruct ok; simpl; lia).
      exists ((endpoint t, ok) :: new).
      rewrite Hc, Hc1, <- app_assoc. simpl app.
      change ((endpoint t, ok) :: new) with ([(endpoint t, ok)] ++ new).
      rewrite completed_app.
      split; [reflexivity | ].
      split; [lia | ].
      split; [exists (S k); simpl; now rewrite Hk | ].
      split; [simpl; lia | ].
      split; [intros _; apply Hle; lia | ].
      split; [intros Hl; lia | ].
      split; [intros Hl; apply Hbrk; simpl in Hl; lia | ].
      intros Hl. simpl. simpl length in Hl. rewrite Hall; [reflexivity | lia].
Qed.

End Requests.

(** The claim that the upstream calls of one invocation stay within the
    budget for every task list fails when calls are rejected: a rejected
    call is not counted, so with eleven tasks, the default budget of ten
    and an unreachable API the handler makes eleven upstream calls. *)
Lemma rejected_calls_exceed_budget :
  length (http_calls
            (snd (handler_with unreachable_api reliable_store numbered_id None
                               maxRequests eleven_tasks empty_store))) = 11%nat
  /\ ~ (Z.of_nat
          (length (http_calls
                     (snd (handler_with unreachable_api reliable_store numbered_id
                                        None maxRequests eleven_tasks empty_store))))
        <= maxRequests)%Z.
Proof. vm_compute. split; [reflexivity | intros H; apply H; reflexivity]. Qed.

(** C1 (amended).  For every task list and every budget that is not
    negative, the upstream calls of one invocation that complete, which
    is what [requests_made] reports, never exceed the budget: the loop
    tests the counter against the budget before each task and stops at
    the first task it finds the counter at the budget, so that no
    further call is made in that run.  Rejected calls are not counted;
    the calls made are at most one per task, in task order.  For the
    nine tasks and the budget of ten of the handler as shipped, all the
    calls made, completed or not, are within the budget. *)
Theorem completed_calls_within_budget
        (api : nat -> string -> string + value)
        (store_fails : nat -> option string) (fresh_id : nat -> string)
        (init_fails : option string) (max : Z) (ts : list task) (s : state)
        (Hmax : (0 <= max)%Z) :
  (let s' := snd (handler_with api store_fails fresh_id init_fails max ts s) in
   exists new,
     http_calls s' = http_calls s ++ new
     /\ (completed new <= max)%Z
     /\ (length new <= length ts)%nat
     /\ (exists k, map fst new = map endpoint (firstn k ts))
     /\ (init_fails = None -> (length new < length ts)%nat ->
         (max <= completed new)%Z))
  /\ (forall s0, (max <= requestsMade s0)%Z ->
                 http_calls (snd (run_tasks api store_fails fresh_id max ts s0))
                 = http_calls s0)
  /\ (let s' := snd (handler api store_fails fresh_id init_fails s) in
      exists new,
        http_calls s' = http_calls s ++ new
        /\ (Z.of_nat (length new) <= maxRequests)%Z).
Proof.
  assert (Hgen : forall max' ts', (0 <= max')%Z ->
    let s' := snd (handler_with api store_fails fresh_id init_fails max' ts' s) in
    exists new,
      http_calls s' = http_calls s ++ new
      /\ (completed new <= max')%Z
      /\ (length new <= length ts')%nat
      /\ (exists k, map fst new = map endpoint (firstn k ts'))
      /\ (init_fails = None -> (length new < length ts')%nat ->
          (max' <= completed new)%Z)).
  { intros max' ts' Hmax'. destruct init_fails as [msg|] eqn:Hinit.
    - rewrite (handler_with_not_started api store_fails fresh_id (Some msg)
                 max' ts' s msg eq_refl).
      exists []. simpl. rewrite app_nil_r. unfold completed. simpl.
      repeat split; try lia; try discriminate. exists 0%nat. reflexivity.
    - rewrite (handler_with_started api store_fails fresh_id None max' ts' s eq_refl).
      destruct (run_tasks_calls api store_fails fresh_id max' ts' (loop_start ts' s))
        as (new & Hc & Hr & Hk & Hlen & Hle & _ & Hbrk & _).
      simpl in Hc, Hr, Hle, Hbrk. exists new. simpl.
      split; [exact Hc | ]. split; [lia | ]. split; [exact Hlen | ].
      split; [exact Hk | ]. intros _ Hl. specialize (Hbrk Hl). lia. }
  split; [exact (Hgen max ts Hmax) | ]. split.
  - intros s0 Hs0.
    destruct (run_tasks_calls api store_fails fresh_id max ts s0)
      as (new & Hc & _ & _ & _ & _ & Hstop & _).
    rewrite Hc, (Hstop Hs0). apply app_nil_r.
  - destruct (Hgen maxRequests tasks ltac:(unfold maxRequests; lia))
      as (new & Hc & _ & Hlen & _).
    exists new. split; [exact Hc | ].
    simpl in Hlen. unfold maxRequests. lia.
Qed.

Lemma completed_calls_within_budget_witness :
  (0 <= 10)%Z
  /\ exists new,
      http_calls (snd (handler_with unreachable_api reliable_store numbered_id
                                    None 10 eleven_tasks empty_store))
      = http_calls empty_store ++ new
      /\ (completed new <= 10)%Z.
Proof.
  split; [lia | ].
  destruct (completed_calls_within_budget unreachable_api reliable_store
              numbered_id None 10 eleven_tasks empty_store ltac:(lia))
    as [(new & Hc & Hle & _) _].
  exists new. split; [exact Hc | exact Hle].
Defined.

(** The claim that every attempted call, a rejected one included, adds
    one to the counter fails: with an unreachable API the handler makes
    nine upstream calls and reports [requests_made: 0]. *)
Lemma rejected_call_is_not_counted :
  fst (handler unreachable_api reliable_store numbered_id None empty_store)
  = Ok (Success [] 0)
  /\ length (http_calls
               (snd (handler unreachable_api reliable_store numbered_id None
                             empty_store))) = 9%nat
  /\ requestsMade
       (snd (handler unreachable_api reliable_store numbered_id None empty_store))
     <> Z.of_nat
          (length (http_calls
                     (snd (handler unreachable_api reliable_store numbered_id None
                                   empty_store)))).
Proof. vm_compute. repeat split; discriminate. Qed.

(** C3 (amended).  The counter is incremented exactly once per upstream
    call that completes, right after the response is obtained and
    whatever the classification and the store do afterwards; a call
    that is rejected adds nothing.  Hence a task moves the counter by
    one or by zero according to its call, and [requests_made] is the
    number of calls of the invocation that completed. *)
Theorem counter_counts_completed_calls
        (api : nat -> string -> string + value)
        (store_fails : nat -> option string) (fresh_id : nat -> string)
        (init_fails : option string) (max : Z) (ts : list task) (s : state) :
  (forall e s0,
      let s1 := snd (run_task api store_fails fresh_id e s0) in
      match api (length (http_calls s0)) e with
      | inr _ =>
          http_calls s1 = http_calls s0 ++ [(e, true)]
          /\ requestsMade s1 = (requestsMade s0 + 1)%Z
      | inl _ =>
          http_calls s1 = http_calls s0 ++ [(e, false)]
          /\ requestsMade s1 = requestsMade s0
      end)
  /\ (let out := handler_with api store_fails fresh_id init_fails max ts s in
      exists new,
        http_calls (snd out) = http_calls s ++ new
        /\ match init_fails with
           | None => fst out = Ok (Success [] (completed new))
           | Some msg => new = [] /\ fst out = Ok (Failure msg [])
           end).
Proof.
  split.
  - intros e s0. apply run_task_calls.
  - destruct init_fails as [msg|].
    + rewrite (handler_with_not_started api store_fails fresh_id (Some msg)
                 max ts s msg eq_refl).
      exists []. simpl. rewrite app_nil_r. repeat split.
    + rewrite (handler_with_started api store_fails fresh_id None max ts s eq_refl).
      destruct (run_tasks_calls api store_fails fresh_id max ts (loop_start ts s))
        as (new & Hc & Hr & _).
      simpl in Hc, Hr. exists new. simpl. split; [exact Hc | ].
      now rewrite Hr.
Qed.

(** C8.  A task never throws: whatever fails inside it (the fetch, a
    read in the payload, a store operation) is caught, and an
    [ERROR: Failed task] entry with the message is appended to the
    logging sink.  The loop then goes on with the next task from the
    state the failed task left, in which every document written so far
    is still there.  Hence, once the client is built, the handler
    answers with status [success] and the empty [logs], and all nine
    endpoints are called in order, whatever the API and the store do.
    For instance, when the store rejects the creation of the first
    Competition document, the entry is logged and the ten standings and
    the two finished matches that follow are written; and when every
    task fails, the answer is still a success, with nine error entries
    in the sink. *)
Theorem task_failures_are_contained
        (api : nat -> string -> string + value)
        (store_fails : nat -> option string) (fresh_id : nat -> string)
        (s : state) :
  (forall e s0, fst (run_task api store_fails fresh_id e s0) = Ok tt)
  /\ (forall e s0 err s1,
        process_task api store_fails fresh_id e (write_log (LogTask e) s0) = (Throw err, s1) ->
        run_task api store_fails fresh_id e s0
        = (Ok tt, write_log (LogFailedTask e (message err)) s1))
  /\ (forall max t rest s0,
        (requestsMade s0 < max)%Z ->
        run_tasks api store_fails fresh_id max (t :: rest) s0
        = run_tasks api store_fails fresh_id max rest
            (snd (run_task api store_fails fresh_id (endpoint t) s0)))
  /\ (forall e s0,
        exists nc ns nm,
          let s1 := snd (run_task api store_fails fresh_id e s0) in
          competitions s1 = competitions s0 ++ nc
          /\ standings s1 = standings s0 ++ ns
          /\ matches s1 = matches s0 ++ nm)
  /\ (let out := handler api store_fails fresh_id None s in
      (exists n, fst out = Ok (Success [] n))
      /\ (forall r, fst out = Ok r -> status r = "success")
      /\ exists new,
          http_calls (snd out) = http_calls s ++ new
          /\ map fst new = map endpoint tasks)
  /\ (let out := handler (steady_api premier_league_only) second_operation_fails
                         numbered_id None empty_store in
      fst out = Ok (Success [] 3)
      /\ In (LogFailedTask "/competitions/PL" "Server Error") (sink (snd out))
      /\ competitions (snd out) = []
      /\ length (standings (snd out)) = 10%nat
      /\ length (matches (snd out)) = 2%nat)
  /\ (let out := handler unreachable_api reliable_store numbered_id None empty_store in
      fst out = Ok (Success [] 0)
      /\ length (filter (fun entry => match entry with
                                      | LogFailedTask _ _ => true
                                      | _ => false
                                      end) (sink (snd out))) = 9%nat).
Proof.
  split; [ | split; [ | split; [ | split; [ | split; [ | split]]]]].
  - intros e s0. apply run_task_returns.
  - intros e s0 err s1 H. rewrite run_task_unfold. now rewrite H.
  - intros max t rest s0 Hlt. rewrite run_tasks_unfold.
    destruct (Z.geb_spec (requestsMade s0) max); [lia | reflexivity].
  - intros e s0.
    destruct (run_task_grows api store_fails fresh_id e s0)
      as (nc & ns & nm & Hc & Hs & Hm & _).
    exists nc, ns, nm. auto.
  - unfold handler.
    rewrite (handler_with_started api store_fails fresh_id None maxRequests tasks s eq_refl).
    destruct (run_tasks_calls api store_fails fresh_id maxRequests tasks (loop_start tasks s))
      as (new & Hc & _ & _ & _ & _ & _ & _ & Hall).
    simpl in Hc. simpl.
    split; [eexists; reflexivity | ].
    split; [intros r Hr; injection Hr as <-; reflexivity | ].
    exists new. split; [exact Hc | ].
    apply Hall. vm_compute. discriminate.
  - vm_compute. repeat split. tauto.
  - vm_compute. split; reflexivity.
Qed.

(** ** Equality of values *)

Lemma value_eqb_refl : forall a, value_eqb a a = true.
Proof.
  fix IH 1. intros [ | | x | x | x | xs | fs]; simpl; try reflexivity.
  - apply Bool.eqb_reflx.
  - apply Z.eqb_refl.
  - apply String.eqb_refl.
  - induction xs as [|x xs IHxs]; [reflexivity | ].
    now rewrite (IH x), IHxs.
  - induction fs as [|[k x] fs IHfs]; [reflexivity | ].
    now rewrite String.eqb_refl, (IH x), IHfs.
Qed.

Lemma value_eqb_eq : forall a b, value_eqb a b = true -> a = b.
Proof.
  fix IH 1.
  intros [ | | x | x | x | xs | fs] [ | | y | y | y | ys | gs]; simpl;
    try discriminate; try reflexivity; intros H.
  - f_equal. now apply Bool.eqb_prop.
  - f_equal. now apply Z.eqb_eq.
  - f_equal. now apply String.eqb_eq.
  - f_equal. revert ys H.
    induction xs as [|x xs IHxs]; intros [|y ys] H; try discriminate; [reflexivity | ].
    apply andb_prop in H. destruct H as [H1 H2].
    f_equal; [apply IH; exact H1 | apply IHxs; exact H2].
  - f_equal. revert gs H.
    induction fs as [|[k x] fs IHfs]; intros [|[l y] gs] H; try discriminate; [reflexivity | ].
    apply andb_prop in H. destruct H as [H1 H3].
    apply andb_prop in H1. destruct H1 as [H1 H2].
    apply String.eqb_eq in H1. subst l.
    f_equal; [f_equal; apply IH; exact H2 | apply IHfs; exact H3].
Qed.

Lemma having_nil (key : string) (v : value) (docs : list document) :
  having key v docs = [] <-> forall d, In d docs -> field key d <> v.
Proof.
  unfold having. induction docs as [|d docs IH]; simpl.
  - split; [intros _ d [] | reflexivity].
  - destruct (value_eqb (field key d) v) eqn:E.
    + split; [discriminate | ].
      intros H. exfalso. apply (H d); [now left | now apply value_eqb_eq].
    + rewrite IH. split.
      * intros H d' [<-|Hin]; [ | now apply H].
        intros Heq. rewrite Heq, value_eqb_refl in E. discriminate E.
      * intros H d' Hin. apply H. now right.
Qed.

Lemma having_some (key : string) (v : value) (docs : list document) :
  having key v docs <> [] <-> exists d, In d docs /\ field key d = v.
Proof.
  split.
  - intros H. destruct (having key v docs) as [|d rest] eqn:E; [now elim H | ].
    assert (Hin : In d (having key v docs)) by (rewrite E; now left).
    unfold having in Hin. apply filter_In in Hin. destruct Hin as [Hin Heq].
    exists d. split; [exact Hin | now apply value_eqb_eq].
  - intros (d & Hin & Heq) H. rewrite having_nil in H. now apply (H d).
Qed.

(** ** The branches, step by step *)

Section Branches.

Variable api : nat -> string -> string + value.
Variable store_fails : nat -> option string.
Variable fresh_id : nat -> string.

Lemma classified_logged (e : string) (data : value) (s : state) :
  data <> VUndef ->
  classified store_fails fresh_id e data s
  = match classify e with
    | Some Standing => store_standings store_fails fresh_id (compCode e) data
    | Some Competition => store_competition store_fails fresh_id (compCode e) data
    | Some Match => store_matches store_fails fresh_id (compCode e) data
    | None => ret tt
    end (write_log (LogResponse e data) s).
Proof.
  intros H. unfold classified, log_response.
  destruct data; try (now elim H); reflexivity.
Qed.

(** A task whose call completed runs its branch from [fetched]. *)
Lemma run_task_fetched (e : string) (data : value) (s : state) :
  api (length (http_calls s)) e = inr data ->
  data <> VUndef ->
  run_task api store_fails fresh_id e s
  = match match classify e with
          | Some Standing => store_standings store_fails fresh_id (compCode e) data
          | Some Competition => store_competition store_fails fresh_id (compCode e) data
          | Some Match => store_matches store_fails fresh_id (compCode e) data
          | None => ret tt
          end (fetched e data s) with
    | (Ok _, s1) => (Ok tt, s1)
    | (Throw err, s1) => (Ok tt, write_log (LogFailedTask e (message err)) s1)
    end.
Proof.
  intros Hapi Hdata. rewrite run_task_unfold.
  rewrite (process_task_fetched api store_fails fresh_id e
             (write_log (LogTask e) s) data Hapi).
  rewrite classified_logged by exact Hdata. reflexivity.
Qed.

Lemma store_competition_absent (code data : value) (b : body) (s : state) :
  store_fails (length (store_ops s)) = None ->
  store_fails (S (length (store_ops s))) = None ->
  having "code" code (competitions s) = [] ->
  competition_body code data = Ok b ->
  store_competition store_fails fresh_id code data s
  = let d := mkDocument (fresh_id (next_id s)) b (Some [ReadAny]) in
    (Ok tt,
     write_log (LogSavedCompetition code (lookup "name" b))
       (append_document Competitions d
          (record_op (OpCreate Competitions d)
             (draw_id (record_op (OpList Competitions "code" code) s))))).
Proof.
  intros Hl Hc He Hb. unfold having in He.
  unfold store_competition, bind, listDocuments, ID_unique, lift,
    createDocument, log, documents.
  rewrite Hl, He. simpl. rewrite Hb. rewrite length_app, Nat.add_1_r, Hc.
  reflexivity.
Qed.

Lemma store_competition_present (code data : value) (s : state) :
  store_fails (length (store_ops s)) = None ->
  having "code" code (competitions s) <> [] ->
  store_competition store_fails fresh_id code data s
  = (Ok tt,
     write_log (LogSkippedCompetition code)
       (record_op (OpList Competitions "code" code) s)).
Proof.
  intros Hl He. unfold having in He.
  unfold store_competition, bind, listDocuments, log, documents.
  rewrite Hl.
  destruct (filter (fun d => value_eqb (field "code" d) code) (competitions s));
    [now elim He | reflexivity].
Qed.

End Branches.

(** C7.  A Competition task for [/competitions/PL] whose response is
    [{name: "Premier League", area: {name: "England"}}], on a store that
    accepts its operations: when no Competition document has the code
    [PL], the task checks for one and creates exactly one document,
    [{code: "PL", name: "Premier League", area_name: "England"}], with
    the public-read permission; when one has, the task checks and
    creates nothing, updates nothing and logs the skip, not an error.
    The other collections are untouched.  Run twice from an empty
    store, the handler leaves one Competition document. *)
Theorem competition_created_once_per_code
        (api : nat -> string -> string + value)
        (store_fails : nat -> option string) (fresh_id : nat -> string)
        (s : state)
        (Hapi : api (length (http_calls s)) "/competitions/PL" = inr premier_league)
        (Hlist : store_fails (length (store_ops s)) = None)
        (Hcreate : store_fails (S (length (store_ops s))) = None) :
  let s' := snd (run_task api store_fails fresh_id "/competitions/PL" s) in
  let doc :=
    mkDocument (fresh_id (next_id s))
               [("code", VStr "PL"); ("name", VStr "Premier League");
                ("area_name", VStr "England")]
               (Some [ReadAny]) in
  ((forall d, In d (competitions s) -> field "code" d <> VStr "PL") ->
   competitions s' = competitions s ++ [doc]
   /\ store_ops s' = store_ops s ++ [OpList Competitions "code" (VStr "PL");
                                     OpCreate Competitions doc]
   /\ sink s' = sink s ++ [LogTask "/competitions/PL";
                           LogResponse "/competitions/PL" premier_league;
                           LogSavedCompetition (VStr "PL") (VStr "Premier League")])
  /\ ((exists d, In d (competitions s) /\ field "code" d = VStr "PL") ->
      competitions s' = competitions s
      /\ store_ops s' = store_ops s ++ [OpList Competitions "code" (VStr "PL")]
      /\ sink s' = sink s ++ [LogTask "/competitions/PL";
                              LogResponse "/competitions/PL" premier_league;
                              LogSkippedCompetition (VStr "PL")])
  /\ standings s' = standings s
  /\ matches s' = matches s
  /\ (let run := handler (steady_api premier_league_only) reliable_store numbered_id None in
      competitions (snd (run empty_store))
      = [mkDocument "id-0" [("code", VStr "PL"); ("name", VStr "Premier League");
                            ("area_name", VStr "England")] (Some [ReadAny])]
      /\ competitions (snd (run (snd (run empty_store))))
         = competitions (snd (run empty_store))).
Proof.
  intros s' doc.
  assert (Hdata : premier_league <> VUndef) by discriminate.
  pose proof (run_task_fetched api store_fails fresh_id "/competitions/PL"
                premier_league s Hapi Hdata) as Hrun.
  change (classify "/competitions/PL") with (Some Competition) in Hrun.
  change (compCode "/competitions/PL") with (VStr "PL") in Hrun.
  cbv iota in Hrun.
  assert (Hbody : competition_body (VStr "PL") premier_league
                  = Ok [("code", VStr "PL"); ("name", VStr "Premier League");
                        ("area_name", VStr "England")]) by reflexivity.
  split; [ | split; [ | split; [ | split; [ | vm_compute; split; reflexivity]]]].
  - intros Hno. apply having_nil in Hno.
    rewrite (store_competition_absent store_fails fresh_id (VStr "PL") premier_league _
               (fetched "/competitions/PL" premier_league s) Hlist Hcreate Hno Hbody)
      in Hrun.
    subst s'. rewrite Hrun. simpl. rewrite <- !app_assoc. repeat split.
  - intros Hex. apply having_some in Hex.
    rewrite (store_competition_present store_fails fresh_id (VStr "PL") premier_league
               (fetched "/competitions/PL" premier_league s) Hlist Hex)
      in Hrun.
    subst s'. rewrite Hrun. simpl. rewrite <- !app_assoc. repeat split.
  - destruct (having "code" (VStr "PL") (competitions s)) as [|d0 rest] eqn:Hhave.
    + rewrite (store_competition_absent store_fails fresh_id (VStr "PL") premier_league _
                 (fetched "/competitions/PL" premier_league s) Hlist Hcreate Hhave Hbody)
        in Hrun.
      subst s'. rewrite Hrun. reflexivity.
    + assert (Hne : having "code" (VStr "PL") (competitions s) <> [])
        by (rewrite Hhave; discriminate).
      rewrite (store_competition_present store_fails fresh_id (VStr "PL") premier_league
                 (fetched "/competitions/PL" premier_league s) Hlist Hne)
        in Hrun.
      subst s'. rewrite Hrun. reflexivity.
  - destruct (having "code" (VStr "PL") (competitions s)) as [|d0 rest] eqn:Hhave.
    + rewrite (store_competition_absent store_fails fresh_id (VStr "PL") premier_league _
                 (fetched "/competitions/PL" premier_league s) Hlist Hcreate Hhave Hbody)
        in Hrun.
      subst s'. rewrite Hrun. reflexivity.
    + assert (Hne : having "code" (VStr "PL") (competitions s) <> [])
        by (rewrite Hhave; discriminate).
      rewrite (store_competition_present store_fails fresh_id (VStr "PL") premier_league
                 (fetched "/competitions/PL" premier_league s) Hlist Hne)
        in Hrun.
      subst s'. rewrite Hrun. reflexivity.
Qed.

Lemma competition_created_once_per_code_witness :
  steady_api premier_league_only (length (http_calls empty_store)) "/competitions/PL"
  = inr premier_league
  /\ reliable_store (length (store_ops empty_store)) = None
  /\ reliable_store (S (length (store_ops empty_store))) = None
  /\ standings (snd (run_task (steady_api premier_league_only) reliable_store
                              numbered_id "/competitions/PL" empty_store))
     = standings empty_store.
Proof.
  split; [reflexivity | ]. split; [reflexivity | ]. split; [reflexivity | ].
  exact (proj1 (proj2 (proj2
    (competition_created_once_per_code
       (steady_api premier_league_only) reliable_store numbered_id empty_store
       eq_refl eq_refl eq_refl)))).
Defined.

(** ** The standings branch on a store that accepts every operation *)

Section StandingsBranch.

Variable fresh_id : nat -> string.

Lemma store_standing_written (code row : value) (b : body) (s : state) :
  standing_body code row = Ok b ->
  store_standing reliable_store fresh_id code row s
  = let d := mkDocument (fresh_id (next_id s)) b None in
    (Ok tt,
     write_log (LogSavedStanding code (lookup "position" b) (lookup "team_name" b))
       (append_document Standings d
          (record_op (OpCreate Standings d) (draw_id s)))).
Proof.
  intros Hb.
  unfold store_standing, bind, ID_unique, lift, createDocument, log, reliable_store.
  now rewrite Hb.
Qed.

Lemma store_standing_malformed (code row : value) (err : exn) (s : state) :
  standing_body code row = Throw err ->
  store_standing reliable_store fresh_id code row s = (Throw err, draw_id s).
Proof.
  intros Hb. unfold store_standing, bind, ID_unique, lift. now rewrite Hb.
Qed.

(** Well-formed rows are all written, in order, each by one creation
    and nothing else. *)
Lemma standings_loop (code : value) (rows : list value) (s : state) :
  Forall well_formed_row rows ->
  exists new s',
    for_each (store_standing reliable_store fresh_id code) rows s = (Ok tt, s')
    /\ standings s' = standings s ++ new
    /\ Forall2 (fun row d => standing_body code row = Ok (doc_body d)
                             /\ doc_perms d = None) rows new
    /\ store_ops s' = store_ops s ++ map (OpCreate Standings) new
    /\ competitions s' = competitions s
    /\ matches s' = matches s
    /\ sink s' = sink s
              ++ map (fun d => LogSavedStanding code (field "position" d)
                                                (field "team_name" d)) new.
Proof.
  revert s. induction rows as [|row rows IH]; intros s Hwf.
  - exists [], s. simpl. rewrite !app_nil_r. repeat split. constructor.
  - inversion Hwf as [|? ? Hrow Hrest]; subst.
    destruct (Hrow code) as [b Hb].
    simpl for_each. unfold bind at 1.
    rewrite (store_standing_written code row b s Hb). cbv beta iota zeta.
    match goal with
    | |- context [for_each _ rows ?s1] =>
        destruct (IH s1 Hrest) as (new & s' & Hrun & Hs & Hf & Ho & Hc & Hm & Hl)
    end.
    exists (mkDocument (fresh_id (next_id s)) b None :: new), s'.
    split; [exact Hrun | ].
    simpl in Hs, Ho, Hc, Hm, Hl.
    rewrite Hs, Ho, Hc, Hm, Hl, <- !app_assoc.
    repeat split. constructor; [split; [exact Hb | reflexivity] | exact Hf].
Qed.

Lemma standings_of_table (data st : value) (rows : list value) :
  get "standings" data = Ok st ->
  get "table" (item0 st) = Ok (VArr rows) ->
  standings_of data = Ok (VArr (firstn 10 rows)).
Proof.
  intros Hst Htable. unfold standings_of. rewrite Hst. simpl rbind.
  destruct (nullish st) eqn:Nst.
  - destruct st; try discriminate Nst; discriminate Htable.
  - destruct (nullish (item0 st)) eqn:Nfirst.
    + destruct (item0 st); try discriminate Nfirst; discriminate Htable.
    + rewrite Htable. reflexivity.
Qed.

Lemma standings_of_absent (data : value) :
  table_absent data -> standings_of data = Ok (VArr []).
Proof.
  intros (st & Hst & Habs). unfold standings_of. rewrite Hst. simpl rbind.
  destruct (nullish st) eqn:Nst; [reflexivity | ].
  destruct Habs as [Habs | [Habs | (table & Htable & Habs)]].
  - discriminate Habs.
  - rewrite Habs. reflexivity.
  - destruct (nullish (item0 st)); [reflexivity | ].
    rewrite Htable. simpl. rewrite Habs. reflexivity.
Qed.

Lemma store_standings_table (code data st : value) (rows : list value) (s : state) :
  get "standings" data = Ok st ->
  get "table" (item0 st) = Ok (VArr rows) ->
  store_standings reliable_store fresh_id code data s
  = for_each (store_standing reliable_store fresh_id code) (firstn 10 rows)
             (write_log (LogStandingsCount (length (firstn 10 rows)) code) s).
Proof.
  intros Hst Htable. unfold store_standings.
  unfold bind at 1. unfold lift at 1.
  rewrite (standings_of_table data st rows Hst Htable).
  reflexivity.
Qed.

Lemma store_standings_absent (code data : value) (s : state) :
  table_absent data ->
  store_standings reliable_store fresh_id code data s
  = (Ok tt, write_log (LogStandingsCount 0 code) s).
Proof.
  intros Habs. unfold store_standings.
  unfold bind at 1. unfold lift at 1.
  rewrite (standings_of_absent data Habs). reflexivity.
Qed.

End StandingsBranch.

(** A row that cannot be read ends a Standing task: of three rows whose
    second has no team only the first is inserted, and the failure is
    logged; a store that rejects the second creation has the same
    effect on the twelve-row response.  A response that is [null] has
    no [standings] path, yet the task errors. *)
Lemma unreadable_row_cuts_the_standings_short :
  classify "/competitions/PL/standings" = Some Standing
  /\ Nat.min 10 (length teamless_second_row) = 3%nat
  /\ map (field "position")
         (standings (snd (run_task (steady_api (fun _ => inr teamless_second_row_response))
                                   reliable_store numbered_id
                                   "/competitions/PL/standings" empty_store)))
     = [VNum 1]
  /\ last (sink (snd (run_task (steady_api (fun _ => inr teamless_second_row_response))
                               reliable_store numbered_id
                               "/competitions/PL/standings" empty_store)))
          LogInvoked
     = LogFailedTask "/competitions/PL/standings"
                     "Cannot read properties of undefined (reading 'name')"
  /\ map (field "position")
         (standings (snd (run_task (steady_api premier_league_only)
                                   second_operation_fails numbered_id
                                   "/competitions/PL/standings" empty_store)))
     = [VNum 1]
  /\ standings (snd (run_task (steady_api (fun _ => inr VNull)) reliable_store numbered_id
                              "/competitions/PL/standings" empty_store))
     = []
  /\ sink (snd (run_task (steady_api (fun _ => inr VNull)) reliable_store numbered_id
                         "/competitions/PL/standings" empty_store))
     = [LogTask "/competitions/PL/standings";
        LogResponse "/competitions/PL/standings" VNull;
        LogFailedTask "/competitions/PL/standings"
                      "Cannot read properties of null (reading 'standings')"].
Proof. vm_compute. repeat split. Qed.

(** C6 (amended).  A Standing task on a store that accepts every
    operation, whose response has an array of rows at
    [standings[0].table], each of the first ten an object with a team
    (every read of the loop succeeds on it): the task appends exactly
    [min(10, number of rows)] Standing documents, one per row of the
    first ten and in table order, each created without a permission
    argument; the store operations it issues are these creations and
    nothing else (no existence check), and the other collections are
    untouched.  When the response is not [null] or [undefined] itself
    and a step of the path is, the task writes nothing, issues no store
    operation and logs no error.  With the twelve-row response the
    handler writes the rows of positions 1 to 10 in one run, and the
    store holds twenty Standing documents after two. *)
Theorem standings_inserted_without_check
        (api : nat -> string -> string + value) (fresh_id : nat -> string)
        (e : string) (data st : value) (rows : list value) (s : state)
        (Hkind : classify e = Some Standing)
        (Hapi : api (length (http_calls s)) e = inr data)
        (Hst : get "standings" data = Ok st)
        (Htable : get "table" (item0 st) = Ok (VArr rows))
        (Hrows : Forall well_formed_row (firstn 10 rows)) :
  (let s' := snd (run_task api reliable_store fresh_id e s) in
   exists new,
     standings s' = standings s ++ new
     /\ length new = Nat.min 10 (length rows)
     /\ Forall2 (fun row d => standing_body (compCode e) row = Ok (doc_body d)
                              /\ doc_perms d = None)
                (firstn 10 rows) new
     /\ store_ops s' = store_ops s ++ map (OpCreate Standings) new
     /\ competitions s' = competitions s
     /\ matches s' = matches s)
  /\ (forall data0 s0,
        api (length (http_calls s0)) e = inr data0 ->
        table_absent data0 ->
        let s' := snd (run_task api reliable_store fresh_id e s0) in
        standings s' = standings s0
        /\ store_ops s' = store_ops s0
        /\ sink s' = sink s0 ++ [LogTask e; LogResponse e data0;
                                 LogStandingsCount 0 (compCode e)])
  /\ (let run := handler (steady_api premier_league_only) reliable_store numbered_id None in
      map (field "position") (standings (snd (run empty_store)))
      = [VNum 1; VNum 2; VNum 3; VNum 4; VNum 5; VNum 6; VNum 7; VNum 8; VNum 9; VNum 10]
      /\ length (standings (snd (run (snd (run empty_store))))) = 20%nat
      /\ having "competition_code" (VStr "PL") (standings (snd (run (snd (run empty_store)))))
         = standings (snd (run (snd (run empty_store))))).
Proof.
  assert (Hnot_undef : forall d x, get "standings" d = Ok x -> d <> VUndef)
    by (intros d x H ->; discriminate H).
  split; [ | split; [ | vm_compute; repeat split]].
  - intros s'. subst s'.
    rewrite (run_task_fetched api reliable_store fresh_id e data s Hapi (Hnot_undef _ _ Hst)).
    rewrite Hkind.
    rewrite (store_standings_table fresh_id (compCode e) data st rows (fetched e data s) Hst Htable).
    match goal with
    | |- context [for_each _ _ ?s1] =>
        destruct (standings_loop fresh_id (compCode e) (firstn 10 rows) s1 Hrows)
          as (new & s' & Hrun & Hs & Hf & Ho & Hc & Hm & _)
    end.
    rewrite Hrun. exists new. simpl snd.
    split; [exact Hs | ].
    split; [rewrite <- (Forall2_length Hf); apply length_firstn | ].
    split; [exact Hf | ].
    split; [exact Ho | ]. split; [exact Hc | exact Hm].
  - intros data0 s0 Hapi0 Habs s'. subst s'.
    destruct Habs as (st0 & Hst0 & Habs).
    rewrite (run_task_fetched api reliable_store fresh_id e data0 s0 Hapi0 (Hnot_undef _ _ Hst0)).
    rewrite Hkind.
    rewrite (store_standings_absent fresh_id (compCode e) data0 (fetched e data0 s0)
               (ex_intro _ st0 (conj Hst0 Habs))).
    simpl. rewrite <- !app_assoc. repeat split.
Qed.

Lemma standings_inserted_without_check_witness :
  classify "/competitions/PL/standings" = Some Standing
  /\ steady_api premier_league_only (length (http_calls empty_store))
                "/competitions/PL/standings" = inr standings_response
  /\ Forall well_formed_row (firstn 10 twelve_rows)
  /\ exists new,
      standings (snd (run_task (steady_api premier_league_only) reliable_store
                               numbered_id "/competitions/PL/standings" empty_store))
      = standings empty_store ++ new
      /\ length new = Nat.min 10 (length twelve_rows).
Proof.
  assert (Hrows : Forall well_formed_row (firstn 10 twelve_rows)).
  { repeat constructor; intros code; eexists; reflexivity. }
  split; [reflexivity | ]. split; [reflexivity | ]. split; [exact Hrows | ].
  destruct (standings_inserted_without_check
              (steady_api premier_league_only) numbered_id
              "/competitions/PL/standings" standings_response
              (VArr [VObj [("table", VArr twelve_rows)]]) twelve_rows empty_store
              eq_refl eq_refl eq_refl eq_refl Hrows)
    as [(new & Hs & Hlen & _) _].
  exists new. split; [exact Hs | exact Hlen].
Defined.

(** ** The matches branch on a store that accepts every operation *)

Section MatchesBranch.

Variable fresh_id : nat -> string.

Lemma get_not_nullish (k : string) (m : value) :
  nullish m = false -> exists v, get k m = Ok v.
Proof. destruct m; try discriminate; intros _; eexists; reflexivity. Qed.

Lemma match_body_id (documentId : string) (code m : value) (b : body) :
  match_body documentId code m = Ok b -> lookup "match_id" b = match_id_of m.
Proof.
  unfold match_body, match_id_of, rbind. intros H.
  repeat match type of H with
         | context [match ?x with _ => _ end] => destruct x; try discriminate H
         end.
  injection H as <-. reflexivity.
Qed.

(** An entry that is not finished is passed over. *)
Lemma store_match_other (code m : value) (s : state) :
  nullish m = false ->
  is_finished m = false ->
  store_match reliable_store fresh_id code m s = (Ok tt, s).
Proof.
  intros Hm Hfin. unfold is_finished in Hfin.
  destruct (get_not_nullish "status" m Hm) as [st Hst]. rewrite Hst in Hfin.
  unfold store_match, bind, lift. rewrite Hst, Hfin. reflexivity.
Qed.

(** A finished entry already stored is checked and skipped. *)
Lemma store_match_known (code m : value) (s : state) :
  nullish m = false ->
  is_finished m = true ->
  having "match_id" (match_id_of m) (matches s) <> [] ->
  store_match reliable_store fresh_id code m s
  = (Ok tt,
     write_log (LogSkippedMatch (match_id_of m) code)
       (record_op (OpList Matches "match_id" (match_id_of m)) s)).
Proof.
  intros Hm Hfin Hhave. unfold is_finished in Hfin. unfold match_id_of in *.
  destruct (get_not_nullish "status" m Hm) as [st Hst]. rewrite Hst in Hfin.
  destruct (get_not_nullish "id" m Hm) as [id Hid]. rewrite Hid in *.
  unfold having in Hhave.
  unfold store_match, bind, lift, listDocuments, log, reliable_store, documents.
  rewrite Hst, Hfin, Hid.
  destruct (filter (fun d => value_eqb (field "match_id" d) id) (matches s));
    [now elim Hhave | reflexivity].
Qed.

(** A finished entry not yet stored is checked and created. *)
Lemma store_match_new (code m : value) (b : body) (s : state) :
  nullish m = false ->
  is_finished m = true ->
  having "match_id" (match_id_of m) (matches s) = [] ->
  match_body (fresh_id (next_id s)) code m = Ok b ->
  store_match reliable_store fresh_id code m s
  = let d := mkDocument (fresh_id (next_id s)) b (Some [ReadAny]) in
    (Ok tt,
     write_log (LogSavedMatch (match_id_of m) code (fresh_id (next_id s)))
       (append_document Matches d
          (record_op (OpCreate Matches d)
             (draw_id (record_op (OpList Matches "match_id" (match_id_of m)) s))))).
Proof.
  intros Hm Hfin Hhave Hb. unfold is_finished in Hfin. unfold match_id_of in *.
  destruct (get_not_nullish "status" m Hm) as [st Hst]. rewrite Hst in Hfin.
  destruct (get_not_nullish "id" m Hm) as [id Hid]. rewrite Hid in *.
  unfold having in Hhave.
  unfold store_match, bind, lift, listDocuments, ID_unique, createDocument, log,
    reliable_store, documents.
  rewrite Hst, Hfin, Hid, Hhave. simpl. rewrite Hb. reflexivity.
Qed.



End MatchesBranch.




(** ** Two runs in sequence *)

Lemma kept_refl (c : collection) (s : state) : kept c s s.
Proof. reflexivity. Qed.

Lemma kept_trans (c : collection) (s1 s2 s3 : state) :
  kept c s1 s2 -> kept c s2 s3 -> kept c s1 s3.
Proof. unfold kept. congruence. Qed.

Lemma store_grows_incl (c : collection) (s s' : state) :
  store_grows s s' -> incl (documents c s) (documents c s').
Proof.
  intros (nc & ns & nm & Hc & Hs & Hm & _).
  destruct c; simpl; [rewrite Hc | rewrite Hs | rewrite Hm]; apply incl_appl, incl_refl.
Qed.

Section Kept.

Variable store_fails : nat -> option string.
Variable fresh_id : nat -> string.

Ltac kept_primitive c Hc :=
  lazymatch goal with
  | |- forall id b, preserves _ (createDocument _ _ id b _) =>
      let s := fresh "s" in
      intros ? ? s; unfold createDocument, kept;
      destruct (store_fails (length (store_ops s))); [reflexivity | ];
      destruct c; first [reflexivity | now elim Hc]
  | |- _ =>
      unfold preserves, kept; intros;
      unfold listDocuments;
      repeat match goal with
        | |- context [match ?x with _ => _ end] => destruct x
        end;
      reflexivity
  end.

Lemma store_standings_kept (c : collection) (code data : value) :
  c <> Standings ->
  preserves (kept c) (store_standings store_fails fresh_id code data).
Proof.
  intros Hc. apply store_standings_preserves;
    try exact (kept_refl c); try exact (kept_trans c); kept_primitive c Hc.
Qed.

Lemma store_competition_kept (c : collection) (code data : value) :
  c <> Competitions ->
  preserves (kept c) (store_competition store_fails fresh_id code data).
Proof.
  intros Hc. apply store_competition_preserves;
    try exact (kept_refl c); try exact (kept_trans c); kept_primitive c Hc.
Qed.

Lemma store_matches_kept (c : collection) (code data : value) :
  c <> Matches ->
  preserves (kept c) (store_matches store_fails fresh_id code data).
Proof.
  intros Hc. apply store_matches_preserves;
    try exact (kept_refl c); try exact (kept_trans c); kept_primitive c Hc.
Qed.

End Kept.

Section TwoRuns.

Variable responses : string -> string + value.
Variable fresh_id : nat -> string.

Local Abbreviation api := (steady_api responses).

(** *** The standings are appended again *)

Lemma standings_loop_bodies (code : value) (rows : list value) (s : state) :
  map doc_body (standings (snd (for_each (store_standing reliable_store fresh_id code) rows s)))
  = map doc_body (standings s) ++ standing_bodies code rows.
Proof.
  revert s. induction rows as [|row rows IH]; intros s.
  - simpl. now rewrite app_nil_r.
  - simpl for_each. unfold bind at 1. simpl standing_bodies.
    destruct (standing_body code row) as [b|err] eqn:Hb.
    + rewrite (store_standing_written fresh_id code row b s Hb). cbv beta iota zeta.
      rewrite IH. simpl standings. rewrite map_app, <- app_assoc. reflexivity.
    + rewrite (store_standing_malformed fresh_id code row err s Hb).
      simpl. now rewrite app_nil_r.
Qed.

Lemma store_standings_bodies (code data : value) (s : state) :
  map doc_body (standings (snd (store_standings reliable_store fresh_id code data s)))
  = map doc_body (standings s)
    ++ match (let* rows := standings_of data in elements rows) with
       | Ok items => standing_bodies code items
       | Throw _ => []
       end.
Proof.
  unfold store_standings. unfold bind at 1. unfold lift at 1.
  destruct (standings_of data) as [rows|err]; simpl rbind;
    [ | simpl; now rewrite app_nil_r].
  unfold bind at 1. unfold lift at 1.
  destruct (elements rows) as [items|err];
    [ | simpl; now rewrite app_nil_r].
  unfold bind at 1. unfold log at 1.
  rewrite standings_loop_bodies. reflexivity.
Qed.

Lemma run_task_standings (e : string) (s : state) :
  map doc_body (standings (snd (run_task api reliable_store fresh_id e s)))
  = map doc_body (standings s) ++ task_standings responses e.
Proof.
  rewrite run_task_unfold. unfold task_standings.
  destruct (responses e) as [msg|data] eqn:Hresp.
  - rewrite (process_task_rejected api reliable_store fresh_id e
               (write_log (LogTask e) s) msg Hresp).
    simpl. now rewrite app_nil_r.
  - rewrite (process_task_fetched api reliable_store fresh_id e
               (write_log (LogTask e) s) data Hresp).
    assert (Hkept : forall m : M unit,
               preserves (kept Standings) m ->
               forall s0,
                 map doc_body
                     (standings (snd (let (r, s1) := m s0 in
                                      match r with
                                      | Ok _ => (Ok tt, s1)
                                      | Throw err =>
                                          (Ok tt, write_log (LogFailedTask e (message err)) s1)
                                      end)))
                 = map doc_body (standings s0) ++ []).
    { intros m Hm s0. specialize (Hm s0). unfold kept in Hm. simpl in Hm.
      destruct (m s0) as [[[]|err] s1]; simpl in *; now rewrite Hm, app_nil_r. }
    destruct (value_eqb data VUndef) eqn:Hundef.
    + apply value_eqb_eq in Hundef. subst data. simpl. now rewrite app_nil_r.
    + assert (Hdata : data <> VUndef)
        by (intros ->; discriminate Hundef).
      rewrite (classified_logged reliable_store fresh_id e data _ Hdata).
      assert (Hts : forall l : list body,
                 match data with VUndef => [] | _ => l end = l)
        by (intros l; destruct data; try reflexivity; now elim Hdata).
      rewrite Hts. clear Hts.
      destruct (classify e) as [[| |]|].
      * match goal with
        | |- context [store_standings _ _ _ _ ?s0] =>
            pose proof (store_standings_bodies (compCode e) data s0) as Hb;
            destruct (store_standings reliable_store fresh_id (compCode e) data s0)
              as [[[]|err] s1]
        end; simpl in *; exact Hb.
      * exact (Hkept _ (store_competition_kept reliable_store fresh_id Standings
                          (compCode e) data ltac:(discriminate)) _).
      * exact (Hkept _ (store_matches_kept reliable_store fresh_id Standings
                          (compCode e) data ltac:(discriminate)) _).
      * simpl. now rewrite app_nil_r.
Qed.

Lemma run_tasks_standings (max : Z) (ts : list task) (s : state) :
  map doc_body (standings (snd (run_tasks api reliable_store fresh_id max ts s)))
  = map doc_body (standings s) ++ run_standings responses max ts (requestsMade s).
Proof.
  revert s. induction ts as [|t rest IH]; intros s.
  - simpl. now rewrite app_nil_r.
  - rewrite run_tasks_unfold. simpl run_standings.
    destruct (requestsMade s >=? max)%Z.
    + simpl. now rewrite app_nil_r.
    + rewrite IH, run_task_standings, <- app_assoc. f_equal. f_equal. f_equal.
      pose proof (run_task_calls api reliable_store fresh_id (endpoint t) s) as Hc.
      simpl in Hc. unfold steady_api in Hc.
      destruct (responses (endpoint t)); destruct Hc as [_ Hc]; exact Hc.
Qed.

(** *** The competitions and the matches are not written again *)

Lemma competition_body_code (code data : value) (b : body) :
  competition_body code data = Ok b -> lookup "code" b = code.
Proof.
  unfold competition_body, rbind. intros H.
  repeat match type of H with
         | context [match ?x with _ => _ end] => destruct x; try discriminate H
         end.
  injection H as <-. reflexivity.
Qed.

Lemma store_competition_unbuilt (code data : value) (err : exn) (s : state) :
  having "code" code (competitions s) = [] ->
  competition_body code data = Throw err ->
  store_competition reliable_store fresh_id code data s
  = (Throw err, draw_id (record_op (OpList Competitions "code" code) s)).
Proof.
  intros He Hb. unfold having in He.
  unfold store_competition, bind, listDocuments, ID_unique, lift, reliable_store,
    documents.
  rewrite He. simpl. rewrite Hb. reflexivity.
Qed.

(** A Competition task run on a store that holds what the same task
    left in an earlier run writes nothing. *)
Lemma store_competition_again (code data : value) (a b : state) :
  incl (competitions (snd (store_competition reliable_store fresh_id code data a)))
       (competitions b) ->
  competitions (snd (store_competition reliable_store fresh_id code data b))
  = competitions b.
Proof.
  intros Hincl.
  destruct (having "code" code (competitions b)) as [|d0 rest] eqn:Hb.
  - assert (Ha : having "code" code (competitions a) = []).
    { apply having_nil. intros d Hd.
      apply (proj1 (having_nil "code" code (competitions b)) Hb).
      apply Hincl.
      apply (store_grows_incl Competitions _ _
               (store_competition_grows reliable_store fresh_id code data a)).
      exact Hd. }
    destruct (competition_body code data) as [bd|err] eqn:Hbody.
    + exfalso.
      rewrite (store_competition_absent reliable_store fresh_id code data bd a
                 eq_refl eq_refl Ha Hbody) in Hincl.
      simpl in Hincl.
      apply (proj1 (having_nil "code" code (competitions b)) Hb
               (mkDocument (fresh_id (next_id a)) bd (Some [ReadAny]))).
      * apply Hincl. apply in_or_app. right. now left.
      * unfold field. simpl. exact (competition_body_code code data bd Hbody).
    + rewrite (store_competition_unbuilt code data err b Hb Hbody). reflexivity.
  - assert (Hne : having "code" code (competitions b) <> [])
      by (rewrite Hb; discriminate).
    rewrite (store_competition_present reliable_store fresh_id code data b
               eq_refl Hne).
    reflexivity.
Qed.

Lemma store_match_nullish (code m : value) :
  nullish m = true ->
  exists err, forall s,
      store_match reliable_store fresh_id code m s = (Throw err, s).
Proof.
  intros Hm. destruct m; try discriminate Hm; eexists; intros s; reflexivity.
Qed.

(** A match entry processed on a store that holds what the same entry
    left in an earlier run is not written, and ends the same way. *)
Lemma store_match_again (code m : value) (a b : state) :
  insertable m ->
  incl (matches (snd (store_match reliable_store fresh_id code m a))) (matches b) ->
  matches (snd (store_match reliable_store fresh_id code m b)) = matches b
  /\ fst (store_match reliable_store fresh_id code m b)
     = fst (store_match reliable_store fresh_id code m a).
Proof.
  intros Hins Hincl.
  destruct (nullish m) eqn:Hm.
  - destruct (store_match_nullish code m Hm) as [err Herr].
    rewrite !Herr. split; reflexivity.
  - destruct (is_finished m) eqn:Hfin.
    + assert (Hb : having "match_id" (match_id_of m) (matches b) <> []).
      { apply having_some.
        destruct (having "match_id" (match_id_of m) (matches a)) as [|d0 rest] eqn:Ha.
        - destruct (Hins Hfin (fresh_id (next_id a)) code) as [bd Hbd].
          rewrite (store_match_new fresh_id code m bd a Hm Hfin Ha Hbd) in Hincl.
          simpl in Hincl.
          exists (mkDocument (fresh_id (next_id a)) bd (Some [ReadAny])).
          split; [apply Hincl; apply in_or_app; right; now left | ].
          unfold field. simpl. exact (match_body_id _ _ _ _ Hbd).
        - assert (Hne : having "match_id" (match_id_of m) (matches a) <> [])
            by (rewrite Ha; discriminate).
          destruct (proj1 (having_some _ _ _) Hne) as (d & Hd & Hid).
          exists d. split; [ | exact Hid].
          apply Hincl.
          apply (store_grows_incl Matches _ _
                   (store_match_grows reliable_store fresh_id code m a)).
          exact Hd. }
      rewrite (store_match_known fresh_id code m b Hm Hfin Hb).
      split; [reflexivity | ].
      destruct (having "match_id" (match_id_of m) (matches a)) as [|d0 rest] eqn:Ha.
      * destruct (Hins Hfin (fresh_id (next_id a)) code) as [bd Hbd].
        now rewrite (store_match_new fresh_id code m bd a Hm Hfin Ha Hbd).
      * assert (Hne : having "match_id" (match_id_of m) (matches a) <> [])
          by (rewrite Ha; discriminate).
        now rewrite (store_match_known fresh_id code m a Hm Hfin Hne).
    + rewrite !(store_match_other fresh_id code m _ Hm Hfin). split; reflexivity.
Qed.

Lemma matches_loop_again (code : value) (items : list value) (a b : state) :
  Forall insertable items ->
  incl (matches (snd (for_each (store_match reliable_store fresh_id code) items a)))
       (matches b) ->
  matches (snd (for_each (store_match reliable_store fresh_id code) items b))
  = matches b.
Proof.
  revert a b. induction items as [|m items IH]; intros a b Hins Hincl.
  - reflexivity.
  - inversion Hins as [|? ? Hm Hrest]; subst.
    simpl for_each in *. unfold bind in *.
    assert (Hstep : incl (matches (snd (store_match reliable_store fresh_id code m a)))
                         (matches b)).
    { intros d Hd. apply Hincl.
      destruct (store_match reliable_store fresh_id code m a) as [[[]|err] a1];
        simpl in *; [ | exact Hd].
      apply (store_grows_incl Matches _ _
               (store_matches_loop_grows reliable_store fresh_id code items a1)).
      exact Hd. }
    destruct (store_match_again code m a b Hm Hstep) as [Hsame Hres].
    destruct (store_match reliable_store fresh_id code m a) as [ra a1].
    destruct (store_match reliable_store fresh_id code m b) as [rb b1].
    simpl in Hsame, Hres. subst rb.
    destruct ra as [[]|err]; simpl; [ | exact Hsame].
    rewrite <- Hsame. apply (IH a1 b1 Hrest). rewrite Hsame. exact Hincl.
Qed.

Lemma store_matches_unfold (code data : value) (s : state) :
  store_matches reliable_store fresh_id code data s
  = match matches_of data with
    | Ok ms =>
        match elements ms with
        | Ok items =>
            for_each (store_match reliable_store fresh_id code) items
                     (write_log (LogMatchesCount (length items) code) s)
        | Throw err => (Throw err, s)
        end
    | Throw err => (Throw err, s)
    end.
Proof.
  unfold store_matches. unfold bind at 1. unfold lift at 1.
  destruct (matches_of data) as [ms|err]; [ | reflexivity].
  unfold bind at 1. unfold lift at 1.
  destruct (elements ms) as [items|err]; reflexivity.
Qed.

Lemma store_matches_again (code data : value) (a b : state) :
  (forall ms items, matches_of data = Ok ms -> elements ms = Ok items ->
                    Forall insertable items) ->
  incl (matches (snd (store_matches reliable_store fresh_id code data a))) (matches b) ->
  matches (snd (store_matches reliable_store fresh_id code data b)) = matches b.
Proof.
  intros Hins. rewrite !store_matches_unfold.
  destruct (matches_of data) as [ms|err]; [ | reflexivity].
  destruct (elements ms) as [items|err] eqn:Hitems; [ | reflexivity].
  intros Hincl.
  exact (matches_loop_again code items
           (write_log (LogMatchesCount (length items) code) a)
           (write_log (LogMatchesCount (length items) code) b)
           (Hins ms items eq_refl Hitems) Hincl).
Qed.

(** *** From one task to the run *)

Lemma run_task_documents (c : collection) (e : string) (s : state) :
  documents c (snd (run_task api reliable_store fresh_id e s))
  = documents c (snd (process_task api reliable_store fresh_id e
                                   (write_log (LogTask e) s))).
Proof.
  rewrite run_task_unfold.
  destruct (process_task api reliable_store fresh_id e (write_log (LogTask e) s))
    as [[[]|err] s1]; destruct c; reflexivity.
Qed.

(** The task by cases: it runs the competition branch or the matches
    branch on the response, or leaves both collections alone. *)
Lemma process_task_cases (e : string) (s : state) :
  (exists data,
      responses e = inr data /\ data <> VUndef
      /\ classify e = Some Competition
      /\ process_task api reliable_store fresh_id e (write_log (LogTask e) s)
         = store_competition reliable_store fresh_id (compCode e) data
                             (fetched e data s))
  \/ (exists data,
         responses e = inr data /\ data <> VUndef
         /\ classify e = Some Match
         /\ process_task api reliable_store fresh_id e (write_log (LogTask e) s)
            = store_matches reliable_store fresh_id (compCode e) data
                            (fetched e data s))
  \/ (documents Competitions (snd (process_task api reliable_store fresh_id e
                                                (write_log (LogTask e) s)))
      = documents Competitions s
      /\ documents Matches (snd (process_task api reliable_store fresh_id e
                                              (write_log (LogTask e) s)))
         = documents Matches s
      /\ forall data, responses e = inr data -> data <> VUndef ->
                      classify e <> Some Competition /\ classify e <> Some Match).
Proof.
  destruct (responses e) as [msg|data] eqn:Hresp.
  - right. right.
    rewrite (process_task_rejected api reliable_store fresh_id e
               (write_log (LogTask e) s) msg Hresp).
    repeat split; discriminate.
  - rewrite (process_task_fetched api reliable_store fresh_id e
               (write_log (LogTask e) s) data Hresp).
    destruct (value_eqb data VUndef) eqn:Hundef.
    + apply value_eqb_eq in Hundef. subst data.
      right. right. split; [reflexivity | split; [reflexivity | ]].
      intros data Hd Hn. injection Hd as <-. now elim Hn.
    + assert (Hdata : data <> VUndef) by (intros ->; discriminate Hundef).
      rewrite (classified_logged reliable_store fresh_id e data _ Hdata).
      destruct (classify e) as [[| |]|] eqn:Hkind.
      * right. right. split; [ | split].
        -- exact (store_standings_kept reliable_store fresh_id Competitions
                    (compCode e) data ltac:(discriminate) (fetched e data s)).
        -- exact (store_standings_kept reliable_store fresh_id Matches
                    (compCode e) data ltac:(discriminate) (fetched e data s)).
        -- intros _ _ _. split; discriminate.
      * left. exists data. repeat split; assumption.
      * right. left. exists data. repeat split; assumption.
      * right. right. repeat split; discriminate.
Qed.

Lemma run_task_again_competitions (e : string) (a b : state) :
  incl (competitions (snd (run_task api reliable_store fresh_id e a))) (competitions b) ->
  competitions (snd (run_task api reliable_store fresh_id e b)) = competitions b.
Proof.
  intros Hincl.
  change (documents Competitions (snd (run_task api reliable_store fresh_id e b))
          = documents Competitions b).
  change (incl (documents Competitions (snd (run_task api reliable_store fresh_id e a)))
               (documents Competitions b)) in Hincl.
  rewrite run_task_documents in *.
  destruct (process_task_cases e b)
    as [(data & Hresp & Hdata & Hkind & Hb) | [(data & Hresp & Hdata & Hkind & Hb) | (Hc & _)]].
  - rewrite Hb.
    destruct (process_task_cases e a)
      as [(data' & Hresp' & _ & _ & Ha) | [(data' & _ & _ & Hkind' & _) | (_ & _ & Hk)]].
    + rewrite Hresp in Hresp'. injection Hresp' as <-. rewrite Ha in Hincl.
      exact (store_competition_again (compCode e) data (fetched e data a)
               (fetched e data b) Hincl).
    + rewrite Hkind in Hkind'. discriminate Hkind'.
    + destruct (Hk data Hresp Hdata) as [Hk' _]. now elim Hk'.
  - rewrite Hb.
    exact (store_matches_kept reliable_store fresh_id Competitions
             (compCode e) data ltac:(discriminate) (fetched e data b)).
  - exact Hc.
Qed.

Lemma run_task_again_matches (e : string) (a b : state) :
  (forall data ms items,
      classify e = Some Match ->
      responses e = inr data ->
      matches_of data = Ok ms ->
      elements ms = Ok items ->
      Forall insertable items) ->
  incl (matches (snd (run_task api reliable_store fresh_id e a))) (matches b) ->
  matches (snd (run_task api reliable_store fresh_id e b)) = matches b.
Proof.
  intros Hins Hincl.
  change (documents Matches (snd (run_task api reliable_store fresh_id e b))
          = documents Matches b).
  change (incl (documents Matches (snd (run_task api reliable_store fresh_id e a)))
               (documents Matches b)) in Hincl.
  rewrite run_task_documents in *.
  destruct (process_task_cases e b)
    as [(data & Hresp & Hdata & Hkind & Hb) | [(data & Hresp & Hdata & Hkind & Hb) | (_ & Hm & _)]].
  - rewrite Hb.
    exact (store_competition_kept reliable_store fresh_id Matches
             (compCode e) data ltac:(discriminate) (fetched e data b)).
  - rewrite Hb.
    destruct (process_task_cases e a)
      as [(data' & _ & _ & Hkind' & _) | [(data' & Hresp' & _ & _ & Ha) | (_ & _ & Hk)]].
    + rewrite Hkind in Hkind'. discriminate Hkind'.
    + rewrite Hresp in Hresp'. injection Hresp' as <-. rewrite Ha in Hincl.
      exact (store_matches_again (compCode e) data (fetched e data a) (fetched e data b)
               (fun ms items H1 H2 => Hins data ms items Hkind Hresp H1 H2) Hincl).
    + destruct (Hk data Hresp Hdata) as [_ Hk']. now elim Hk'.
  - exact Hm.
Qed.

Lemma run_task_counter (e : string) (a b : state) :
  requestsMade a = requestsMade b ->
  requestsMade (snd (run_task api reliable_store fresh_id e a))
  = requestsMade (snd (run_task api reliable_store fresh_id e b)).
Proof.
  intros Heq.
  pose proof (run_task_calls api reliable_store fresh_id e a) as Ha.
  pose proof (run_task_calls api reliable_store fresh_id e b) as Hb.
  cbv beta zeta delta [steady_api] in Ha, Hb |- *.
  destruct (responses e); destruct Ha as [_ Ha]; destruct Hb as [_ Hb]; congruence.
Qed.

Lemma run_tasks_again_competitions (max : Z) (ts : list task) (a b : state) :
  requestsMade a = requestsMade b ->
  incl (competitions (snd (run_tasks api reliable_store fresh_id max ts a)))
       (competitions b) ->
  competitions (snd (run_tasks api reliable_store fresh_id max ts b)) = competitions b.
Proof.
  revert a b. induction ts as [|t rest IH]; intros a b Heq Hincl.
  - reflexivity.
  - rewrite run_tasks_unfold in *. rewrite <- Heq.
    destruct (requestsMade a >=? max)%Z; [reflexivity | ].
    set (a1 := snd (run_task api reliable_store fresh_id (endpoint t) a)) in *.
    assert (Hstep : competitions (snd (run_task api reliable_store fresh_id (endpoint t) b))
                    = competitions b).
    { apply (run_task_again_competitions (endpoint t) a b).
      intros d Hd. apply Hincl.
      apply (store_grows_incl Competitions _ _
               (run_tasks_grows api reliable_store fresh_id max rest a1)).
      exact Hd. }
    rewrite <- Hstep. apply (IH a1).
    + apply run_task_counter. exact Heq.
    + rewrite Hstep. exact Hincl.
Qed.

Lemma run_tasks_again_matches (max : Z) (ts : list task) (a b : state) :
  finished_matches_insertable responses ts ->
  requestsMade a = requestsMade b ->
  incl (matches (snd (run_tasks api reliable_store fresh_id max ts a))) (matches b) ->
  matches (snd (run_tasks api reliable_store fresh_id max ts b)) = matches b.
Proof.
  revert a b. induction ts as [|t rest IH]; intros a b Hins Heq Hincl.
  - reflexivity.
  - rewrite run_tasks_unfold in *. rewrite <- Heq.
    destruct (requestsMade a >=? max)%Z; [reflexivity | ].
    set (a1 := snd (run_task api reliable_store fresh_id (endpoint t) a)) in *.
    assert (Hstep : matches (snd (run_task api reliable_store fresh_id (endpoint t) b))
                    = matches b).
    { apply (run_task_again_matches (endpoint t) a b).
      - intros data ms items Hkind Hresp Hms Hitems.
        exact (Hins t data ms items (or_introl eq_refl) Hkind Hresp Hms Hitems).
      - intros d Hd. apply Hincl.
        apply (store_grows_incl Matches _ _
                 (run_tasks_grows api reliable_store fresh_id max rest a1)).
        exact Hd. }
    rewrite <- Hstep. apply (IH a1).
    + intros t' data ms items Hin. exact (Hins t' data ms items (or_intror Hin)).
    + apply run_task_counter. exact Heq.
    + rewrite Hstep. exact Hincl.
Qed.

End TwoRuns.

(** ** Natural keys stay unique *)

Lemma keeps_unique_refl (s : state) : keeps_unique s s.
Proof. intros H. exact H. Qed.

Lemma keeps_unique_trans (a b c : state) :
  keeps_unique a b -> keeps_unique b c -> keeps_unique a c.
Proof. unfold keeps_unique. auto. Qed.

Lemma keeps_unique_same (s s' : state) :
  competitions s' = competitions s -> matches s' = matches s -> keeps_unique s s'.
Proof. intros Hc Hm [H1 H2]. split; [rewrite Hc | rewrite Hm]; assumption. Qed.

Lemma NoDup_new_key (key : string) (v : value) (d : document) (docs : list document) :
  NoDup (map (field key) docs) ->
  having key v docs = [] ->
  field key d = v ->
  NoDup (map (field key) (docs ++ [d])).
Proof.
  intros Hnd Hnone Hd. rewrite map_app. simpl.
  apply NoDup_app; [exact Hnd | repeat constructor; intros [] | ].
  intros k Hin [<-|[]].
  apply in_map_iff in Hin. destruct Hin as (d' & Heq & Hin).
  apply (proj1 (having_nil key v docs) Hnone d' Hin). congruence.
Qed.

Section Unique.

Variable api : nat -> string -> string + value.
Variable store_fails : nat -> option string.
Variable fresh_id : nat -> string.
Variable init_fails : option string.

Lemma store_competition_unique (code data : value) :
  preserves keeps_unique (store_competition store_fails fresh_id code data).
Proof.
  intros s. unfold store_competition, bind, listDocuments, ID_unique, lift,
              createDocument, log, documents.
  destruct (store_fails (length (store_ops s)));
    [apply keeps_unique_same; reflexivity | ].
  fold (having "code" code (competitions s)).
  destruct (having "code" code (competitions s)) as [|d0 rest] eqn:Hnone;
    [ | apply keeps_unique_same; reflexivity].
  simpl.
  destruct (competition_body code data) as [b|err] eqn:Hb;
    [ | apply keeps_unique_same; reflexivity].
  destruct (store_fails _); [apply keeps_unique_same; reflexivity | ].
  intros [Hc Hm]. split; [ | exact Hm]. simpl.
  apply (NoDup_new_key "code" code _ _ Hc Hnone).
  unfold field. simpl. exact (competition_body_code code data b Hb).
Qed.

Lemma store_match_unique (code m : value) :
  preserves keeps_unique (store_match store_fails fresh_id code m).
Proof.
  intros s. unfold store_match. unfold bind at 1. unfold lift at 1.
  destruct (get "status" m) as [st|err]; [ | apply keeps_unique_refl].
  destruct (value_eqb st (VStr "FINISHED")); [ | apply keeps_unique_refl].
  unfold bind at 1. unfold lift at 1.
  destruct (get "id" m) as [id|err] eqn:Hid; [ | apply keeps_unique_refl].
  unfold bind, listDocuments, ID_unique, lift, createDocument, log, documents.
  destruct (store_fails (length (store_ops s)));
    [apply keeps_unique_same; reflexivity | ].
  fold (having "match_id" id (matches s)).
  destruct (having "match_id" id (matches s)) as [|d0 rest] eqn:Hnone;
    [ | apply keeps_unique_same; reflexivity].
  simpl.
  destruct (match_body (fresh_id (next_id s)) code m) as [b|err] eqn:Hb;
    [ | apply keeps_unique_same; reflexivity].
  destruct (store_fails _); [apply keeps_unique_same; reflexivity | ].
  intros [Hc Hm]. split; [exact Hc | ]. simpl.
  apply (NoDup_new_key "match_id" id _ _ Hm Hnone).
  unfold field. simpl. rewrite (match_body_id _ _ _ _ Hb).
  unfold match_id_of. now rewrite Hid.
Qed.

Ltac unique_primitive :=
  unfold preserves; intros;
  unfold listDocuments, createDocument, axios_get;
  repeat match goal with
    | |- context [match ?x with _ => _ end] => destruct x
    end;
  apply keeps_unique_same; reflexivity.

Lemma store_standings_unique (code data : value) :
  preserves keeps_unique (store_standings store_fails fresh_id code data).
Proof.
  apply store_standings_preserves;
    try exact keeps_unique_refl; try exact keeps_unique_trans; unique_primitive.
Qed.

Lemma store_matches_unique (code data : value) :
  preserves keeps_unique (store_matches store_fails fresh_id code data).
Proof.
  unfold store_matches.
  apply (preserves_bind keeps_unique keeps_unique_trans);
    [apply (preserves_lift keeps_unique keeps_unique_refl) | intros ms].
  apply (preserves_bind keeps_unique keeps_unique_trans);
    [apply (preserves_lift keeps_unique keeps_unique_refl) | intros items].
  apply (preserves_bind keeps_unique keeps_unique_trans);
    [unique_primitive | intros _].
  apply (preserves_for_each keeps_unique keeps_unique_refl keeps_unique_trans).
  intros m. apply store_match_unique.
Qed.

Lemma handler_with_unique (max : Z) (ts : list task) :
  preserves keeps_unique (handler_with api store_fails fresh_id init_fails max ts).
Proof.
  apply handler_with_keeps;
    try exact keeps_unique_refl; try exact keeps_unique_trans;
    try exact store_standings_unique; try exact store_competition_unique;
    try exact store_matches_unique; unique_primitive.
Qed.

End Unique.

(** Two runs with the same responses can leave more matches than one:
    the Premier League task fails on its first entry, a finished match
    without teams, before it reaches its second entry; the Champions
    League task then stores a match with the identifier of that first
    entry, so that the second run skips it and goes on to insert the
    second entry. *)
Lemma second_run_resumes_aborted_match_task :
  map (field "match_id")
      (matches (snd (handler (steady_api overlapping_responses) reliable_store
                             numbered_id None empty_store)))
  = [VNum 1]
  /\ map (field "match_id")
         (matches (snd (handler (steady_api overlapping_responses) reliable_store
                                numbered_id None
                                (snd (handler (steady_api overlapping_responses)
                                              reliable_store numbered_id None
                                              empty_store)))))
     = [VNum 1; VNum 2]
  /\ matches (snd (handler (steady_api overlapping_responses) reliable_store
                           numbered_id None
                           (snd (handler (steady_api overlapping_responses)
                                         reliable_store numbered_id None
                                         empty_store))))
     <> matches (snd (handler (steady_api overlapping_responses) reliable_store
                              numbered_id None empty_store)).
Proof.
  split; [vm_compute; reflexivity | ].
  split; [vm_compute; reflexivity | ].
  intros H. apply (f_equal (@length document)) in H. vm_compute in H.
  discriminate H.
Qed.

(** C2 (amended).  Running the nine tasks twice in sequence against an
    initially empty store that accepts every operation, with the
    upstream API answering the same both times: the second run leaves
    the Competition documents exactly as the first run left them, with
    no two of them sharing a code; it appends to the Standing documents
    the bodies the first run wrote, in the same order, so that there
    are exactly twice as many; after the first run and after the second
    no two Match documents share a match identifier, whatever the
    responses are; and the second run leaves the Match documents
    exactly as the first run left them provided every finished entry
    among the first ten of the response to each of the three matches
    tasks has the teams and the full-time score its document is built
    from. *)
Theorem second_run_adds_standings_only
        (responses : string -> string + value) (fresh_id : nat -> string)
        (init_fails : option string) :
  let run := handler (steady_api responses) reliable_store fresh_id init_fails in
  let once := snd (run empty_store) in
  let twice := snd (run once) in
  competitions twice = competitions once
  /\ NoDup (map (field "code") (competitions once))
  /\ NoDup (map (field "code") (competitions twice))
  /\ NoDup (map (field "match_id") (matches once))
  /\ NoDup (map (field "match_id") (matches twice))
  /\ map doc_body (standings twice)
     = map doc_body (standings once) ++ map doc_body (standings once)
  /\ length (standings twice) = (2 * length (standings once))%nat
  /\ (finished_matches_insertable responses tasks -> matches twice = matches once).
Proof.
  intros run once twice.
  assert (Hunique : unique_keys once).
  { apply (handler_with_unique (steady_api responses) reliable_store fresh_id
             init_fails maxRequests tasks empty_store).
    split; constructor. }
  assert (Hunique' : unique_keys twice).
  { exact (handler_with_unique (steady_api responses) reliable_store fresh_id
             init_fails maxRequests tasks once Hunique). }
  destruct Hunique as [Hcodes Hids]. destruct Hunique' as [Hcodes' Hids'].
  assert (Hrest : competitions twice = competitions once
                  /\ map doc_body (standings twice)
                     = map doc_body (standings once) ++ map doc_body (standings once)
                  /\ length (standings twice) = (2 * length (standings once))%nat
                  /\ (finished_matches_insertable responses tasks ->
                      matches twice = matches once));
    [clear Hcodes Hcodes' Hids Hids' | tauto].
  destruct init_fails as [msg|].
  - assert (Honce : once = write_log (LogUnexpected msg) (write_log LogInvoked empty_store)).
    { subst once run. unfold handler.
      now rewrite (handler_with_not_started (steady_api responses) reliable_store
                     fresh_id (Some msg) maxRequests tasks empty_store msg eq_refl). }
    assert (Htwice : twice = write_log (LogUnexpected msg) (write_log LogInvoked once)).
    { subst twice run. unfold handler.
      now rewrite (handler_with_not_started (steady_api responses) reliable_store
                     fresh_id (Some msg) maxRequests tasks once msg eq_refl). }
    clearbody twice once. subst twice once. simpl.
    repeat split.
  - set (loop := fun s => snd (run_tasks (steady_api responses) reliable_store fresh_id
                                         maxRequests tasks (loop_start tasks s))).
    assert (Hrun : forall s, snd (run s) = loop s).
    { intros s. subst run loop. unfold handler.
      now rewrite (handler_with_started (steady_api responses) reliable_store
                     fresh_id None maxRequests tasks s eq_refl). }
    assert (Honce : once = loop empty_store) by (subst once; apply Hrun).
    assert (Htwice : twice = loop once) by (subst twice; apply Hrun).
    clearbody twice once.
    assert (Hbodies : forall s,
               map doc_body (standings (loop s))
               = map doc_body (standings s)
                 ++ run_standings responses maxRequests tasks 0).
    { intros s. subst loop. cbv beta.
      now rewrite (run_tasks_standings responses fresh_id maxRequests tasks
                     (loop_start tasks s)). }
    assert (Hdouble : map doc_body (standings twice)
                      = map doc_body (standings once) ++ map doc_body (standings once)).
    { rewrite Htwice, Hbodies. f_equal. rewrite Honce, Hbodies. reflexivity. }
    split; [ | split; [exact Hdouble | split]].
    + rewrite Htwice. subst loop. cbv beta.
      apply (run_tasks_again_competitions responses fresh_id maxRequests tasks
               (loop_start tasks empty_store) (loop_start tasks once) eq_refl).
      rewrite Honce. apply incl_refl.
    + apply (f_equal (@length body)) in Hdouble.
      rewrite length_app, !length_map in Hdouble. lia.
    + intros Hins. rewrite Htwice. subst loop. cbv beta.
      apply (run_tasks_again_matches responses fresh_id maxRequests tasks
               (loop_start tasks empty_store) (loop_start tasks once) Hins eq_refl).
      rewrite Honce. apply incl_refl.
Qed.

Lemma second_run_adds_standings_only_witness :
  finished_matches_insertable premier_league_only tasks
  /\ matches (snd (handler (steady_api premier_league_only) reliable_store numbered_id None
                           (snd (handler (steady_api premier_league_only) reliable_store
                                         numbered_id None empty_store))))
     = matches (snd (handler (steady_api premier_league_only) reliable_store
                             numbered_id None empty_store)).
Proof.
  assert (Hins : finished_matches_insertable premier_league_only tasks).
  { intros t data ms items Hin Hkind Hresp Hms Hitems.
    simpl in Hin.
    repeat (destruct Hin as [<-|Hin];
            [first [discriminate Hkind | discriminate Hresp | idtac] | ]);
      try destruct Hin.
    vm_compute in Hresp. injection Hresp as <-.
    vm_compute in Hms. injection Hms as <-.
    vm_compute in Hitems. injection Hitems as <-.
    repeat constructor; intros Hfin; try discriminate Hfin;
      intros documentId code; eexists; reflexivity. }
  split; [exact Hins | ].
  exact (proj2 (proj2 (proj2 (proj2 (proj2 (proj2 (proj2
    (second_run_adds_standings_only premier_league_only numbered_id None))))))) Hins).
Defined.

(** * Further properties of the handler *)

(** ** The string primitives *)

Lemma split_not_nil (sep : ascii) (s : string) : split sep s <> [].
Proof.
  destruct s as [|c s]; simpl; [discriminate | ].
  destruct (Ascii.eqb c sep); [discriminate | ].
  destruct (split sep s); discriminate.
Qed.

Lemma prefix_inv (p s : string) :
  String.prefix p s = true -> exists t, s = (p ++ t)%string.
Proof.
  revert s. induction p as [|c p IH]; intros s H.
  - exists s. reflexivity.
  - destruct s as [|d s]; simpl in H; [discriminate H | ].
    destruct (ascii_dec c d) as [->|]; [ | discriminate H].
    destruct (IH s H) as [t ->]. exists t. reflexivity.
Qed.

Lemma substring_cut (n : nat) (s : string) :
  (n <= String.length s)%nat ->
  s = (substring 0 n s ++ substring n (String.length s - n) s)%string.
Proof.
  revert s. induction n as [|n IH]; intros s Hn.
  - simpl. rewrite Nat.sub_0_r.
    destruct s; simpl; [reflexivity | now rewrite substring_whole].
  - destruct s as [|c s]; simpl in *; [lia | ].
    f_equal. apply IH. lia.
Qed.

(** The three tests on endpoints are the ones of JavaScript: a string
    starts with [p], ends with [p], includes [p] exactly when it is [p]
    followed by something, something followed by [p], or [p] between
    two strings. *)
Theorem endpoint_tests_characterised (s p : string) :
  (startsWith s p = true <-> exists t, s = (p ++ t)%string)
  /\ (endsWith s p = true <-> exists t, s = (t ++ p)%string)
  /\ (includes s p = true <-> exists a b, s = (a ++ p ++ b)%string).
Proof.
  split; [ | split].
  - split.
    + apply prefix_inv.
    + intros [t ->]. apply prefix_append.
  - split.
    + unfold endsWith. intros H. apply andb_prop in H. destruct H as [Hle Heq].
      apply Nat.leb_le in Hle. apply String.eqb_eq in Heq.
      exists (substring 0 (String.length s - String.length p) s).
      pose proof (substring_cut (String.length s - String.length p) s
                    ltac:(lia)) as Hcut.
      replace (String.length s - (String.length s - String.length p))%nat
        with (String.length p) in Hcut by lia.
      now rewrite Heq in Hcut.
    + intros [t ->]. apply endsWith_append.
  - split.
    + induction s as [|c s IH]; simpl; intros H.
      * rewrite orb_false_r in H. destruct (prefix_inv p "" H) as [t Ht].
        exists ""%string, t. exact Ht.
      * apply orb_prop in H. destruct H as [H|H].
        -- destruct (prefix_inv p (String c s) H) as [t Ht].
           exists "", t. exact Ht.
        -- destruct (IH H) as (a & b & ->). exists (String c a), b. reflexivity.
    + intros (a & b & ->). apply includes_append.
Qed.

Lemma concat_cons (sep x : string) (xs : list string) :
  xs <> [] ->
  String.concat sep (x :: xs) = (x ++ sep ++ String.concat sep xs)%string.
Proof. destruct xs; [intros H; now elim H | reflexivity]. Qed.

(** Cutting a string at a separator and joining the pieces with it
    gives the string back ([s.split(c).join(c) === s]); there is always
    at least one piece, and no piece contains the separator. *)
Theorem split_then_join (sep : ascii) (s : string) :
  String.concat (String sep "") (split sep s) = s
  /\ split sep s <> []
  /\ Forall (fun seg => includes seg (String sep "") = false) (split sep s).
Proof.
  split; [ | split; [apply split_not_nil | ]].
  - induction s as [|c s IH]; [reflexivity | ].
    simpl. destruct (Ascii.eqb_spec c sep) as [->|ne].
    + rewrite concat_cons by apply split_not_nil. simpl. now rewrite IH.
    + pose proof (split_not_nil sep s) as Hne.
      destruct (split sep s) as [|seg segs]; [now elim Hne | ].
      destruct segs as [|seg' segs].
      * simpl in *. now rewrite IH.
      * rewrite (concat_cons _ (String c seg)) by discriminate.
        rewrite (concat_cons _ seg) in IH by discriminate.
        cbn [append] in *. now rewrite IH.
  - induction s as [|c s IH]; [repeat constructor | ].
    simpl. destruct (Ascii.eqb_spec c sep) as [->|ne].
    + constructor; [reflexivity | exact IH].
    + pose proof (split_not_nil sep s) as Hne.
      destruct (split sep s) as [|seg segs]; [now elim Hne | ].
      inversion IH as [|? ? Hseg Hsegs]; subst.
      constructor; [ | exact Hsegs].
      simpl. destruct (ascii_dec sep c) as [->|_]; [now elim ne | ].
      simpl. exact Hseg.
Qed.

(** ** The task list and the budget at their edges *)

Lemma run_tasks_endpoints
      (api : nat -> string -> string + value)
      (store_fails : nat -> option string) (fresh_id : nat -> string)
      (max : Z) (ts ts' : list task) (s : state) :
  map endpoint ts = map endpoint ts' ->
  run_tasks api store_fails fresh_id max ts s
  = run_tasks api store_fails fresh_id max ts' s.
Proof.
  revert ts' s. induction ts as [|t rest IH]; intros [|t' rest'] s H;
    try discriminate H; [reflexivity | ].
  injection H as Ht Hrest. rewrite !run_tasks_unfold, Ht.
  destruct (requestsMade s >=? max)%Z; [reflexivity | ].
  apply IH. exact Hrest.
Qed.

(** The [priority] of a task is never read: whatever priorities the
    tasks are given, the handler answers the same and leaves the same
    state. *)
Theorem priority_is_never_read
        (api : nat -> string -> string + value)
        (store_fails : nat -> option string) (fresh_id : nat -> string)
        (init_fails : option string) (max : Z) (ts : list task)
        (reprioritise : task -> Z) (s : state) :
  handler_with api store_fails fresh_id init_fails max
               (map (fun t => mkTask (endpoint t) (reprioritise t)) ts) s
  = handler_with api store_fails fresh_id init_fails max ts s.
Proof.
  set (ts' := map (fun t => mkTask (endpoint t) (reprioritise t)) ts).
  assert (Hsame : map endpoint ts' = map endpoint ts).
  { subst ts'. rewrite map_map. apply map_ext. reflexivity. }
  destruct init_fails as [msg|].
  - now rewrite !(handler_with_not_started api store_fails fresh_id (Some msg)
                    max _ s msg eq_refl).
  - rewrite !(handler_with_started api store_fails fresh_id None max _ s eq_refl).
    unfold loop_start. rewrite Hsame.
    now rewrite (run_tasks_endpoints api store_fails fresh_id max ts' ts _ Hsame).
Qed.

(** When the client construction throws, the outer [catch] answers with
    the error shape and the message; no upstream call is made, no store
    operation issued, no identifier drawn, and the only log entries are
    the invocation and the unexpected error. *)
Theorem client_failure_stops_everything
        (api : nat -> string -> string + value)
        (store_fails : nat -> option string) (fresh_id : nat -> string)
        (msg : string) (max : Z) (ts : list task) (s : state) :
  fst (handler_with api store_fails fresh_id (Some msg) max ts s)
  = Ok (Failure msg [])
  /\ snd (handler_with api store_fails fresh_id (Some msg) max ts s)
     = mkState (competitions s) (standings s) (matches s) (next_id s)
               (store_ops s) (http_calls s)
               (sink s ++ [LogInvoked; LogUnexpected msg]) (requestsMade s).
Proof.
  rewrite (handler_with_not_started api store_fails fresh_id (Some msg)
             max ts s msg eq_refl).
  split; [reflexivity | ].
  unfold write_log. simpl. now rewrite <- app_assoc.
Qed.

(** With no task the handler answers success with no request made; with
    a budget of zero or less it stops at the first task, logs that the
    maximum is reached and answers the same.  In both cases no upstream
    call is made and the store is not touched. *)
Theorem nothing_to_fetch
        (api : nat -> string -> string + value)
        (store_fails : nat -> option string) (fresh_id : nat -> string)
        (max : Z) (s : state) :
  handler_with api store_fails fresh_id None max [] s
  = (Ok (Success [] 0),
     mkState (competitions s) (standings s) (matches s) (next_id s)
             (store_ops s) (http_calls s)
             (sink s ++ [LogInvoked; LogClientInitialized; LogProcessingTasks []])
             0)
  /\ (forall t rest,
        (max <= 0)%Z ->
        handler_with api store_fails fresh_id None max (t :: rest) s
        = (Ok (Success [] 0),
           mkState (competitions s) (standings s) (matches s) (next_id s)
                   (store_ops s) (http_calls s)
                   (sink s ++ [LogInvoked; LogClientInitialized;
                               LogProcessingTasks (map endpoint (t :: rest));
                               LogMaxRequests])
                   0)).
Proof.
  split.
  - rewrite (handler_with_started api store_fails fresh_id None max [] s eq_refl).
    unfold loop_start, write_log, set_requestsMade. simpl.
    now rewrite <- !app_assoc.
  - intros t rest Hmax.
    rewrite (handler_with_started api store_fails fresh_id None max (t :: rest) s eq_refl).
    rewrite run_tasks_unfold.
    change (requestsMade (loop_start (t :: rest) s)) with 0%Z.
    destruct (Z.geb_spec 0 max) as [_|Hlt]; [ | lia].
    unfold loop_start, write_log, set_requestsMade. simpl.
    now rewrite <- !app_assoc.
Qed.

Lemma nothing_to_fetch_witness :
  (0 <= 0)%Z
  /\ fst (handler_with unreachable_api reliable_store numbered_id None 0
                       tasks empty_store)
     = Ok (Success [] 0).
Proof.
  split; [lia | ].
  exact (f_equal fst
           (proj2 (nothing_to_fetch unreachable_api reliable_store numbered_id
                     0 empty_store)
                  (mkTask "/competitions/PL" 1)
                  (List.tl tasks) (Z.le_refl 0))).
Defined.

(** ** One task at its edges *)

(** A task whose upstream call is rejected stores nothing and issues no
    store operation: the call is recorded as not completed, the counter
    stays, and the message of the rejection is logged as the failure of
    the task. *)
Theorem rejected_call_writes_nothing
        (api : nat -> string -> string + value)
        (store_fails : nat -> option string) (fresh_id : nat -> string)
        (e msg : string) (s : state)
        (Hapi : api (length (http_calls s)) e = inl msg) :
  run_task api store_fails fresh_id e s
  = (Ok tt,
     mkState (competitions s) (standings s) (matches s) (next_id s)
             (store_ops s) (http_calls s ++ [(e, false)])
             (sink s ++ [LogTask e; LogFailedTask e msg]) (requestsMade s)).
Proof.
  rewrite run_task_unfold.
  rewrite (process_task_rejected api store_fails fresh_id e
             (write_log (LogTask e) s) msg Hapi).
  unfold write_log, record_call. simpl. now rewrite <- app_assoc.
Qed.

Lemma rejected_call_writes_nothing_witness :
  unreachable_api (length (http_calls empty_store)) "/competitions/PL"
  = inl "connect ECONNREFUSED"
  /\ store_ops (snd (run_task unreachable_api reliable_store numbered_id
                              "/competitions/PL" empty_store)) = [].
Proof.
  split; [reflexivity | ].
  now rewrite (rejected_call_writes_nothing unreachable_api reliable_store
                 numbered_id "/competitions/PL" "connect ECONNREFUSED"
                 empty_store eq_refl).
Defined.

(** An endpoint is left unclassified exactly when it neither starts with
    [/competitions/] nor contains [/matches].  A task on such an
    endpoint is fetched, counted and logged like any other, and that is
    all: nothing is stored, no store operation issued, no error
    logged. *)
Theorem unclassified_endpoint_is_fetched_only
        (api : nat -> string -> string + value)
        (store_fails : nat -> option string) (fresh_id : nat -> string)
        (e : string) (data : value) (s : state)
        (Hkind : classify e = None)
        (Hapi : api (length (http_calls s)) e = inr data)
        (Hdata : data <> VUndef) :
  (forall e',
      classify e' = None
      <-> startsWith e' "/competitions/" = false /\ includes e' "/matches" = false)
  /\ run_task api store_fails fresh_id e s
     = (Ok tt,
        mkState (competitions s) (standings s) (matches s) (next_id s)
                (store_ops s) (http_calls s ++ [(e, true)])
                (sink s ++ [LogTask e; LogResponse e data])
                (requestsMade s + 1)).
Proof.
  split.
  - intros e'. unfold classify.
    destruct (startsWith e' "/competitions/"), (endsWith e' "/standings"),
      (includes e' "/matches"); simpl; split;
      try discriminate; try tauto; intros [H1 H2]; discriminate.
  - rewrite (run_task_fetched api store_fails fresh_id e data s Hapi Hdata).
    rewrite Hkind.
    unfold ret, fetched, write_log, set_requestsMade, record_call. simpl.
    now rewrite <- app_assoc.
Qed.

Lemma unclassified_endpoint_is_fetched_only_witness :
  classify "/teams/57" = None
  /\ (fun (_ : nat) (_ : string) => inr VNull : string + value)
       (length (http_calls empty_store)) "/teams/57" = inr VNull
  /\ VNull <> VUndef
  /\ requestsMade (snd (run_task (fun _ _ => inr VNull) reliable_store numbered_id
                                 "/teams/57" empty_store)) = 1%Z.
Proof.
  split; [reflexivity | ]. split; [reflexivity | ]. split; [discriminate | ].
  now rewrite (proj2 (unclassified_endpoint_is_fetched_only
                        (fun _ _ => inr VNull) reliable_store numbered_id
                        "/teams/57" VNull empty_store eq_refl eq_refl
                        ltac:(discriminate))).
Defined.

(** The natural keys stay unique: if no two Competition documents share
    a code and no two Match documents a match identifier before an
    invocation, the same holds after it, whatever the upstream API and
    the store do. *)
Theorem natural_keys_stay_unique
        (api : nat -> string -> string + value)
        (store_fails : nat -> option string) (fresh_id : nat -> string)
        (init_fails : option string) (max : Z) (ts : list task) (s : state)
        (Hcodes : NoDup (map (field "code") (competitions s)))
        (Hids : NoDup (map (field "match_id") (matches s))) :
  NoDup (map (field "code")
             (competitions (snd (handler_with api store_fails fresh_id init_fails
                                              max ts s))))
  /\ NoDup (map (field "match_id")
                (matches (snd (handler_with api store_fails fresh_id init_fails
                                            max ts s)))).
Proof.
  exact (handler_with_unique api store_fails fresh_id init_fails max ts s
           (conj Hcodes Hids)).
Qed.

Lemma natural_keys_stay_unique_witness :
  NoDup (map (field "code") (competitions empty_store))
  /\ NoDup (map (field "match_id") (matches empty_store))
  /\ NoDup (map (field "match_id")
                (matches (snd (handler_with (steady_api overlapping_responses)
                                            reliable_store numbered_id None
                                            maxRequests tasks empty_store)))).
Proof.
  split; [constructor | ]. split; [constructor | ].
  exact (proj2 (natural_keys_stay_unique
                  (steady_api overlapping_responses) reliable_store numbered_id
                  None maxRequests tasks empty_store
                  (NoDup_nil _) (NoDup_nil _))).
Defined.

Section CompetitionBranch.

Variable store_fails : nat -> option string.
Variable fresh_id : nat -> string.

Lemma store_competition_broken (code data : value) (err : exn) (s : state) :
  store_fails (length (store_ops s)) = None ->
  having "code" code (competitions s) = [] ->
  competition_body code data = Throw err ->
  store_competition store_fails fresh_id code data s
  = (Throw err, draw_id (record_op (OpList Competitions "code" code) s)).
Proof.
  intros Hl He Hb. unfold having in He.
  unfold store_competition, bind, listDocuments, ID_unique, lift, documents.
  rewrite Hl, He. simpl. rewrite Hb. reflexivity.
Qed.

Lemma store_competition_refused (code data : value) (b : body) (msg : string)
      (s : state) :
  store_fails (length (store_ops s)) = None ->
  store_fails (S (length (store_ops s))) = Some msg ->
  having "code" code (competitions s) = [] ->
  competition_body code data = Ok b ->
  store_competition store_fails fresh_id code data s
  = (Throw (StoreError msg),
     record_op (OpCreate Competitions
                         (mkDocument (fresh_id (next_id s)) b (Some [ReadAny])))
       (draw_id (record_op (OpList Competitions "code" code) s))).
Proof.
  intros Hl Hc He Hb. unfold having in He.
  unfold store_competition, bind, listDocuments, ID_unique, lift,
    createDocument, documents.
  rewrite Hl, He. simpl. rewrite Hb. rewrite length_app, Nat.add_1_r, Hc.
  reflexivity.
Qed.

Lemma store_competition_rejected_check (code data : value) (msg : string) (s : state) :
  store_fails (length (store_ops s)) = Some msg ->
  store_competition store_fails fresh_id code data s
  = (Throw (StoreError msg), record_op (OpList Competitions "code" code) s).
Proof.
  intros Hl. unfold store_competition, bind, listDocuments. now rewrite Hl.
Qed.

End CompetitionBranch.

(** A Competition task, for any endpoint of that kind and any response.
    The payload is read only when no document has the code: when one
    has, the task checks, logs the skip and ends without error whatever
    the payload is.  When none has and the payload lacks [name] or
    [area], the task fails after the check and after an identifier was
    drawn, and writes nothing.  When the store rejects the creation,
    the task fails with the store's message and writes nothing.
    Otherwise exactly one public-read document is appended, with the
    code of the endpoint. *)
Theorem competition_task_outcomes
        (api : nat -> string -> string + value)
        (store_fails : nat -> option string) (fresh_id : nat -> string)
        (e : string) (data : value) (s : state)
        (Hkind : classify e = Some Competition)
        (Hapi : api (length (http_calls s)) e = inr data)
        (Hdata : data <> VUndef)
        (Hlist : store_fails (length (store_ops s)) = None) :
  ((exists d, In d (competitions s) /\ field "code" d = compCode e) ->
   run_task api store_fails fresh_id e s
   = (Ok tt,
      write_log (LogSkippedCompetition (compCode e))
        (record_op (OpList Competitions "code" (compCode e)) (fetched e data s))))
  /\ ((forall d, In d (competitions s) -> field "code" d <> compCode e) ->
      (forall err,
          competition_body (compCode e) data = Throw err ->
          run_task api store_fails fresh_id e s
          = (Ok tt,
             write_log (LogFailedTask e (message err))
               (draw_id (record_op (OpList Competitions "code" (compCode e))
                                   (fetched e data s)))))
      /\ (forall b msg,
             competition_body (compCode e) data = Ok b ->
             store_fails (S (length (store_ops s))) = Some msg ->
             run_task api store_fails fresh_id e s
             = (Ok tt,
                write_log (LogFailedTask e msg)
                  (record_op (OpCreate Competitions
                                (mkDocument (fresh_id (next_id s)) b (Some [ReadAny])))
                     (draw_id (record_op (OpList Competitions "code" (compCode e))
                                         (fetched e data s))))))
      /\ (forall b,
             competition_body (compCode e) data = Ok b ->
             store_fails (S (length (store_ops s))) = None ->
             competitions (snd (run_task api store_fails fresh_id e s))
             = competitions s
               ++ [mkDocument (fresh_id (next_id s)) b (Some [ReadAny])]
             /\ lookup "code" b = compCode e)).
Proof.
  pose proof (run_task_fetched api store_fails fresh_id e data s Hapi Hdata) as Hrun.
  rewrite Hkind in Hrun.
  split; [ | intros Hno; apply having_nil in Hno; split; [ | split]].
  - intros Hex. apply having_some in Hex.
    now rewrite (store_competition_present store_fails fresh_id (compCode e) data
                   (fetched e data s) Hlist Hex) in Hrun.
  - intros err Hb.
    now rewrite (store_competition_broken store_fails fresh_id (compCode e) data err
                   (fetched e data s) Hlist Hno Hb) in Hrun.
  - intros b msg Hb Hcreate.
    now rewrite (store_competition_refused store_fails fresh_id (compCode e) data b
                   msg (fetched e data s) Hlist Hcreate Hno Hb) in Hrun.
  - intros b Hb Hcreate.
    rewrite (store_competition_absent store_fails fresh_id (compCode e) data b
               (fetched e data s) Hlist Hcreate Hno Hb) in Hrun.
    rewrite Hrun. split; [reflexivity | ].
    unfold competition_body, rbind in Hb.
    repeat match type of Hb with
           | context [match ?x with _ => _ end] => destruct x; try discriminate Hb
           end.
    injection Hb as <-. reflexivity.
Qed.

Lemma competition_task_outcomes_witness :
  classify "/competitions/PL" = Some Competition
  /\ steady_api premier_league_only (length (http_calls empty_store)) "/competitions/PL"
     = inr premier_league
  /\ premier_league <> VUndef
  /\ reliable_store (length (store_ops empty_store)) = None
  /\ length (competitions (snd (run_task (steady_api premier_league_only)
                                         reliable_store numbered_id
                                         "/competitions/PL" empty_store))) = 1%nat.
Proof.
  split; [reflexivity | ]. split; [reflexivity | ]. split; [discriminate | ].
  split; [reflexivity | ].
  destruct (competition_task_outcomes
              (steady_api premier_league_only) reliable_store numbered_id
              "/competitions/PL" premier_league empty_store
              eq_refl eq_refl ltac:(discriminate) eq_refl) as [_ Habsent].
  destruct (Habsent (fun d (H : In d []) => match H with end)) as (_ & _ & Hcreated).
  destruct (Hcreated _ eq_refl eq_refl) as [Hc _].
  now rewrite Hc.
Defined.

(** ** Relations kept task by task *)

(** A relation kept by every task of the list, and by the steps around
    the loop, is kept by the handler. *)
Section EndpointPreserves.

Variable api : nat -> string -> string + value.
Variable store_fails : nat -> option string.
Variable fresh_id : nat -> string.
Variable init_fails : option string.

Variable R : state -> state -> Prop.
Hypothesis R_refl : forall s, R s s.
Hypothesis R_trans : forall a b c, R a b -> R b c -> R a c.

Hypothesis R_log : forall e, preserves R (log e).
Hypothesis R_get : forall e, preserves R (axios_get api e).
Hypothesis R_incr : preserves R incr_requestsMade.
Hypothesis R_reset : preserves R reset_requestsMade.

Lemma run_task_keeps_for (e : string) :
  (forall data, preserves R (store_standings store_fails fresh_id (compCode e) data)) ->
  (forall data, preserves R (store_competition store_fails fresh_id (compCode e) data)) ->
  (forall data, preserves R (store_matches store_fails fresh_id (compCode e) data)) ->
  preserves R (run_task api store_fails fresh_id e).
Proof.
  intros Hs Hc Hm. unfold run_task.
  apply (preserves_bind R R_trans); [apply R_log | intros _].
  apply (preserves_try_catch R R_trans); [ | intros err; apply R_log].
  unfold process_task.
  apply (preserves_bind R R_trans); [apply R_get | intros data].
  apply (preserves_bind R R_trans); [apply R_incr | intros _].
  apply (preserves_bind R R_trans).
  - unfold log_response.
    destruct data; first [apply R_log | apply (preserves_lift R R_refl)].
  - intros _. destruct (classify e) as [[| |]|].
    + apply Hs.
    + apply Hc.
    + apply Hm.
    + apply (preserves_ret R R_refl).
Qed.

Lemma run_tasks_keeps_for (max : Z) (ts : list task) :
  (forall t, In t ts -> preserves R (run_task api store_fails fresh_id (endpoint t))) ->
  preserves R (run_tasks api store_fails fresh_id max ts).
Proof.
  induction ts as [|t rest IH]; intros Hts; simpl.
  - apply (preserves_ret R R_refl).
  - intros s. destruct (requestsMade s >=? max)%Z.
    + apply R_log.
    + revert s. apply (preserves_bind R R_trans).
      * apply Hts. now left.
      * intros _. apply IH. intros t' Ht'. apply Hts. now right.
Qed.

Lemma handler_with_keeps_for (max : Z) (ts : list task) :
  (forall t, In t ts -> preserves R (run_task api store_fails fresh_id (endpoint t))) ->
  preserves R (handler_with api store_fails fresh_id init_fails max ts).
Proof.
  intros Hts. unfold handler_with.
  apply (preserves_bind R R_trans); [apply R_log | intros _].
  apply (preserves_try_catch R R_trans).
  - apply (preserves_bind R R_trans); [ | intros _].
    { unfold init_client.
      destruct init_fails; [apply (preserves_lift R R_refl) | apply (preserves_ret R R_refl)]. }
    apply (preserves_bind R R_trans); [apply R_log | intros _].
    apply (preserves_bind R R_trans); [apply R_log | intros _].
    apply (preserves_bind R R_trans); [apply R_reset | intros _].
    apply (preserves_bind R R_trans); [apply run_tasks_keeps_for; exact Hts | intros _].
    intros s. apply R_refl.
  - intros err.
    apply (preserves_bind R R_trans); [apply R_log | intros _].
    apply (preserves_ret R R_refl).
Qed.

End EndpointPreserves.

(** ** What the documents written look like *)

Lemma written_same (P : value -> Prop) (s s' : state) :
  competitions s' = competitions s ->
  standings s' = standings s ->
  matches s' = matches s ->
  written P s s'.
Proof.
  intros Hc Hs Hm.
  repeat split; exists []; rewrite app_nil_r; (split; [assumption | constructor]).
Qed.

Lemma written_refl (P : value -> Prop) (s : state) : written P s s.
Proof. apply written_same; reflexivity. Qed.

Lemma written_trans (P : value -> Prop) (a b c : state) :
  written P a b -> written P b c -> written P a c.
Proof.
  intros ((nc & Hc & Fc) & (ns & Hs & Fs) & (nm & Hm & Fm))
         ((nc' & Hc' & Fc') & (ns' & Hs' & Fs') & (nm' & Hm' & Fm')).
  repeat split.
  - exists (nc ++ nc'). rewrite Hc', Hc, <- app_assoc.
    split; [reflexivity | apply Forall_app; split; assumption].
  - exists (ns ++ ns'). rewrite Hs', Hs, <- app_assoc.
    split; [reflexivity | apply Forall_app; split; assumption].
  - exists (nm ++ nm'). rewrite Hm', Hm, <- app_assoc.
    split; [reflexivity | apply Forall_app; split; assumption].
Qed.

Lemma written_weaken (P Q : value -> Prop) (s s' : state) :
  (forall code, P code -> Q code) -> written P s s' -> written Q s s'.
Proof.
  intros HPQ ((nc & Hc & Fc) & (ns & Hs & Fs) & (nm & Hm & Fm)).
  repeat split; eexists; (split; [eassumption | ]);
    (eapply Forall_impl; [ | eassumption]);
    intros d (code & Hcode & Hd); exists code; auto.
Qed.

Lemma standing_body_shape (code row : value) (b : body) :
  standing_body code row = Ok b ->
  map fst b = standing_attributes /\ lookup "competition_code" b = code.
Proof.
  unfold standing_body, rbind. intros H.
  repeat match type of H with
         | context [match ?x with _ => _ end] => destruct x; try discriminate H
         end.
  injection H as <-. split; reflexivity.
Qed.

Lemma competition_body_shape (code data : value) (b : body) :
  competition_body code data = Ok b ->
  map fst b = competition_attributes /\ lookup "code" b = code.
Proof.
  unfold competition_body, rbind. intros H.
  repeat match type of H with
         | context [match ?x with _ => _ end] => destruct x; try discriminate H
         end.
  injection H as <-. split; reflexivity.
Qed.

Lemma or_null_defined (v : value) : or_null v <> VUndef.
Proof. destruct v; discriminate. Qed.

Lemma match_body_shape (documentId : string) (code m st : value) (b : body) :
  get "status" m = Ok st ->
  match_body documentId code m = Ok b ->
  map fst b = match_attributes
  /\ lookup "competition_code" b = code
  /\ lookup "$id" b = VStr documentId
  /\ lookup "status" b = st
  /\ lookup "score_home" b <> VUndef
  /\ lookup "score_away" b <> VUndef.
Proof.
  unfold match_body, rbind. intros Hst H. rewrite Hst in H.
  repeat match type of H with
         | context [match ?x with _ => _ end] => destruct x; try discriminate H
         end.
  injection H as <-. simpl.
  repeat split; apply or_null_defined.
Qed.

Section Writes.

Variable api : nat -> string -> string + value.
Variable store_fails : nat -> option string.
Variable fresh_id : nat -> string.
Variable init_fails : option string.

Variable P : value -> Prop.

Ltac unchanged := apply written_same; reflexivity.

Lemma store_standing_writes (code row : value) :
  P code -> preserves (written P) (store_standing store_fails fresh_id code row).
Proof.
  intros Hcode s.
  unfold store_standing, bind, ID_unique, lift, createDocument, log.
  destruct (standing_body code row) as [b|err] eqn:Hb; [ | unchanged].
  destruct (store_fails _); [unchanged | ].
  destruct (standing_body_shape code row b Hb) as [Hkeys Hc].
  repeat split; simpl.
  - exists []. rewrite app_nil_r. split; [reflexivity | constructor].
  - eexists. split; [reflexivity | ].
    repeat constructor. exists code. repeat split; assumption.
  - exists []. rewrite app_nil_r. split; [reflexivity | constructor].
Qed.

Lemma store_standings_writes (code data : value) :
  P code -> preserves (written P) (store_standings store_fails fresh_id code data).
Proof.
  intros Hcode. unfold store_standings.
  apply (preserves_bind _ (written_trans P));
    [apply (preserves_lift _ (written_refl P)) | intros rows].
  apply (preserves_bind _ (written_trans P));
    [apply (preserves_lift _ (written_refl P)) | intros items].
  apply (preserves_bind _ (written_trans P)); [intros s; unchanged | intros _].
  apply (preserves_for_each _ (written_refl P) (written_trans P)).
  intros row. apply store_standing_writes. exact Hcode.
Qed.

Lemma store_competition_writes (code data : value) :
  P code -> preserves (written P) (store_competition store_fails fresh_id code data).
Proof.
  intros Hcode s.
  unfold store_competition, bind, listDocuments, ID_unique, lift,
    createDocument, log, documents.
  destruct (store_fails (length (store_ops s))); [unchanged | ].
  destruct (filter _ (competitions s)); [ | unchanged].
  simpl.
  destruct (competition_body code data) as [b|err] eqn:Hb; [ | unchanged].
  destruct (store_fails _); [unchanged | ].
  destruct (competition_body_shape code data b Hb) as [Hkeys Hc].
  repeat split; simpl.
  - eexists. split; [reflexivity | ].
    repeat constructor. exists code. repeat split; assumption.
  - exists []. rewrite app_nil_r. split; [reflexivity | constructor].
  - exists []. rewrite app_nil_r. split; [reflexivity | constructor].
Qed.

Lemma store_match_writes (code m : value) :
  P code -> preserves (written P) (store_match store_fails fresh_id code m).
Proof.
  intros Hcode s. unfold store_match. unfold bind at 1. unfold lift at 1.
  destruct (get "status" m) as [st|err] eqn:Hst; [ | apply written_refl].
  destruct (value_eqb st (VStr "FINISHED")) eqn:Hfin; [ | apply written_refl].
  apply value_eqb_eq in Hfin. subst st.
  unfold bind at 1. unfold lift at 1.
  destruct (get "id" m) as [id|err]; [ | apply written_refl].
  unfold bind, listDocuments, ID_unique, lift, createDocument, log, documents.
  destruct (store_fails (length (store_ops s))); [unchanged | ].
  destruct (filter _ (matches s)); [ | unchanged].
  simpl.
  destruct (match_body (fresh_id (next_id s)) code m) as [b|err] eqn:Hb;
    [ | unchanged].
  destruct (store_fails _); [unchanged | ].
  destruct (match_body_shape _ _ _ _ _ Hst Hb)
    as (Hkeys & Hc & Hid & Hstatus & Hhome & Haway).
  repeat split; simpl.
  - exists []. rewrite app_nil_r. split; [reflexivity | constructor].
  - exists []. rewrite app_nil_r. split; [reflexivity | constructor].
  - eexists. split; [reflexivity | ].
    repeat constructor. exists code. repeat split; assumption.
Qed.

Lemma store_matches_writes (code data : value) :
  P code -> preserves (written P) (store_matches store_fails fresh_id code data).
Proof.
  intros Hcode. unfold store_matches.
  apply (preserves_bind _ (written_trans P));
    [apply (preserves_lift _ (written_refl P)) | intros ms].
  apply (preserves_bind _ (written_trans P));
    [apply (preserves_lift _ (written_refl P)) | intros items].
  apply (preserves_bind _ (written_trans P)); [intros s; unchanged | intros _].
  apply (preserves_for_each _ (written_refl P) (written_trans P)).
  intros m. apply store_match_writes. exact Hcode.
Qed.

Lemma run_task_writes (e : string) :
  P (compCode e) -> preserves (written P) (run_task api store_fails fresh_id e).
Proof.
  intros Hcode.
  apply run_task_keeps_for;
    try exact (written_refl P); try exact (written_trans P);
    lazymatch goal with
    | |- forall data, preserves _ (store_standings _ _ _ data) =>
        intros data; apply store_standings_writes; exact Hcode
    | |- forall data, preserves _ (store_competition _ _ _ data) =>
        intros data; apply store_competition_writes; exact Hcode
    | |- forall data, preserves _ (store_matches _ _ _ data) =>
        intros data; apply store_matches_writes; exact Hcode
    | |- _ =>
        unfold preserves; intros; unfold axios_get;
        repeat match goal with
          | |- context [match ?x with _ => _ end] => destruct x
          end;
        unchanged
    end.
Qed.

End Writes.

Lemma handler_with_writes
      (api : nat -> string -> string + value)
      (store_fails : nat -> option string) (fresh_id : nat -> string)
      (init_fails : option string) (max : Z) (ts : list task) :
  preserves (written (fun code => exists t, In t ts /\ code = compCode (endpoint t)))
            (handler_with api store_fails fresh_id init_fails max ts).
Proof.
  apply handler_with_keeps_for;
    try exact (written_refl _); try exact (written_trans _);
    lazymatch goal with
    | |- forall t, In t ts -> _ =>
        intros t Ht; apply run_task_writes; exists t; split; [exact Ht | reflexivity]
    | |- _ =>
        unfold preserves; intros; unfold axios_get;
        repeat match goal with
          | |- context [match ?x with _ => _ end] => destruct x
          end;
        apply written_same; reflexivity
    end.
Qed.

(** Every document an invocation adds was written for one of its tasks:
    it has exactly the attributes of its kind, in the order of the
    object literal, and its competition code ([code] for a Competition)
    is the third segment of the endpoint of a task of the list, never a
    value of the payload.  For the handler as shipped the code is [PL],
    [CL] or [EC]. *)
Theorem documents_carry_the_code_of_a_task
        (api : nat -> string -> string + value)
        (store_fails : nat -> option string) (fresh_id : nat -> string)
        (init_fails : option string) (max : Z) (ts : list task) (s : state) :
  (let s' := snd (handler_with api store_fails fresh_id init_fails max ts s) in
   (exists nc,
       competitions s' = competitions s ++ nc
       /\ Forall (fun d => map fst (doc_body d) = ["code"; "name"; "area_name"]
                           /\ exists t, In t ts
                                        /\ field "code" d = compCode (endpoint t)) nc)
   /\ (exists ns,
          standings s' = standings s ++ ns
          /\ Forall (fun d => map fst (doc_body d)
                              = ["competition_code"; "position"; "team_name";
                                 "points"; "played_games"]
                              /\ exists t, In t ts
                                           /\ field "competition_code" d
                                              = compCode (endpoint t)) ns)
   /\ (exists nm,
          matches s' = matches s ++ nm
          /\ Forall (fun d => map fst (doc_body d)
                              = ["$id"; "match_id"; "competition_code";
                                 "home_team_name"; "away_team_name"; "score_home";
                                 "score_away"; "status"; "utc_date"]
                              /\ exists t, In t ts
                                           /\ field "competition_code" d
                                              = compCode (endpoint t)) nm))
  /\ (forall t, In t tasks ->
                In (compCode (endpoint t)) [VStr "PL"; VStr "CL"; VStr "EC"]).
Proof.
  split.
  - destruct (handler_with_writes api store_fails fresh_id init_fails max ts s)
      as ((nc & Hc & Fc) & (ns & Hs & Fs) & (nm & Hm & Fm)).
    repeat split.
    + exists nc. split; [exact Hc | ].
      eapply Forall_impl; [ | exact Fc].
      intros d (code & (t & Ht & ->) & _ & Hkeys & Hcode). split; [exact Hkeys | ].
      exists t. split; assumption.
    + exists ns. split; [exact Hs | ].
      eapply Forall_impl; [ | exact Fs].
      intros d (code & (t & Ht & ->) & _ & Hkeys & Hcode). split; [exact Hkeys | ].
      exists t. split; assumption.
    + exists nm. split; [exact Hm | ].
      eapply Forall_impl; [ | exact Fm].
      intros d (code & (t & Ht & ->) & _ & Hkeys & Hcode & _). split; [exact Hkeys | ].
      exists t. split; assumption.
  - intros t Ht. simpl in Ht.
    repeat (destruct Ht as [<-|Ht]; [vm_compute; tauto | ]). destruct Ht.
Qed.

(** ** Where the Match documents come from *)

Lemma match_body_built (documentId : string) (code m : value) (b : body) :
  get "status" m = Ok (VStr "FINISHED") ->
  match_body documentId code m = Ok b ->
  built_from m (mkDocument documentId b (Some [ReadAny]))
  /\ lookup "competition_code" b = code.
Proof.
  intros Hst H. unfold match_body in H.
  destruct (get "id" m) as [id|] eqn:Hid; cbn [rbind] in H; [ | discriminate H].
  destruct (get "homeTeam" m) as [home|] eqn:Hh; cbn [rbind] in H; [ | discriminate H].
  destruct (get "name" home) as [hname|] eqn:Hhn; cbn [rbind] in H; [ | discriminate H].
  destruct (get "awayTeam" m) as [away|] eqn:Ha; cbn [rbind] in H; [ | discriminate H].
  destruct (get "name" away) as [aname|] eqn:Han; cbn [rbind] in H; [ | discriminate H].
  destruct (get "score" m) as [score|] eqn:Hsc; cbn [rbind] in H; [ | discriminate H].
  destruct (get "fullTime" score) as [full|] eqn:Hft; cbn [rbind] in H; [ | discriminate H].
  destruct (get "home" full) as [gh|] eqn:Hgh; cbn [rbind] in H; [ | discriminate H].
  destruct (get "away" full) as [ga|] eqn:Hga; cbn [rbind] in H; [ | discriminate H].
  rewrite Hst in H. cbn [rbind] in H.
  destruct (get "utcDate" m) as [utc|] eqn:Hutc; cbn [rbind] in H; [ | discriminate H].
  injection H as <-.
  unfold built_from, field, full_time. cbn [doc_body doc_id doc_perms].
  rewrite Hsc. cbn [rbind]. rewrite Hft. cbn [rbind].
  split; [ | reflexivity].
  split; [exact Hst | ]. split; [reflexivity | ]. split; [exact Hid | ].
  split; [exists home; split; [exact Hh | exact Hhn] | ].
  split; [exists away; split; [exact Ha | exact Han] | ].
  split; [exists gh; split; [exact Hgh | destruct gh; reflexivity] | ].
  split; [exists ga; split; [exact Hga | destruct ga; reflexivity] | ].
  split; [exact Hutc | ]. split; reflexivity.
Qed.

Lemma chars_are_strings (s : string) (m : value) :
  In m (chars s) -> exists c, m = VStr c.
Proof.
  induction s as [|c s IH]; simpl; [intros [] | ].
  intros [<-|Hin]; [eexists; reflexivity | exact (IH Hin)].
Qed.

(** The entries the matches loop visits, when they are finished ones,
    are among the first ten of an array at [data.matches]. *)
Lemma finished_items_of_matches (data msv : value) (items : list value) (m : value) :
  matches_of data = Ok msv ->
  elements msv = Ok items ->
  In m items ->
  get "status" m = Ok (VStr "FINISHED") ->
  exists ms, get "matches" data = Ok (VArr ms) /\ In m (firstn 10 ms).
Proof.
  unfold matches_of. intros Hms Hitems Hin Hst.
  destruct (get "matches" data) as [v|err]; cbn [rbind] in Hms; [ | discriminate Hms].
  destruct v as [ | | b | z | str | ms | fs]; cbn in Hms;
    try discriminate Hms; injection Hms as <-.
  - cbn in Hitems. injection Hitems as <-. destruct Hin.
  - cbn in Hitems. injection Hitems as <-. destruct Hin.
  - exfalso. unfold or_empty in Hitems.
    destruct (truthy (VStr (substring 0 10 str))); cbn in Hitems;
      injection Hitems as <-; [ | destruct Hin].
    destruct (chars_are_strings _ _ Hin) as [c ->]. discriminate Hst.
  - cbn in Hitems. injection Hitems as <-. exists ms. split; [reflexivity | exact Hin].
Qed.

Section Sourced.

Variable api : nat -> string -> string + value.
Variable store_fails : nat -> option string.
Variable fresh_id : nat -> string.
Variable init_fails : option string.

Lemma store_match_built (code m : value) (s : state) :
  exists nm,
    matches (snd (store_match store_fails fresh_id code m s)) = matches s ++ nm
    /\ Forall (fun d => built_from m d /\ field "competition_code" d = code) nm.
Proof.
  assert (Hnone : forall s', matches s' = matches s ->
            exists nm, matches s' = matches s ++ nm
                       /\ Forall (fun d => built_from m d
                                           /\ field "competition_code" d = code) nm).
  { intros s' H. exists []. rewrite app_nil_r. split; [exact H | constructor]. }
  unfold store_match. unfold bind at 1. unfold lift at 1.
  destruct (get "status" m) as [st|err] eqn:Hst; [ | now apply Hnone].
  destruct (value_eqb st (VStr "FINISHED")) eqn:Hfin; [ | now apply Hnone].
  apply value_eqb_eq in Hfin. subst st.
  unfold bind at 1. unfold lift at 1.
  destruct (get "id" m) as [id|err]; [ | now apply Hnone].
  unfold bind, listDocuments, ID_unique, lift, createDocument, log, documents.
  destruct (store_fails (length (store_ops s))); [now apply Hnone | ].
  destruct (filter _ (matches s)); [ | now apply Hnone].
  simpl.
  destruct (match_body (fresh_id (next_id s)) code m) as [b|err] eqn:Hb;
    [ | now apply Hnone].
  destruct (store_fails _); [now apply Hnone | ].
  destruct (match_body_built _ _ _ _ Hst Hb) as [Hbuilt Hcode].
  simpl. eexists. split; [reflexivity | ].
  constructor; [ | constructor]. split; [exact Hbuilt | exact Hcode].
Qed.

Lemma matches_loop_built (code : value) (items : list value) (s : state) :
  exists nm,
    matches (snd (for_each (store_match store_fails fresh_id code) items s))
    = matches s ++ nm
    /\ Forall (fun d => exists m, In m items /\ built_from m d
                                  /\ field "competition_code" d = code) nm.
Proof.
  revert s. induction items as [|m items IH]; intros s.
  - exists []. simpl. rewrite app_nil_r. split; [reflexivity | constructor].
  - simpl for_each. unfold bind at 1.
    destruct (store_match_built code m s) as (nm1 & H1 & F1).
    assert (F1' : Forall (fun d => exists m0, In m0 (m :: items) /\ built_from m0 d
                                              /\ field "competition_code" d = code) nm1).
    { eapply Forall_impl; [ | exact F1]. intros d [Hb Hc]. exists m.
      split; [now left | split; assumption]. }
    destruct (store_match store_fails fresh_id code m s) as [[[]|err] s1];
      simpl in H1.
    + destruct (IH s1) as (nm2 & H2 & F2).
      exists (nm1 ++ nm2). rewrite H2, H1, <- app_assoc. split; [reflexivity | ].
      apply Forall_app. split; [exact F1' | ].
      eapply Forall_impl; [ | exact F2]. intros d (m0 & Hin & Hb & Hc). exists m0.
      split; [now right | split; assumption].
    + exists nm1. split; [exact H1 | exact F1'].
Qed.

Lemma store_matches_built (code data : value) (s : state) :
  exists nm,
    matches (snd (store_matches store_fails fresh_id code data s)) = matches s ++ nm
    /\ Forall (fun d => exists ms m,
                   get "matches" data = Ok (VArr ms)
                   /\ In m (firstn 10 ms)
                   /\ built_from m d
                   /\ field "competition_code" d = code) nm.
Proof.
  assert (Hnone : exists nm,
            matches s = matches s ++ nm
            /\ Forall (fun d => exists ms m,
                           get "matches" data = Ok (VArr ms)
                           /\ In m (firstn 10 ms)
                           /\ built_from m d
                           /\ field "competition_code" d = code) nm).
  { exists []. rewrite app_nil_r. split; [reflexivity | constructor]. }
  unfold store_matches. unfold bind at 1. unfold lift at 1.
  destruct (matches_of data) as [msv|err] eqn:Hms; [ | exact Hnone].
  unfold bind at 1. unfold lift at 1.
  destruct (elements msv) as [items|err] eqn:Hitems; [ | exact Hnone].
  unfold bind at 1. unfold log at 1.
  destruct (matches_loop_built code items
              (write_log (LogMatchesCount (length items) code) s))
    as (nm & Hm & Fm).
  exists nm. split; [exact Hm | ].
  eapply Forall_impl; [ | exact Fm].
  intros d (m & Hin & Hb & Hc).
  destruct (finished_items_of_matches data msv items m Hms Hitems Hin (proj1 Hb))
    as (ms & Hdata & Hin').
  exists ms, m.
  split; [exact Hdata | split; [exact Hin' | split; [exact Hb | exact Hc]]].
Qed.

(** One task: the Match documents it adds come from the response to
    its own call. *)
Lemma run_task_built (e : string) (s : state) :
  exists nm,
    matches (snd (run_task api store_fails fresh_id e s)) = matches s ++ nm
    /\ Forall (fun d => exists data ms m,
                   api (length (http_calls s)) e = inr data
                   /\ get "matches" data = Ok (VArr ms)
                   /\ In m (firstn 10 ms)
                   /\ built_from m d
                   /\ field "competition_code" d = compCode e) nm.
Proof.
  assert (Hnone : forall s', matches s' = matches s ->
            exists nm,
              matches s' = matches s ++ nm
              /\ Forall (fun d => exists data ms m,
                             api (length (http_calls s)) e = inr data
                             /\ get "matches" data = Ok (VArr ms)
                             /\ In m (firstn 10 ms)
                             /\ built_from m d
                             /\ field "competition_code" d = compCode e) nm).
  { intros s' H. exists []. rewrite app_nil_r. split; [exact H | constructor]. }
  rewrite run_task_unfold.
  destruct (api (length (http_calls s)) e) as [msg|data] eqn:Hresp.
  - rewrite (process_task_rejected api store_fails fresh_id e
               (write_log (LogTask e) s) msg Hresp).
    apply Hnone. reflexivity.
  - rewrite (process_task_fetched api store_fails fresh_id e
               (write_log (LogTask e) s) data Hresp).
    destruct (value_eqb data VUndef) eqn:Hundef.
    + apply value_eqb_eq in Hundef. subst data. apply Hnone. reflexivity.
    + assert (Hdata : data <> VUndef) by (intros ->; discriminate Hundef).
      rewrite (classified_logged store_fails fresh_id e data _ Hdata).
      assert (Hkept : forall m : M unit,
                 preserves (kept Matches) m ->
                 forall s0, matches s0 = matches s ->
                   matches (snd (let (r, s1) := m s0 in
                                 match r with
                                 | Ok _ => (Ok tt, s1)
                                 | Throw err =>
                                     (Ok tt, write_log (LogFailedTask e (message err)) s1)
                                 end))
                   = matches s).
      { intros m Hm s0 Hs0. specialize (Hm s0). unfold kept in Hm. simpl in Hm.
        destruct (m s0) as [[[]|err] s1]; simpl in *; congruence. }
      destruct (classify e) as [[| |]|].
      * apply Hnone. apply Hkept; [ | reflexivity].
        apply store_standings_kept. discriminate.
      * apply Hnone. apply Hkept; [ | reflexivity].
        apply store_competition_kept. discriminate.
      * match goal with
        | |- context [store_matches _ _ _ _ ?s0] =>
            destruct (store_matches_built (compCode e) data s0) as (nm & Hm & Fm);
            destruct (store_matches store_fails fresh_id (compCode e) data s0)
              as [[[]|err] s1]
        end; exists nm; (split; [exact Hm | ]);
          (eapply Forall_impl; [ | exact Fm]);
          intros d (ms & m & H1 & H2 & H3 & H4); exists data, ms, m;
          (split; [reflexivity | split; [exact H1 | split; [exact H2 | split;
             [exact H3 | exact H4]]]]).
      * apply Hnone. reflexivity.
Qed.

Variable P : string -> Prop.

Lemma sourced_refl (s : state) : sourced api P s s.
Proof.
  split; [apply Nat.le_refl | ].
  exists []. rewrite app_nil_r. split; [reflexivity | constructor].
Qed.

Lemma sourced_trans (a b c : state) :
  sourced api P a b -> sourced api P b c -> sourced api P a c.
Proof.
  intros (Hab & nm1 & H1 & F1) (Hbc & nm2 & H2 & F2).
  split; [exact (Nat.le_trans _ _ _ Hab Hbc) | ].
  exists (nm1 ++ nm2). rewrite H2, H1, <- app_assoc. split; [reflexivity | ].
  apply Forall_app. split; (eapply Forall_impl; [ | eassumption]);
    intros d (n & e & data & ms & m & Hn & Hrest);
    exists n, e, data, ms, m; (split; [lia | exact Hrest]).
Qed.

Lemma sourced_quiet (s s' : state) :
  matches s' = matches s ->
  (length (http_calls s) <= length (http_calls s'))%nat ->
  sourced api P s s'.
Proof.
  intros Hm Hc. split; [exact Hc | ].
  exists []. rewrite app_nil_r. split; [exact Hm | constructor].
Qed.

Lemma run_task_sourced (e : string) :
  P e -> preserves (sourced api P) (run_task api store_fails fresh_id e).
Proof.
  intros HP s.
  assert (Hlen : length (http_calls (snd (run_task api store_fails fresh_id e s)))
                 = S (length (http_calls s))).
  { pose proof (run_task_calls api store_fails fresh_id e s) as Hc. simpl in Hc.
    destruct (api (length (http_calls s)) e); destruct Hc as [-> _];
      rewrite length_app; simpl; lia. }
  destruct (run_task_built e s) as (nm & Hm & Fm).
  split; [lia | ].
  exists nm. split; [exact Hm | ].
  eapply Forall_impl; [ | exact Fm].
  intros d (data & ms & m & Hapi & Hrest).
  exists (length (http_calls s)), e, data, ms, m.
  split; [lia | ]. split; [exact HP | ]. split; [exact Hapi | exact Hrest].
Qed.

End Sourced.

Lemma handler_with_sourced
      (api : nat -> string -> string + value)
      (store_fails : nat -> option string) (fresh_id : nat -> string)
      (init_fails : option string) (max : Z) (ts : list task) :
  preserves (sourced api (fun e => exists t, In t ts /\ e = endpoint t))
            (handler_with api store_fails fresh_id init_fails max ts).
Proof.
  apply handler_with_keeps_for;
    try exact (sourced_refl api _); try exact (sourced_trans api _);
    lazymatch goal with
    | |- forall t, In t ts -> _ =>
        intros t Ht; apply run_task_sourced; exists t; split; [exact Ht | reflexivity]
    | |- _ =>
        unfold preserves; intros; unfold axios_get;
        repeat match goal with
          | |- context [match ?x with _ => _ end] => destruct x
          end;
        apply sourced_quiet; simpl; rewrite ?length_app; simpl; try reflexivity; lia
    end.
Qed.

(** Every Match document an invocation adds was built from a finished
    entry among the first ten of the [matches] array of a response
    received during that invocation for the endpoint of one of its
    tasks.  It repeats its own document identifier in its [$id]
    attribute and has the status [FINISHED]; its match identifier, team
    names and date are those of the entry; its [score_home] is
    [match.score.fullTime.home], or [null] when that is [null] or
    [undefined], and its [score_away] likewise; its competition code is
    the one of the endpoint. *)
Theorem match_documents_are_finished_and_self_identified
        (api : nat -> string -> string + value)
        (store_fails : nat -> option string) (fresh_id : nat -> string)
        (init_fails : option string) (max : Z) (ts : list task) (s : state) :
  let s' := snd (handler_with api store_fails fresh_id init_fails max ts s) in
  exists nm,
    matches s' = matches s ++ nm
    /\ Forall (fun d =>
                 field "$id" d = VStr (doc_id d)
                 /\ field "status" d = VStr "FINISHED"
                 /\ exists t n data ms m goals_home goals_away,
                     In t ts
                     /\ (length (http_calls s) <= n < length (http_calls s'))%nat
                     /\ api n (endpoint t) = inr data
                     /\ get "matches" data = Ok (VArr ms)
                     /\ In m (firstn 10 ms)
                     /\ built_from m d
                     /\ field "competition_code" d = compCode (endpoint t)
                     /\ get "status" m = Ok (VStr "FINISHED")
                     /\ get "id" m = Ok (field "match_id" d)
                     /\ full_time "home" m = Ok goals_home
                     /\ full_time "away" m = Ok goals_away
                     /\ field "score_home" d
                        = match goals_home with
                          | VUndef | VNull => VNull
                          | _ => goals_home
                          end
                     /\ field "score_away" d
                        = match goals_away with
                          | VUndef | VNull => VNull
                          | _ => goals_away
                          end) nm.
Proof.
  intros s'.
  destruct (handler_with_sourced api store_fails fresh_id init_fails max ts s)
    as (_ & nm & Hm & Fm).
  exists nm. split; [exact Hm | ].
  eapply Forall_impl; [ | exact Fm].
  intros d (n & e & data & ms & m & Hn & (t & Ht & ->) & Hapi & Hms & Hin & Hb & Hc).
  pose proof Hb as (Hst & Hdst & Hid & _ & _ & (gh & Hgh & Hsh) & (ga & Hga & Hsa)
                        & _ & Hself & _).
  split; [exact Hself | ]. split; [exact Hdst | ].
  exists t, n, data, ms, m, gh, ga.
  split; [exact Ht | ]. split; [exact Hn | ]. split; [exact Hapi | ].
  split; [exact Hms | ]. split; [exact Hin | ]. split; [exact Hb | ].
  split; [exact Hc | ]. split; [exact Hst | ]. split; [exact Hid | ].
  split; [exact Hgh | ]. split; [exact Hga | ]. split; [exact Hsh | exact Hsa].
Qed.

(** ** Checks come first, identifiers are drawn afresh *)

Lemma guarded_app (a b : list store_op) :
  guarded a -> guarded b -> guarded (a ++ b).
Proof.
  intros Ha Hb. induction Ha; simpl; try (constructor; assumption). exact Hb.
Qed.

Lemma checks_first_refl (s : state) : checks_first s s.
Proof. exists []. rewrite app_nil_r. split; [reflexivity | constructor]. Qed.

Lemma checks_first_trans (a b c : state) :
  checks_first a b -> checks_first b c -> checks_first a c.
Proof.
  intros (o & Ho & Go) (o' & Ho' & Go'). exists (o ++ o').
  rewrite Ho', Ho, <- app_assoc. split; [reflexivity | now apply guarded_app].
Qed.

Lemma checks_first_quiet (s s' : state) :
  store_ops s' = store_ops s -> checks_first s s'.
Proof. intros H. exists []. rewrite app_nil_r. split; [exact H | constructor]. Qed.

Lemma creations_app (a b : list store_op) :
  creations (a ++ b) = creations a ++ creations b.
Proof. unfold creations. apply flat_map_app. Qed.

Lemma draws_fresh_refl (fresh_id : nat -> string) (s : state) :
  draws_fresh fresh_id s s.
Proof.
  split; [lia | ]. exists [], []. rewrite app_nil_r.
  repeat split; constructor.
Qed.

Lemma draws_fresh_trans (fresh_id : nat -> string) (a b c : state) :
  draws_fresh fresh_id a b -> draws_fresh fresh_id b c -> draws_fresh fresh_id a c.
Proof.
  intros (Hab & o & ks & Ho & Hk & Hnd & Hbd) (Hbc & o' & ks' & Ho' & Hk' & Hnd' & Hbd').
  split; [lia | ]. exists (o ++ o'), (ks ++ ks').
  rewrite Ho', Ho, <- app_assoc, creations_app, !map_app, Hk, Hk'.
  split; [reflexivity | ]. split; [reflexivity | ]. split.
  - apply NoDup_app; [exact Hnd | exact Hnd' | ].
    intros k Hin Hin'.
    rewrite Forall_forall in Hbd, Hbd'.
    specialize (Hbd k Hin). specialize (Hbd' k Hin'). lia.
  - apply Forall_app. split.
    + eapply Forall_impl; [ | exact Hbd]. intros k Hk0. simpl in *. lia.
    + eapply Forall_impl; [ | exact Hbd']. intros k Hk0. simpl in *. lia.
Qed.

(** A step that creates nothing and may draw identifiers. *)
Lemma draws_fresh_idle (fresh_id : nat -> string) (s s' : state) (ops : list store_op) :
  store_ops s' = store_ops s ++ ops ->
  creations ops = [] ->
  (next_id s <= next_id s')%nat ->
  draws_fresh fresh_id s s'.
Proof.
  intros Ho Hc Hn. split; [exact Hn | ]. exists ops, [].
  rewrite Hc. repeat split; try assumption; constructor.
Qed.

(** A step that draws one identifier and passes it to one creation. *)
Lemma draws_fresh_one (fresh_id : nat -> string) (s s' : state)
      (before : list store_op) (c : collection) (d : document) :
  store_ops s' = store_ops s ++ before ++ [OpCreate c d] ->
  creations before = [] ->
  doc_id d = fresh_id (next_id s) ->
  next_id s' = S (next_id s) ->
  draws_fresh fresh_id s s'.
Proof.
  intros Ho Hc Hd Hn. split; [lia | ].
  exists (before ++ [OpCreate c d]), [next_id s].
  rewrite creations_app, Hc. simpl. rewrite Hd, Hn.
  repeat split; try assumption.
  - constructor; [intros [] | constructor].
  - repeat constructor; lia.
Qed.

Section Discipline.

Variable api : nat -> string -> string + value.
Variable store_fails : nat -> option string.
Variable fresh_id : nat -> string.
Variable init_fails : option string.

Ltac quiet_step := apply checks_first_quiet; reflexivity.

Ltac case_store :=
  cbv beta iota zeta;
  match goal with
  | |- context [store_fails ?n] => destruct (store_fails n)
  end.

Ltac idle_step :=
  first
    [ apply (draws_fresh_idle fresh_id _ _ []);
      [simpl; now rewrite app_nil_r | reflexivity | simpl; lia]
    | eapply draws_fresh_idle;
      [simpl; rewrite <- ?app_assoc; reflexivity | reflexivity | simpl; lia] ].

Lemma store_standing_disciplined (code row : value) :
  preserves checks_first (store_standing store_fails fresh_id code row)
  /\ preserves (draws_fresh fresh_id) (store_standing store_fails fresh_id code row).
Proof.
  split; intros s;
    unfold store_standing, bind, ID_unique, lift, createDocument, log;
    destruct (standing_body code row) as [b|err].
  - eexists. split; [case_store; simpl; reflexivity | ].
    repeat constructor.
  - quiet_step.
  - apply (draws_fresh_one fresh_id _ _ [] Standings
             (mkDocument (fresh_id (next_id s)) b None));
      try case_store; reflexivity.
  - idle_step.
Qed.

Lemma store_competition_disciplined (code data : value) :
  preserves checks_first (store_competition store_fails fresh_id code data)
  /\ preserves (draws_fresh fresh_id) (store_competition store_fails fresh_id code data).
Proof.
  split; intros s;
    unfold store_competition, bind, listDocuments, ID_unique, lift,
      createDocument, log, documents.
  - destruct (store_fails (length (store_ops s)));
      [eexists; split; [reflexivity | repeat constructor] | ].
    destruct (filter _ (competitions s));
      [ | eexists; split; [reflexivity | repeat constructor]].
    simpl.
    destruct (competition_body code data) as [b|err] eqn:Hb;
      [ | eexists; split; [reflexivity | repeat constructor]].
    exists [OpList Competitions "code" code;
            OpCreate Competitions (mkDocument (fresh_id (next_id s)) b (Some [ReadAny]))].
    split; [case_store; simpl; now rewrite <- app_assoc | ].
    rewrite <- (proj2 (competition_body_shape code data b Hb)) at 1.
    apply (guarded_competition (mkDocument _ b _)). constructor.
  - destruct (store_fails (length (store_ops s))); [idle_step | ].
    destruct (filter _ (competitions s)); [ | idle_step].
    simpl.
    destruct (competition_body code data) as [b|err]; [ | idle_step].
    apply (draws_fresh_one fresh_id _ _ [OpList Competitions "code" code] Competitions
             (mkDocument (fresh_id (next_id s)) b (Some [ReadAny])));
      try case_store; simpl; rewrite <- ?app_assoc; reflexivity.
Qed.

Lemma store_match_disciplined (code m : value) :
  preserves checks_first (store_match store_fails fresh_id code m)
  /\ preserves (draws_fresh fresh_id) (store_match store_fails fresh_id code m).
Proof.
  split; intros s; unfold store_match; unfold bind at 1; unfold lift at 1;
    (destruct (get "status" m) as [st|err];
     [ | first [apply checks_first_refl | apply draws_fresh_refl]]);
    (destruct (value_eqb st (VStr "FINISHED"));
     [ | first [apply checks_first_refl | apply draws_fresh_refl]]);
    unfold bind at 1; unfold lift at 1;
    (destruct (get "id" m) as [id|err] eqn:Hid;
     [ | first [apply checks_first_refl | apply draws_fresh_refl]]);
    unfold bind, listDocuments, ID_unique, lift, createDocument, log, documents.
  - destruct (store_fails (length (store_ops s)));
      [eexists; split; [reflexivity | repeat constructor] | ].
    destruct (filter _ (matches s));
      [ | eexists; split; [reflexivity | repeat constructor]].
    simpl.
    destruct (match_body (fresh_id (next_id s)) code m) as [b|err] eqn:Hb;
      [ | eexists; split; [reflexivity | repeat constructor]].
    exists [OpList Matches "match_id" id;
            OpCreate Matches (mkDocument (fresh_id (next_id s)) b (Some [ReadAny]))].
    split; [case_store; simpl; now rewrite <- app_assoc | ].
    assert (Hmid : id = field "match_id"
                           (mkDocument (fresh_id (next_id s)) b (Some [ReadAny]))).
    { unfold field. simpl. rewrite (match_body_id _ _ _ _ Hb).
      unfold match_id_of. now rewrite Hid. }
    rewrite Hmid at 1. apply guarded_match. constructor.
  - destruct (store_fails (length (store_ops s))); [idle_step | ].
    destruct (filter _ (matches s)); [ | idle_step].
    simpl.
    destruct (match_body (fresh_id (next_id s)) code m) as [b|err]; [ | idle_step].
    apply (draws_fresh_one fresh_id _ _ [OpList Matches "match_id" id] Matches
             (mkDocument (fresh_id (next_id s)) b (Some [ReadAny])));
      try case_store; simpl; rewrite <- ?app_assoc; reflexivity.
Qed.

Ltac outside_branches :=
  unfold preserves; intros; unfold axios_get;
  repeat match goal with
    | |- context [match ?x with _ => _ end] => destruct x
    end;
  first [quiet_step | idle_step].

Lemma handler_with_checks_first (max : Z) (ts : list task) :
  preserves checks_first (handler_with api store_fails fresh_id init_fails max ts).
Proof.
  apply handler_with_keeps;
    try exact checks_first_refl; try exact checks_first_trans;
    lazymatch goal with
    | |- forall code data, preserves _ (store_standings _ _ code data) =>
        intros code data; unfold store_standings;
        apply (preserves_bind _ checks_first_trans);
          [apply (preserves_lift _ checks_first_refl) | intros rows];
        apply (preserves_bind _ checks_first_trans);
          [apply (preserves_lift _ checks_first_refl) | intros items];
        apply (preserves_bind _ checks_first_trans); [outside_branches | intros _];
        apply (preserves_for_each _ checks_first_refl checks_first_trans);
        intros row; apply store_standing_disciplined
    | |- forall code data, preserves _ (store_competition _ _ code data) =>
        intros code data; apply store_competition_disciplined
    | |- forall code data, preserves _ (store_matches _ _ code data) =>
        intros code data; unfold store_matches;
        apply (preserves_bind _ checks_first_trans);
          [apply (preserves_lift _ checks_first_refl) | intros ms];
        apply (preserves_bind _ checks_first_trans);
          [apply (preserves_lift _ checks_first_refl) | intros items];
        apply (preserves_bind _ checks_first_trans); [outside_branches | intros _];
        apply (preserves_for_each _ checks_first_refl checks_first_trans);
        intros m; apply store_match_disciplined
    | |- _ => outside_branches
    end.
Qed.

Lemma handler_with_draws_fresh (max : Z) (ts : list task) :
  preserves (draws_fresh fresh_id)
            (handler_with api store_fails fresh_id init_fails max ts).
Proof.
  apply handler_with_keeps;
    try exact (draws_fresh_refl fresh_id); try exact (draws_fresh_trans fresh_id);
    lazymatch goal with
    | |- forall code data, preserves _ (store_standings _ _ code data) =>
        intros code data; unfold store_standings;
        apply (preserves_bind _ (draws_fresh_trans fresh_id));
          [apply (preserves_lift _ (draws_fresh_refl fresh_id)) | intros rows];
        apply (preserves_bind _ (draws_fresh_trans fresh_id));
          [apply (preserves_lift _ (draws_fresh_refl fresh_id)) | intros items];
        apply (preserves_bind _ (draws_fresh_trans fresh_id));
          [outside_branches | intros _];
        apply (preserves_for_each _ (draws_fresh_refl fresh_id)
                                  (draws_fresh_trans fresh_id));
        intros row; apply store_standing_disciplined
    | |- forall code data, preserves _ (store_competition _ _ code data) =>
        intros code data; apply store_competition_disciplined
    | |- forall code data, preserves _ (store_matches _ _ code data) =>
        intros code data; unfold store_matches;
        apply (preserves_bind _ (draws_fresh_trans fresh_id));
          [apply (preserves_lift _ (draws_fresh_refl fresh_id)) | intros ms];
        apply (preserves_bind _ (draws_fresh_trans fresh_id));
          [apply (preserves_lift _ (draws_fresh_refl fresh_id)) | intros items];
        apply (preserves_bind _ (draws_fresh_trans fresh_id));
          [outside_branches | intros _];
        apply (preserves_for_each _ (draws_fresh_refl fresh_id)
                                  (draws_fresh_trans fresh_id));
        intros m; apply store_match_disciplined
    | |- _ => outside_branches
    end.
Qed.

End Discipline.

Lemma guarded_positions (ops : list store_op) :
  guarded ops ->
  (forall d, hd_error ops <> Some (OpCreate Competitions d)
             /\ hd_error ops <> Some (OpCreate Matches d))
  /\ (forall i d,
         nth_error ops (S i) = Some (OpCreate Competitions d) ->
         nth_error ops i = Some (OpList Competitions "code" (field "code" d)))
  /\ (forall i d,
         nth_error ops (S i) = Some (OpCreate Matches d) ->
         nth_error ops i = Some (OpList Matches "match_id" (field "match_id" d))).
Proof.
  induction 1 as [ | c k v ops G (Hh & Hc & Hm) | d0 ops G (Hh & Hc & Hm)
                   | d0 ops G (Hh & Hc & Hm) | d0 ops G (Hh & Hc & Hm)].
  - repeat split; try discriminate; intros [|i] d H; discriminate H.
  - split; [intros d; split; discriminate | ].
    split; intros [|i] d H; simpl in *;
      first [ destruct ops; [discriminate H | ];
              exfalso; simpl in H; injection H as ->;
              destruct (Hh d) as [H1 H2]; first [now apply H1 | now apply H2]
            | now apply Hc | now apply Hm ].
  - split; [intros d; split; discriminate | ].
    split; intros [|i] d H; simpl in *;
      first [ destruct ops; [discriminate H | ];
              exfalso; simpl in H; injection H as ->;
              destruct (Hh d) as [H1 H2]; first [now apply H1 | now apply H2]
            | now apply Hc | now apply Hm ].
  - split; [intros d; split; discriminate | ].
    split; intros [|[|i]] d H; simpl in *;
      first [ injection H as <-; reflexivity
            | discriminate H
            | destruct ops; [discriminate H | ];
              exfalso; simpl in H; injection H as ->;
              destruct (Hh d) as [H1 H2]; first [now apply H1 | now apply H2]
            | now apply Hc | now apply Hm ].
  - split; [intros d; split; discriminate | ].
    split; intros [|[|i]] d H; simpl in *;
      first [ injection H as <-; reflexivity
            | discriminate H
            | destruct ops; [discriminate H | ];
              exfalso; simpl in H; injection H as ->;
              destruct (Hh d) as [H1 H2]; first [now apply H1 | now apply H2]
            | now apply Hc | now apply Hm ].
Qed.

(** Whatever the upstream API and the store do, among the store
    operations of one invocation a Competition is never created, nor a
    Match, unless the operation right before was the listing of the
    documents that have its code, or its match identifier. *)
Theorem creations_directly_follow_their_check
        (api : nat -> string -> string + value)
        (store_fails : nat -> option string) (fresh_id : nat -> string)
        (init_fails : option string) (max : Z) (ts : list task) (s : state) :
  exists ops,
    store_ops (snd (handler_with api store_fails fresh_id init_fails max ts s))
    = store_ops s ++ ops
    /\ guarded ops
    /\ (forall d, hd_error ops <> Some (OpCreate Competitions d)
                  /\ hd_error ops <> Some (OpCreate Matches d))
    /\ (forall i d,
           nth_error ops (S i) = Some (OpCreate Competitions d) ->
           nth_error ops i = Some (OpList Competitions "code" (field "code" d)))
    /\ (forall i d,
           nth_error ops (S i) = Some (OpCreate Matches d) ->
           nth_error ops i = Some (OpList Matches "match_id" (field "match_id" d))).
Proof.
  destruct (handler_with_checks_first api store_fails fresh_id init_fails max ts s)
    as (ops & Ho & G).
  exists ops. split; [exact Ho | ]. split; [exact G | ].
  apply guarded_positions. exact G.
Qed.

Lemma NoDup_map_injective {A B : Type} (f : A -> B) (l : list A) :
  (forall a b, f a = f b -> a = b) -> NoDup l -> NoDup (map f l).
Proof.
  intros Hinj Hnd. induction Hnd as [|a l Hnotin Hnd IH]; simpl; constructor.
  - intros Hin. apply in_map_iff in Hin. destruct Hin as (b & Hb & Hin).
    apply Hinj in Hb. subst b. now apply Hnotin.
  - exact IH.
Qed.

(** Every document passed to [createDocument] in one invocation carries
    an identifier drawn from [ID.unique()] during that invocation, and
    no draw is used for two documents: if the generator never repeats
    itself, no two documents created in one invocation share an
    identifier. *)
Theorem created_documents_get_fresh_identifiers
        (api : nat -> string -> string + value)
        (store_fails : nat -> option string) (fresh_id : nat -> string)
        (init_fails : option string) (max : Z) (ts : list task) (s : state) :
  let s' := snd (handler_with api store_fails fresh_id init_fails max ts s) in
  exists ops ks,
    store_ops s' = store_ops s ++ ops
    /\ map doc_id (creations ops) = map fresh_id ks
    /\ NoDup ks
    /\ Forall (fun k => next_id s <= k < next_id s')%nat ks
    /\ ((forall a b, fresh_id a = fresh_id b -> a = b) ->
        NoDup (map doc_id (creations ops))).
Proof.
  intros s'.
  destruct (handler_with_draws_fresh api store_fails fresh_id init_fails max ts s)
    as (_ & ops & ks & Ho & Hk & Hnd & Hbd).
  exists ops, ks. repeat split; try assumption.
  intros Hinj. rewrite Hk. now apply NoDup_map_injective.
Qed.

Lemma numbered_id_injective (a b : nat) :
  numbered_id a = numbered_id b -> a = b.
Proof.
  unfold numbered_id. intros H. simpl in H. injection H as H.
  apply DecimalNat.Unsigned.to_uint_inj.
  apply (f_equal DecimalString.NilEmpty.uint_of_string) in H.
  rewrite !DecimalString.NilEmpty.usu in H. now injection H.
Qed.

Lemma created_documents_get_fresh_identifiers_witness :
  (forall a b, numbered_id a = numbered_id b -> a = b)
  /\ exists ops,
      store_ops (snd (handler_with (steady_api overlapping_responses)
                                   reliable_store numbered_id None
                                   maxRequests tasks empty_store))
      = store_ops empty_store ++ ops
      /\ NoDup (map doc_id (creations ops)).
Proof.
  split; [exact numbered_id_injective | ].
  destruct (created_documents_get_fresh_identifiers
              (steady_api overlapping_responses) reliable_store numbered_id
              None maxRequests tasks empty_store)
    as (ops & ks & Ho & _ & _ & _ & Hinj).
  exists ops. split; [exact Ho | exact (Hinj numbered_id_injective)].
Defined.

(** ** A standings task that fails part-way *)

Section PartialStandings.

Variable api : nat -> string -> string + value.
Variable store_fails : nat -> option string.
Variable fresh_id : nat -> string.

Lemma standings_loop_prefix (code : value) (rows : list value) (s : state) :
  exists new rest,
    standings (snd (for_each (store_standing store_fails fresh_id code) rows s))
    = standings s ++ new
    /\ standing_bodies code rows = map doc_body new ++ rest.
Proof.
  revert s. induction rows as [|row rows IH]; intros s.
  - exists [], []. simpl. now rewrite app_nil_r.
  - simpl for_each. simpl standing_bodies.
    unfold bind at 1. unfold store_standing at 1.
    unfold bind, ID_unique, lift, createDocument, log.
    destruct (standing_body code row) as [b|err].
    + cbv beta iota zeta.
      match goal with
      | |- context [store_fails ?n] => destruct (store_fails n)
      end.
      * exists [], (b :: standing_bodies code rows). simpl. now rewrite app_nil_r.
      * cbv beta iota zeta.
        match goal with
        | |- context [for_each _ rows ?s1] =>
            destruct (IH s1) as (new & rest & Hs & Hb)
        end.
        exists (mkDocument (fresh_id (next_id s)) b None :: new), rest.
        rewrite Hs. simpl. rewrite <- app_assoc. split; [reflexivity | ].
        now rewrite Hb.
    + exists [], []. simpl. now rewrite app_nil_r.
Qed.

Lemma store_standings_prefix (code data : value) (s : state) :
  exists new rest,
    standings (snd (store_standings store_fails fresh_id code data s))
    = standings s ++ new
    /\ match (let* rows := standings_of data in elements rows) with
       | Ok items => standing_bodies code items
       | Throw _ => []
       end = map doc_body new ++ rest.
Proof.
  unfold store_standings. unfold bind at 1. unfold lift at 1.
  destruct (standings_of data) as [rows|err]; simpl rbind;
    [ | exists [], []; simpl; now rewrite app_nil_r].
  unfold bind at 1. unfold lift at 1.
  destruct (elements rows) as [items|err];
    [ | exists [], []; simpl; now rewrite app_nil_r].
  unfold bind at 1. unfold log at 1.
  exact (standings_loop_prefix code items
           (write_log (LogStandingsCount (length items) code) s)).
Qed.

End PartialStandings.

(** A task never writes standings out of order or with gaps, whatever
    fails: the bodies it appends are an initial part, in table order, of
    the bodies it would append if every store operation were accepted
    (the rows of the slice up to the first one that cannot be read).  A
    task of another kind, or one whose call is rejected, appends
    none. *)
Theorem standings_are_written_in_order_without_gaps
        (api : nat -> string -> string + value)
        (store_fails : nat -> option string) (fresh_id : nat -> string)
        (e : string) (s : state) :
  exists new rest,
    standings (snd (run_task api store_fails fresh_id e s)) = standings s ++ new
    /\ task_standings (api (length (http_calls s))) e = map doc_body new ++ rest.
Proof.
  assert (Hnone : forall s', standings s' = standings s ->
                  exists new rest : list _,
                    standings s' = standings s ++ new
                    /\ @nil body = map doc_body new ++ rest).
  { intros s' H. exists [], []. rewrite app_nil_r. split; [exact H | reflexivity]. }
  rewrite run_task_unfold. unfold task_standings.
  destruct (api (length (http_calls s)) e) as [msg|data] eqn:Hresp.
  - rewrite (process_task_rejected api store_fails fresh_id e
               (write_log (LogTask e) s) msg Hresp).
    apply Hnone. reflexivity.
  - rewrite (process_task_fetched api store_fails fresh_id e
               (write_log (LogTask e) s) data Hresp).
    destruct (value_eqb data VUndef) eqn:Hundef.
    + apply value_eqb_eq in Hundef. subst data. apply Hnone. reflexivity.
    + assert (Hdata : data <> VUndef) by (intros ->; discriminate Hundef).
      rewrite (classified_logged store_fails fresh_id e data _ Hdata).
      assert (Hts : forall l : list body,
                 match data with VUndef => [] | _ => l end = l)
        by (intros l; destruct data; try reflexivity; now elim Hdata).
      rewrite Hts. clear Hts.
      assert (Hkept : forall m : M unit,
                 preserves (kept Standings) m ->
                 forall s0, standings s0 = standings s ->
                   standings (snd (let (r, s1) := m s0 in
                                   match r with
                                   | Ok _ => (Ok tt, s1)
                                   | Throw err =>
                                       (Ok tt, write_log (LogFailedTask e (message err)) s1)
                                   end))
                   = standings s).
      { intros m Hm s0 Hs0. specialize (Hm s0). unfold kept in Hm. simpl in Hm.
        destruct (m s0) as [[[]|err] s1]; simpl in *; congruence. }
      destruct (classify e) as [[| |]|].
      * match goal with
        | |- context [store_standings _ _ _ _ ?s0] =>
            destruct (store_standings_prefix store_fails fresh_id (compCode e) data s0)
              as (new & rest & Hs & Hb);
            destruct (store_standings store_fails fresh_id (compCode e) data s0)
              as [[[]|err] s1]
        end; exists new, rest; simpl in *; split; assumption.
      * apply Hnone. apply Hkept; [ | reflexivity].
        apply store_competition_kept. discriminate.
      * apply Hnone. apply Hkept; [ | reflexivity].
        apply store_matches_kept. discriminate.
      * apply Hnone. reflexivity.
Qed.
